(** * Drone simulation platform: planners, tour solver and trajectory synthesizer

    A shallow embedding of the computational core of the repository
    (controller/astar_planner.py, controller/rrt_planner.py,
    controller/rrt_star_planner.py, controller/path_planner_wrapper.py,
    data_processing/tsp_utils.py, controller/simulation_controller.py),
    of the code around it (data_processing/utils.py,
    data_processing/world_data_builder.py, config/load_config.py,
    controller/query.py, controller/db.py, controller/sim_controller.py and
    the endpoints of main.py), and the properties of its specification.

    Conventions of the embedding:
    - Python floats are idealised as real numbers ([R]); [float('inf')] is the
      extra point [Inf] of [ext]. What turns on rounding, on nan or on the
      infinities is embedded on binary64 numbers: [AStarPlanner] as the
      module [AStar64], which is the planner that the façade and the
      controller hold, and [RRT.steer] as the module [RRT64]. The module
      [AStar] is the same search with exact sums.
    - numpy 2-D arrays are row-major lists of rows ([ndarray]).
    - dicts and sets are stdpp's [gmap] and [gset].
    - a Python call either returns, raises, or does not terminate
      ([outcome]); loops that Python writes as [while] take a fuel argument
      and [Diverge] stands for running out of it. *)

From Stdlib Require Import Floats Reals Lra ZArith Lia.
From stdpp Require Import gmap strings list fin_maps sorting.

(* ===================================================================== *)
(** * Part I: the embedding                                               *)
(* ===================================================================== *)

(** ** Outcomes of a Python call *)

Inductive exn : Type :=
| TypeError
| ValueError
| IndexError
| AttributeError
| DivideByZero.

Inductive outcome (A : Type) : Type :=
| Ok (a : A)
| Raise (e : exn)
| Diverge.

Arguments Ok {A} a.
Arguments Raise {A} e.
Arguments Diverge {A}.

#[global] Instance outcome_ret : MRet outcome := fun A a => Ok a.

#[global] Instance outcome_bind : MBind outcome := fun A B f m =>
  match m with
  | Ok a => f a
  | Raise e => Raise e
  | Diverge => Diverge
  end.

(** The call comes back, with a value or an exception. *)
Definition terminates {A : Type} (o : outcome A) : Prop :=
  match o with
  | Diverge => False
  | _ => True
  end.

(** The call does not hand back a value: it raises or never returns. *)
Definition fails {A : Type} (o : outcome A) : Prop :=
  match o with
  | Ok _ => False
  | _ => True
  end.

(** A [for] loop whose body may raise: the state is threaded left to right
    and the first exception leaves the loop. *)
Fixpoint for_each {A S : Type} (body : S -> A -> outcome S) (s : S) (l : list A)
  : outcome S :=
  match l with
  | [] => Ok s
  | x :: l' => s' ← body s x; for_each body s' l'
  end.

(** An index that Python takes out of a list or an array: [None] is
    [IndexError]. *)
Definition or_raise {A : Type} (e : exn) (o : option A) : outcome A :=
  match o with
  | Some a => Ok a
  | None => Raise e
  end.

(** ** Floats as reals *)

#[global] Instance R_eq_dec : EqDecision R := Req_dec_T.
#[global] Instance R_inhabited : Inhabited R := populate 0%R.

Definition Rltb (x y : R) : bool := if Rlt_dec x y then true else false.
Definition Rleb (x y : R) : bool := if Rle_dec x y then true else false.

(** [float('inf')] and the finite floats. *)
Inductive ext : Type :=
| Fin (r : R)
| Inf.

Definition ext_add (a : ext) (r : R) : ext :=
  match a with
  | Fin x => Fin (x + r)
  | Inf => Inf
  end.

(** [t < e] for a finite [t]. *)
Definition lt_ext (t : R) (e : ext) : bool :=
  match e with
  | Fin x => Rltb t x
  | Inf => true
  end.

(** Python's [int(x)] on a float: truncation toward zero. *)
Definition trunc (x : R) : Z :=
  if Rle_dec 0 x then Int_part x else (- Int_part (- x))%Z.

(** Python's [math.floor]. *)
Definition floor (x : R) : Z := Int_part x.

(** Python's [x % m] on floats, for a positive [m]: the result has the sign of
    the divisor. *)
Definition pymod (x m : R) : R := (x - IZR (Int_part (x / m)) * m)%R.

(** A division of Python floats: [ZeroDivisionError] on a zero divisor. *)
Definition fdiv (x y : R) : outcome R :=
  if decide (y = 0%R) then Raise DivideByZero else Ok (x / y)%R.

(** [np.linalg.norm] of a two-component vector. *)
Definition norm2 (x y : R) : R := sqrt (x * x + y * y).

(** ** numpy 2-D arrays *)

Definition ndarray (A : Type) : Type := list (list A).

Definition shape0 {A : Type} (a : ndarray A) : Z := Z.of_nat (length a).
Definition shape1 {A : Type} (a : ndarray A) : Z := Z.of_nat (length (hd [] a)).

(** [a[i, j]] for indices already known to be within [0 <= i < shape0] and
    [0 <= j < shape1]. *)
Definition np_item {A : Type} `{Inhabited A} (a : ndarray A) (i j : Z) : A :=
  (a !!! Z.to_nat i) !!! Z.to_nat j.

(** numpy's index normalisation along an axis of length [n]: negative indices
    count from the end, anything else out of range is [IndexError]. *)
Definition np_index (n i : Z) : option Z :=
  if bool_decide (0 <= i < n)%Z then Some i
  else if bool_decide (- n <= i < 0)%Z then Some (i + n)%Z
  else None.

(** [a[i, j]] for arbitrary integer indices. *)
Definition np_get {A : Type} `{Inhabited A} (a : ndarray A) (i j : Z) : outcome A :=
  r ← or_raise IndexError (np_index (shape0 a) i);
  c ← or_raise IndexError (np_index (shape1 a) j);
  Ok (np_item a r c).

(** Grid cells are pairs of Python ints; Python compares tuples
    lexicographically. *)
Definition node : Type := (Z * Z)%type.

Definition node_ltb (a b : node) : bool :=
  (a.1 <? b.1)%Z || ((a.1 =? b.1)%Z && (a.2 <? b.2)%Z).

(** ** controller/astar_planner.py *)

Module AStar.

Record AStarPlanner : Type := {
  grid : ndarray Z;
  elevation : option (ndarray R);
  elevation_penalty : R;
  debug : bool
}.

Definition directions : list (Z * Z) :=
  [ (0, 1); (0, -1);
    (1, 0); (-1, 0);
    (1, 1); (1, -1);
    (-1, 1); (-1, -1) ]%Z.

Definition in_bounds (self : AStarPlanner) (n : node) : bool :=
  bool_decide (0 <= n.1 < shape0 (grid self))%Z
  && bool_decide (0 <= n.2 < shape1 (grid self))%Z.

(** The generator [get_neighbors(pos)], as the list of what it yields. *)
Definition get_neighbors (self : AStarPlanner) (pos : node) : list (node * R) :=
  omap (fun d : Z * Z =>
          let nx := (pos.1 + d.1)%Z in
          let ny := (pos.2 + d.2)%Z in
          if in_bounds self (nx, ny) then
            if bool_decide (np_item (grid self) nx ny = 0%Z)
            then Some ((nx, ny), norm2 (IZR d.1) (IZR d.2))
            else None
          else None)
       directions.

(** An entry of the heap [open_set]: the tuple [(f_score, node)]. *)
Definition entry : Type := (R * node)%type.

(** Python's tuple order on entries. *)
Definition entry_leb (a b : entry) : bool :=
  Rltb a.1 b.1 || (bool_decide (a.1 = b.1) && negb (node_ltb b.2 a.2)).

(** The least entry of [e :: l] and the remaining entries. The heap is kept
    as the multiset of its entries: [heappush] adds one, [heappop] takes the
    least out. *)
Fixpoint pop_min (e : entry) (l : list entry) : entry * list entry :=
  match l with
  | [] => (e, [])
  | x :: l' =>
      let '(m, rest) := pop_min x l' in
      if entry_leb e m then (e, l) else (m, e :: rest)
  end.

Definition heappop (h : list entry) : option (entry * list entry) :=
  match h with
  | [] => None
  | e :: l => Some (pop_min e l)
  end.

Definition heappush (h : list entry) (e : entry) : list entry := e :: h.

(** The search state of one [find_path] call. *)
Record search : Type := {
  open_set : list entry;
  came_from : gmap node node;
  g_score : gmap node R;
  visited : gset node
}.

(** [g_score[n]] on the [defaultdict(lambda: float('inf'))]. *)
Definition g_get (s : search) (n : node) : ext :=
  match g_score s !! n with
  | Some g => Fin g
  | None => Inf
  end.

Definition elev_cost (self : AStarPlanner) (current neighbor : node) : outcome R :=
  match elevation self with
  | None => Ok 0%R
  | Some elev =>
      elev_current ← np_get elev current.1 current.2;
      elev_neighbor ← np_get elev neighbor.1 neighbor.2;
      Ok (elevation_penalty self * Rabs (elev_neighbor - elev_current))%R
  end.

(** The heuristic term [np.linalg.norm(goal_np - neighbor_np)]. *)
Definition heuristic (goal n : node) : R :=
  norm2 (IZR (goal.1 - n.1)) (IZR (goal.2 - n.2)).

(** The body of [for neighbor, base_cost in get_neighbors(current)]. *)
Definition relax (self : AStarPlanner) (goal current : node)
    (s : search) (nb : node * R) : outcome search :=
  let neighbor := nb.1 in
  let base_cost := nb.2 in
  if bool_decide (neighbor ∈ visited s) then Ok s
  else
    ec ← elev_cost self current neighbor;
    let cost := (base_cost + ec)%R in
    match ext_add (g_get s current) cost with
    | Inf => Ok s
    | Fin tentative_g =>
        if lt_ext tentative_g (g_get s neighbor) then
          let f_score := (tentative_g + heuristic goal neighbor)%R in
          Ok {| open_set := heappush (open_set s) (f_score, neighbor);
                came_from := <[neighbor := current]> (came_from s);
                g_score := <[neighbor := tentative_g]> (g_score s);
                visited := visited s |}
        else Ok s
    end.

(** [while current in came_from: path.append(current); current = came_from[current]]:
    the list [path] as the appends build it. *)
Fixpoint walk_back (fuel : nat) (cf : gmap node node) (current : node)
  : outcome (list node) :=
  match fuel with
  | O => Diverge
  | S fuel' =>
      match cf !! current with
      | None => Ok []
      | Some parent => path ← walk_back fuel' cf parent; Ok (current :: path)
      end
  end.

Definition reconstruct (cf : gmap node node) (start current : node)
  : outcome (list node) :=
  path ← walk_back (S (size cf)) cf current;
  Ok (reverse (path ++ [start])).

(** [while open_set: ...]. *)
Fixpoint search_loop (fuel : nat) (self : AStarPlanner) (start goal : node)
    (s : search) : outcome (option (list node)) :=
  match fuel with
  | O => Diverge
  | S fuel' =>
      match heappop (open_set s) with
      | None => Ok None
      | Some (top, rest) =>
          let current := top.2 in
          if bool_decide (current = goal) then
            path ← reconstruct (came_from s) start current; Ok (Some path)
          else
            let s1 := {| open_set := rest;
                         came_from := came_from s;
                         g_score := g_score s;
                         visited := {[current]} ∪ visited s |} in
            s2 ← for_each (relax self goal current) s1 (get_neighbors self current);
            search_loop fuel' self start goal s2
      end
  end.

(** Every pop either closes a new cell or finds the cell closed already, and
    only the first closing of a cell pushes, at most eight entries: the loop
    body runs at most [search_fuel] times. *)
Definition search_fuel (self : AStarPlanner) : nat :=
  9 * (Z.to_nat (shape0 (grid self) * shape1 (grid self)) + 1) + 2.

Definition initial (start : node) : search :=
  {| open_set := [(0%R, start)];
     came_from := ∅;
     g_score := {[start := 0%R]};
     visited := ∅ |}.

(** [AStarPlanner.find_path]: [Ok None] is the return value [None]. *)
Definition find_path (self : AStarPlanner) (start goal : node)
  : outcome (option (list node)) :=
  if bool_decide (start = goal) then Ok (Some [start])
  else search_loop (search_fuel self) self start goal (initial start).

End AStar.

(** ** Floats as binary64

    IEEE 754 binary64 numbers, the values of Python's [float] and of numpy's
    [float64], with their rounding, their nan and their infinities. *)

Module F64.

(** The conversion of a Python int to a float: rounded to the nearest
    binary64 number, exact below [2 ^ 53]. *)
Definition of_Z (z : Z) : float :=
  SF2Prim (binary_normalize prec emax z 0 false).

(** [np.linalg.norm] of a two-component vector. *)
Definition norm2 (x y : float) : float :=
  PrimFloat.sqrt (PrimFloat.add (PrimFloat.mul x x) (PrimFloat.mul y y)).

(** The real number that a finite float stands for (0 for the others). *)
Definition to_R (x : float) : R :=
  match Prim2SF x with
  | S754_finite s m e => ((if s then -1 else 1) * IZR (Z.pos m) * powerRZ 2 e)%R
  | _ => 0%R
  end.

End F64.

#[global] Instance float_inhabited : Inhabited float := populate PrimFloat.zero.

(** ** controller/astar_planner.py, on binary64

    [AStarPlanner] with the numbers of the code: the elevations, the
    penalty, the edge costs and the scores are floats, and
    [tentative_g < g_score[neighbor]] is the comparison of floats, false
    when either side is nan. *)

Module AStar64.

Record AStarPlanner : Type := {
  grid : ndarray Z;
  elevation : option (ndarray float);
  elevation_penalty : float;
  debug : bool
}.

Definition in_bounds (self : AStarPlanner) (n : node) : bool :=
  bool_decide (0 <= n.1 < shape0 (grid self))%Z
  && bool_decide (0 <= n.2 < shape1 (grid self))%Z.

(** The generator [get_neighbors(pos)], as the list of what it yields. *)
Definition get_neighbors (self : AStarPlanner) (pos : node) : list (node * float) :=
  omap (fun d : Z * Z =>
          let nx := (pos.1 + d.1)%Z in
          let ny := (pos.2 + d.2)%Z in
          if in_bounds self (nx, ny) then
            if bool_decide (np_item (grid self) nx ny = 0%Z)
            then Some ((nx, ny), F64.norm2 (F64.of_Z d.1) (F64.of_Z d.2))
            else None
          else None)
       AStar.directions.

(** An entry of the heap [open_set]: the tuple [(f_score, node)]. *)
Definition entry : Type := (float * node)%type.

(** Python's [a < b] on two entries: the first components decide unless
    they are equal. *)
Definition entry_ltb (a b : entry) : bool :=
  if PrimFloat.eqb a.1 b.1 then node_ltb a.2 b.2 else PrimFloat.ltb a.1 b.1.

(** The least entry of [e :: l] and the remaining entries. An f-score is
    pushed only after [tentative_g < g_score[neighbor]] held, so it is never
    nan and the entries are totally ordered: [heappop] hands out a least
    one, and least entries name the same node. *)
Fixpoint pop_min (e : entry) (l : list entry) : entry * list entry :=
  match l with
  | [] => (e, [])
  | x :: l' =>
      let '(m, rest) := pop_min x l' in
      if entry_ltb m e then (m, e :: rest) else (e, l)
  end.

Definition heappop (h : list entry) : option (entry * list entry) :=
  match h with
  | [] => None
  | e :: l => Some (pop_min e l)
  end.

Definition heappush (h : list entry) (e : entry) : list entry := e :: h.

Record search : Type := {
  open_set : list entry;
  came_from : gmap node node;
  g_score : gmap node float;
  visited : gset node
}.

(** [g_score[n]] on the [defaultdict(lambda: float('inf'))]. *)
Definition g_get (s : search) (n : node) : float :=
  default PrimFloat.infinity (g_score s !! n).

Definition elev_cost (self : AStarPlanner) (current neighbor : node) : outcome float :=
  match elevation self with
  | None => Ok PrimFloat.zero
  | Some elev =>
      elev_current ← np_get elev current.1 current.2;
      elev_neighbor ← np_get elev neighbor.1 neighbor.2;
      Ok (PrimFloat.mul (elevation_penalty self)
            (PrimFloat.abs (PrimFloat.sub elev_neighbor elev_current)))
  end.

(** The heuristic term [np.linalg.norm(goal_np - neighbor_np)]. *)
Definition heuristic (goal n : node) : float :=
  F64.norm2 (F64.of_Z (goal.1 - n.1)) (F64.of_Z (goal.2 - n.2)).

(** The body of [for neighbor, base_cost in get_neighbors(current)]. *)
Definition relax (self : AStarPlanner) (goal current : node)
    (s : search) (nb : node * float) : outcome search :=
  let neighbor := nb.1 in
  let base_cost := nb.2 in
  if bool_decide (neighbor ∈ visited s) then Ok s
  else
    ec ← elev_cost self current neighbor;
    let cost := PrimFloat.add base_cost ec in
    let tentative_g := PrimFloat.add (g_get s current) cost in
    if PrimFloat.ltb tentative_g (g_get s neighbor) then
      let f_score := PrimFloat.add tentative_g (heuristic goal neighbor) in
      Ok {| open_set := heappush (open_set s) (f_score, neighbor);
            came_from := <[neighbor := current]> (came_from s);
            g_score := <[neighbor := tentative_g]> (g_score s);
            visited := visited s |}
    else Ok s.

(** [while open_set: ...]. *)
Fixpoint search_loop (fuel : nat) (self : AStarPlanner) (start goal : node)
    (s : search) : outcome (option (list node)) :=
  match fuel with
  | O => Diverge
  | S fuel' =>
      match heappop (open_set s) with
      | None => Ok None
      | Some (top, rest) =>
          let current := top.2 in
          if bool_decide (current = goal) then
            path ← AStar.reconstruct (came_from s) start current; Ok (Some path)
          else
            let s1 := {| open_set := rest;
                         came_from := came_from s;
                         g_score := g_score s;
                         visited := {[current]} ∪ visited s |} in
            s2 ← for_each (relax self goal current) s1 (get_neighbors self current);
            search_loop fuel' self start goal s2
      end
  end.

(** The bound of [AStar.search_fuel]: on floats too a cell that is taken off
    the heap again pushes nothing, since scores only go down. *)
Definition search_fuel (self : AStarPlanner) : nat :=
  9 * (Z.to_nat (shape0 (grid self) * shape1 (grid self)) + 1) + 2.

Definition initial (start : node) : search :=
  {| open_set := [(PrimFloat.zero, start)];
     came_from := ∅;
     g_score := {[start := PrimFloat.zero]};
     visited := ∅ |}.

(** [AStarPlanner.find_path]: [Ok None] is the return value [None]. *)
Definition find_path (self : AStarPlanner) (start goal : node)
  : outcome (option (list node)) :=
  if bool_decide (start = goal) then Ok (Some [start])
  else search_loop (search_fuel self) self start goal (initial start).

(** The planner with the same grid whose elevations and penalty are the
    real numbers that the floats stand for. *)
Definition exact (self : AStarPlanner) : AStar.AStarPlanner :=
  {| AStar.grid := grid self;
     AStar.elevation :=
       match elevation self with
       | Some elev => Some (map (map F64.to_R) elev)
       | None => None
       end;
     AStar.elevation_penalty := F64.to_R (elevation_penalty self);
     AStar.debug := debug self |}.

End AStar64.

(** ** [RRT.steer] of controller/rrt_planner.py, on binary64 *)

Module RRT64.

Record RRT : Type := {
  map : ndarray Z;
  step_size : float;
  max_iter : nat;
  debug : bool
}.

Definition point : Type := (float * float)%type.

(** [RRT.steer]: numpy's [direction / dist] raises nothing on a zero
    [dist], it answers nan (or inf) with a warning. *)
Definition steer (self : RRT) (nearest sampled : point) : point :=
  let direction := (PrimFloat.sub sampled.1 nearest.1, PrimFloat.sub sampled.2 nearest.2) in
  let dist := F64.norm2 direction.1 direction.2 in
  if PrimFloat.leb dist (step_size self) then sampled
  else
    let step := (PrimFloat.mul (PrimFloat.div direction.1 dist) (step_size self),
                 PrimFloat.mul (PrimFloat.div direction.2 dist) (step_size self)) in
    (PrimFloat.add nearest.1 step.1, PrimFloat.add nearest.2 step.2).

End RRT64.

(** ** controller/rrt_planner.py *)

Definition point : Type := (R * R)%type.

Module RRT.

Record RRT : Type := {
  map : ndarray Z;
  step_size : R;
  max_iter : nat;
  debug : bool
}.

(** [RRT.steer]. numpy's [direction / dist] raises nothing: when the guard
    lets a zero [dist] through, both components are 0 / 0 and the answer is
    the point (nan, nan), for which [None] stands. *)
Definition steer (self : RRT) (nearest sampled : point) : option point :=
  let direction := (sampled.1 - nearest.1, sampled.2 - nearest.2)%R in
  let dist := norm2 direction.1 direction.2 in
  if Rleb dist (step_size self) then Some sampled
  else if decide (dist = 0%R) then None
  else
    let step := (direction.1 / dist * step_size self,
                 direction.2 / dist * step_size self)%R in
    Some (nearest.1 + step.1, nearest.2 + step.2)%R.

(** [RRT.is_collision_free]. *)
Definition is_collision_free (self : RRT) (p : point) : bool :=
  let x := p.1 in
  let y := p.2 in
  if Rltb x 0 || Rleb (IZR (shape0 (map self))) x
     || Rltb y 0 || Rleb (IZR (shape1 (map self))) y
  then false
  else bool_decide (np_item (map self) (trunc x) (trunc y) = 0%Z).

End RRT.

(** ** controller/rrt_star_planner.py *)

Module RRTStar.

Record RRTStar : Type := {
  map : ndarray Z;
  start : point;
  goal : point;
  target_radius : R;
  exploration_bias : R;
  delta : R;
  max_nodes : nat;
  nodes : list point;
  edges : list (point * point)
}.

Definition world_x_min : R := (- (216 / 100))%R.
Definition world_x_max : R := (242 / 100)%R.
Definition world_y_min : R := (- (407 / 100))%R.
Definition world_y_max : R := (178 / 100)%R.

(** [RRTStar.world2map]. *)
Definition world2map (self : RRTStar) (xw yw : R) : Z * Z :=
  let px := trunc ((xw - world_x_min) / (world_x_max - world_x_min)
                   * IZR (shape1 (map self) - 1))%R in
  let py := trunc ((world_y_max - yw) / (world_y_max - world_y_min)
                   * IZR (shape0 (map self) - 1))%R in
  let px := Z.min (Z.max px 0) (shape1 (map self) - 1) in
  let py := Z.min (Z.max py 0) (shape0 (map self) - 1) in
  (px, py).

(** [RRTStar.is_valid_point]: the function returns before it looks at
    [parent]. *)
Definition is_valid_point (self : RRTStar) (pt : point) (parent : option point)
  : bool :=
  let '(px, py) := world2map self pt.1 pt.2 in
  if negb (bool_decide (0 <= px < shape1 (map self))%Z
           && bool_decide (0 <= py < shape0 (map self))%Z)
  then false
  else if bool_decide (np_item (map self) py px = 0%Z) then false
  else true.

(** [RRTStar.generate_new_point]. *)
Definition generate_new_point (self : RRTStar) (nearest random_point : point)
  : outcome point :=
  let direction := (random_point.1 - nearest.1, random_point.2 - nearest.2)%R in
  let length := norm2 direction.1 direction.2 in
  if bool_decide (length = 0%R) then Ok nearest
  else
    let step_size := Rmin (delta self) (length * (7 / 10)) in
    let new_point_world := (nearest.1 + direction.1 / length * step_size,
                            nearest.2 + direction.2 / length * step_size)%R in
    let new_point_map := world2map self new_point_world.1 new_point_world.2 in
    if is_valid_point self (IZR new_point_map.1, IZR new_point_map.2) (Some nearest)
    then Ok new_point_world
    else Ok nearest.

End RRTStar.

(** ** controller/path_planner_wrapper.py *)

Module Wrapper.

Inductive planner_class : Type :=
| AStarPlanner
| RRT
| RRTStar
| GeoAwareRRT
| GeoAwareRRTStar.

Definition PLANNER_MAP : gmap string planner_class :=
  list_to_map
    [ ("astar", AStarPlanner);
      ("rrt", RRT);
      ("rrt*", RRTStar);
      ("geo_rrt", GeoAwareRRT);
      ("geo_rrt*", GeoAwareRRTStar) ].

(** The parameters of a [def __init__(self, ...)]: those without and those
    with a default. None of the constructors takes [**kwargs]. *)
Record signature : Type := {
  required : list string;
  defaulted : list string
}.

Definition init_signature (c : planner_class) : signature :=
  match c with
  | AStarPlanner =>
      {| required := ["grid"];
         defaulted := ["elevation"; "elevation_penalty"; "debug"] |}
  | RRT =>
      {| required := ["occupancy_grid"];
         defaulted := ["step_size"; "max_iter"; "debug"] |}
  | RRTStar =>
      {| required := ["start"; "goal"];
         defaulted := ["map_path"; "occupancy_grid"; "target_radius"; "delta";
                       "exploration_bias"; "max_nodes"] |}
  | GeoAwareRRT =>
      {| required := ["grid"; "transform"];
         defaulted := ["elevation"; "elevation_penalty"; "step_size";
                       "max_iter"; "debug"] |}
  | GeoAwareRRTStar =>
      {| required := ["occupancy_grid"; "transform_func"];
         defaulted := ["dem_func"] |}
  end.

(** The methods each class defines. *)
Definition methods (c : planner_class) : list string :=
  match c with
  | AStarPlanner => ["find_path"]
  | RRT => ["find_path"; "sample_point"; "nearest_neighbor"; "steer";
            "is_collision_free"; "plan"; "_reconstruct_path"]
  | RRTStar => ["load_map"; "world2map"; "map2world"; "distance";
                "is_valid_point"; "sample_point"; "find_nearest";
                "generate_new_point"; "step"; "get_final_path"; "save_path";
                "is_valid_path"]
  | GeoAwareRRT => ["latlon_to_grid"; "grid_to_latlon"; "elevation_cost";
                    "find_path"; "_is_valid_and_free"]
  | GeoAwareRRTStar => ["find_path"]
  end.

(** Python's binding of a call that passes keyword arguments only: a keyword
    the function does not declare, or a parameter without default that the
    call leaves out, is a [TypeError]. *)
Definition bind_keywords (sig : signature) (keywords : list string) : outcome unit :=
  if forallb (fun k => bool_decide (k ∈ required sig ++ defaulted sig)) keywords
  then if forallb (fun r => bool_decide (r ∈ keywords)) (required sig)
       then Ok ()
       else Raise TypeError
  else Raise TypeError.

(** [str.lower] on ASCII. *)
Definition ascii_lower (c : Ascii.ascii) : Ascii.ascii :=
  let n := Ascii.nat_of_ascii c in
  if Nat.leb 65 n && Nat.leb n 90 then Ascii.ascii_of_nat (n + 32) else c.

Fixpoint lower (s : string) : string :=
  match s with
  | EmptyString => EmptyString
  | String c r => String (ascii_lower c) (lower r)
  end.

(** [self.planner_core]: an [AStarPlanner] instance, or a class to be
    instantiated at each query. *)
Inductive core : Type :=
| Instance (p : AStar64.AStarPlanner)
| ClassOnly (c : planner_class).

Record PathPlannerWrapper : Type := {
  planner_type : string;
  grid : ndarray Z;
  elevation : option (ndarray float);
  elevation_penalty : float;
  step_size : float;
  max_iter : nat;
  debug : bool;
  planner_core : core
}.

(** [PathPlannerWrapper.__init__]. *)
Definition init (planner_type : string) (grid : ndarray Z)
    (elevation : option (ndarray float)) (elevation_penalty step_size : float)
    (max_iter : nat) (debug : bool) : outcome PathPlannerWrapper :=
  let pt := lower planner_type in
  let make c :=
    {| planner_type := pt; grid := grid; elevation := elevation;
       elevation_penalty := elevation_penalty; step_size := step_size;
       max_iter := max_iter; debug := debug; planner_core := c |} in
  if bool_decide (pt = "astar") then
    Ok (make (Instance {| AStar64.grid := grid; AStar64.elevation := elevation;
                          AStar64.elevation_penalty := elevation_penalty;
                          AStar64.debug := debug |}))
  else
    match PLANNER_MAP !! pt with
    | Some c => Ok (make (ClassOnly c))
    | None => Raise ValueError
    end.

(** What [planner.plan()] computes on an instance of class [c] once the
    constructor call has been bound; the variants other than [RRT] define no
    [plan]. *)
Definition call_plan (run : planner_class -> node -> node -> outcome (option (list node)))
    (c : planner_class) (start goal : node) : outcome (option (list node)) :=
  if bool_decide ("plan" ∈ methods c) then run c start goal
  else Raise AttributeError.

(** [PathPlannerWrapper.find_segment_path]. [run] stands for the body of a
    variant's [plan] method. *)
Definition find_segment_path
    (run : planner_class -> node -> node -> outcome (option (list node)))
    (self : PathPlannerWrapper) (start goal : node)
  : outcome (option (list node)) :=
  if bool_decide (planner_type self = "astar") then
    match planner_core self with
    | Instance p => AStar64.find_path p start goal
    | ClassOnly _ => Raise AttributeError
    end
  else if bool_decide (planner_type self ∈ ["rrt"; "rrt*"; "geo_rrt"; "geo_rrt*"]) then
    match planner_core self with
    | ClassOnly c =>
        _ ← bind_keywords (init_signature c)
              ["start"; "goal"; "occupancy_grid"; "step_size"; "max_iter"];
        call_plan run c start goal
    | Instance _ => Raise TypeError
    end
  else Raise ValueError.

End Wrapper.

(** ** data_processing/tsp_utils.py *)

Module Tsp.

(** [scipy.spatial.distance.euclidean] on two-component points. *)
Definition euclidean (u v : point) : R := norm2 (u.1 - v.1) (u.2 - v.2).

(** [matrix[i][j] = v]. *)
Definition set_item (matrix : list (list R)) (i j : nat) (v : R) : list (list R) :=
  alter (fun row => <[j := v]> row) i matrix.

(** The body of the two nested loops of [compute_cost_matrix]; [geodesic]
    stands for [geopy.distance.geodesic(u, v).meters], which raises
    [ValueError] on a latitude outside [[-90, 90]]. *)
Definition cost_entry (geodesic : point -> point -> outcome R) (waypoints : list point)
    (metric : string) (i : nat) (matrix : list (list R)) (j : nat)
  : outcome (list (list R)) :=
  wi ← or_raise IndexError (waypoints !! i);
  wj ← or_raise IndexError (waypoints !! j);
  dist ← (if bool_decide (metric = "euclidean") then Ok (euclidean wi wj)
          else if bool_decide (metric = "geodesic") then geodesic wi wj
          else Raise ValueError);
  Ok (set_item (set_item matrix i j dist) j i dist).

(** [compute_cost_matrix]. *)
Definition compute_cost_matrix (geodesic : point -> point -> outcome R)
    (waypoints : list point) (metric : string) : outcome (list (list R)) :=
  let n := length waypoints in
  let matrix := replicate n (replicate n 0%R) in
  for_each (fun m i => for_each (cost_entry geodesic waypoints metric i) m (seq 0 i))
           matrix (seq 0 n).

(** [matrix[i][j]] read back; [None] is [IndexError]. *)
Definition cell (matrix : list (list R)) (i j : nat) : option R :=
  row ← matrix !! i; row !! j.

(** The distance that [cost_entry] computes under a supported metric. *)
Definition distance (geodesic : point -> point -> outcome R) (metric : string)
    (u v : point) : outcome R :=
  if bool_decide (metric = "euclidean") then Ok (euclidean u v) else geodesic u v.

(** A [networkx.Graph] as [add_edge] builds it: the weighted edges, in the
    order they were added; its nodes are the endpoints of its edges. *)
Definition graph : Type := list (nat * nat * R).

Definition graph_nodes (G : graph) : list nat :=
  remove_dups (mbind (M := list) (fun e => [e.1.1; e.1.2]) G).

(** [build_graph_from_matrix]. *)
Definition build_graph_from_matrix (cost_matrix : list (list R)) : outcome graph :=
  for_each (fun G i =>
              for_each (fun G j =>
                          weight ← or_raise IndexError (cell cost_matrix i j);
                          Ok (G ++ [(i, j, weight)]))
                       G (seq 0 i))
           [] (seq 0 (length cost_matrix)).

(** [sum(cost_matrix[tsp_tour[i]][tsp_tour[i+1]] for i in range(len(tsp_tour) - 1))]. *)
Fixpoint legs_cost (cost_matrix : list (list R)) (tour : list nat) : outcome R :=
  match tour with
  | u :: tour' =>
      match tour' with
      | v :: _ =>
          c ← or_raise IndexError (cell cost_matrix u v);
          r ← legs_cost cost_matrix tour';
          Ok (c + r)%R
      | [] => Ok 0%R
      end
  | [] => Ok 0%R
  end.

(** [solve_tsp_christofides]; [christofides] stands for
    [networkx.algorithms.approximation.christofides], which the repository
    does not contain. *)
Definition solve_tsp_christofides (christofides : graph -> outcome (list nat))
    (cost_matrix : list (list R)) : outcome (list nat * R) :=
  G ← build_graph_from_matrix cost_matrix;
  tsp_tour ← christofides G;
  tour_cost ← legs_cost cost_matrix tsp_tour;
  final ← or_raise IndexError (last tsp_tour);
  first ← or_raise IndexError (head tsp_tour);
  closing ← or_raise IndexError (cell cost_matrix final first);
  Ok (tsp_tour, (tour_cost + closing)%R).

End Tsp.

(** ** controller/simulation_controller.py *)

Module Sim.

(** [pyproj.Geod]: [inv lon1 lat1 lon2 lat2] is (forward azimuth, back
    azimuth, distance) and [fwd lon lat az dist] is (longitude, latitude,
    back azimuth). *)
Record Geod : Type := {
  inv : R -> R -> R -> R -> R * R * R;
  fwd : R -> R -> R -> R -> R * R * R
}.

(** The affine grid transform: [apply x y] is [transform * (x, y)] and
    [apply_inverse x y] is [~transform * (x, y)], which raises on a transform
    that has no inverse. *)
Record Transform : Type := {
  apply : R -> R -> R * R;
  apply_inverse : R -> R -> outcome (R * R)
}.

Record Waypoint : Type := {
  wp_lat : R;
  wp_lon : R
}.

(** The dict [state]. *)
Record State : Type := {
  lat : R;
  lon : R;
  alt : R;
  heading : R
}.

(** models.GPSPoint; [ts] is a clock reading. *)
Record GPSPoint : Type := {
  ts : Z;
  gps_lat : R;
  gps_lon : R;
  gps_alt : R;
  agl : option R;
  gps_heading : option R
}.

(** The dict [generated_trace]. *)
Record Trace : Type := {
  trace_drone_id : string;
  data : list GPSPoint
}.

(** A dict of [segment_data]. *)
Record Sample : Type := {
  timestamp_ms : R;
  sample_lat : R;
  sample_lon : R;
  sample_alt : R;
  sample_heading : R
}.

Record SimulationController : Type := {
  waypoints : list Waypoint;
  speed_mps : R;
  interval_ms : R;
  gps_noise_std : R;
  geod : Geod;
  elevation : ndarray float;
  transform : Transform;
  start_lat : R;
  start_lon : R;
  drone_id : string;
  dem_func : R -> R -> R;
  planner : Wrapper.PathPlannerWrapper
}.

(** What the synthesizer reads from outside its arguments:
    [geopy.distance.geodesic(a, b).meters], the successive readings of
    [datetime.utcnow()], and the [plan] bodies of the sampling planners. *)
Record World : Type := {
  geodesic_m : point -> point -> R;
  utcnow : nat -> Z;
  run_plan : Wrapper.planner_class -> node -> node -> outcome (option (list node))
}.

(** [SimulationController.compute_heading]. *)
Definition compute_heading (self : SimulationController) (lat1 lon1 lat2 lon2 : R) : R :=
  let azimuth := (inv (geod self) lon1 lat1 lon2 lat2).1.1 in
  pymod (azimuth + 360) 360.

(** [SimulationController.sigmoid]. *)
Definition sigmoid (x : R) : R := (1 / (1 + exp (- x)))%R.

(** [np.linspace(a, b, n)]: [n] evenly spaced values from [a] to [b], the
    single value [a] when [n] is 1. *)
Definition linspace (a b : R) (n : nat) : list R :=
  (fun i : nat =>
     if bool_decide (n = 1%nat) then a
     else (a + INR i * ((b - a) / INR (n - 1)))%R) <$> seq 0 n.

(** [SimulationController.interpolate_segment]. [z] stands for the state of
    numpy's random source: the standard normal variates it hands out, in
    order; [np.random.normal(0, std, size)] scales the next [size] of them
    and refuses a negative [std]. *)
Definition interpolate_segment (w : World) (z : nat -> R)
    (self : SimulationController) (p1 p2 : R * R * R) : outcome (list Sample) :=
  let '(lat1, lon1, alt1) := p1 in
  let '(lat2, lon2, alt2) := p2 in
  let distance := geodesic_m w (lat1, lon1) (lat2, lon2) in
  duration_s ← fdiv distance (speed_mps self);
  quotient ← fdiv (duration_s * 1000) (interval_ms self);
  let steps := floor quotient in
  if bool_decide (steps < 0)%Z then Raise ValueError
  else
    let n := Z.to_nat steps in
    let eased := sigmoid <$> linspace (-6) 6 n in
    if Rltb (gps_noise_std self) 0 then Raise ValueError
    else
      let lats := imap (fun i e => (lat1 + (lat2 - lat1) * e
                                    + gps_noise_std self * z i)%R) eased in
      let lons := imap (fun i e => (lon1 + (lon2 - lon1) * e
                                    + gps_noise_std self * z (n + i)%nat)%R) eased in
      let alts := zip_with (dem_func self) lats lons in
      let heading := compute_heading self lat1 lon1 lat2 lon2 in
      Ok (imap (fun i (s : R * R * R) =>
                  {| timestamp_ms := (INR i * interval_ms self)%R;
                     sample_lat := s.1.1;
                     sample_lon := s.1.2;
                     sample_alt := s.2;
                     sample_heading := heading |})
               (zip (zip lats lons) alts)).

(** [SimulationController.grid_to_latlon]. *)
Definition grid_to_latlon (self : SimulationController) (rc : node) : point :=
  let xy := apply (transform self) (IZR rc.2) (IZR rc.1) in
  (xy.2, xy.1).

Definition clamp (v hi : Z) : Z := Z.min (Z.max v 0) hi.

(** [SimulationController._build_path]. *)
Definition _build_path (self : SimulationController) : outcome (list node) :=
  for_each (fun (waypoints_rc : list node) (wp : Waypoint) =>
              cr ← apply_inverse (transform self) (wp_lon wp) (wp_lat wp);
              let row := floor cr.2 in
              let col := floor cr.1 in
              let row := clamp row (shape0 (elevation self) - 1) in
              let col := clamp col (shape1 (elevation self) - 1) in
              Ok (waypoints_rc ++ [(row, col)]))
           [] (waypoints self).

(** [speed_mps or self.speed_mps]. *)
Definition speed_or (self : SimulationController) (speed : option R) : R :=
  match speed with
  | Some v => if bool_decide (v = 0%R) then speed_mps self else v
  | None => speed_mps self
  end.

(** [SimulationController.step_towards]. *)
Definition step_towards (self : SimulationController) (state : State)
    (target : point) (speed : option R) : State :=
  let lat1 := lat state in
  let lon1 := lon state in
  let lat2 := target.1 in
  let lon2 := target.2 in
  let azimuth := (inv (geod self) lon1 lat1 lon2 lat2).1.1 in
  let distance_to_move := (speed_or self speed * (interval_ms self / 1000))%R in
  let moved := fwd (geod self) lon1 lat1 azimuth distance_to_move in
  let new_lon := moved.1.1 in
  let new_lat := moved.1.2 in
  {| lat := new_lat;
     lon := new_lon;
     alt := dem_func self new_lat new_lon;
     heading := azimuth |}.

(** [SimulationController.has_arrived], with [threshold_m = 2.0]. *)
Definition has_arrived (w : World) (state : State) (target : point) : bool :=
  Rleb (geodesic_m w (lat state, lon state) target) 2.

(** [SimulationController.get_start_location]. *)
Definition get_start_location (self : SimulationController) : State :=
  {| lat := start_lat self;
     lon := start_lon self;
     alt := dem_func self (start_lat self) (start_lon self);
     heading := 0 |}.

(** The point that one turn of the [while] loop appends; the clock is read
    once per point, so the reading is the one numbered by the points emitted
    so far. *)
Definition gps_point (w : World) (emitted : nat) (state : State) : GPSPoint :=
  {| ts := utcnow w emitted;
     gps_lat := lat state;
     gps_lon := lon state;
     gps_alt := alt state;
     agl := None;
     gps_heading := Some (heading state) |}.

(** [while not self.has_arrived(state, target): ...]. *)
Fixpoint walk_to (fuel : nat) (w : World) (self : SimulationController)
    (target : point) (acc : State * list GPSPoint) : outcome (State * list GPSPoint) :=
  match fuel with
  | O => Diverge
  | S fuel' =>
      if has_arrived w acc.1 target then Ok acc
      else
        let state := step_towards self acc.1 target None in
        walk_to fuel' w self target
                (state, acc.2 ++ [gps_point w (length acc.2) state])
  end.

(** [not segment_rc]. *)
Definition absent (segment_rc : option (list node)) : bool :=
  match segment_rc with
  | None => true
  | Some [] => true
  | Some (_ :: _) => false
  end.

(** The body of [for i in range(len(waypoints_rc) - 1)], on the pair
    [(waypoints_rc[i], waypoints_rc[i + 1])]. *)
Definition segment (fuel : nat) (w : World) (self : SimulationController)
    (acc : State * list GPSPoint) (pair : node * node)
  : outcome (State * list GPSPoint) :=
  segment_rc ← Wrapper.find_segment_path (run_plan w) (planner self) pair.1 pair.2;
  if absent segment_rc then Ok acc
  else
    let segment_latlon := grid_to_latlon self <$> default [] segment_rc in
    for_each (fun acc target => walk_to fuel w self target acc) acc segment_latlon.

(** The pairs [(l[i], l[i + 1])] for [i] in [range(len(l) - 1)]. *)
Fixpoint consecutive {A : Type} (l : list A) : list (A * A) :=
  match l with
  | a :: (b :: _) as l' => (a, b) :: consecutive l'
  | _ => []
  end.

Definition segments (fuel : nat) (w : World) (self : SimulationController)
    (acc : State * list GPSPoint) (pairs : list (node * node))
  : outcome (State * list GPSPoint) :=
  for_each (segment fuel w self) acc pairs.

(** [SimulationController.run_simulation]; [fuel] bounds the turns of each
    [while] loop. *)
Definition run_simulation (fuel : nat) (w : World) (self : SimulationController)
  : outcome Trace :=
  waypoints_rc ← _build_path self;
  if bool_decide (length waypoints_rc < 2)%nat then Raise ValueError
  else
    let state := get_start_location self in
    acc ← segments fuel w self (state, []) (consecutive waypoints_rc);
    Ok {| trace_drone_id := drone_id self; data := acc.2 |}.

End Sim.

(** ** controller/rrt_planner.py: the tree search *)

Module RRTPlan.
Import RRT.

(** Python's [random] module as [sample_point] uses it: the results of
    [random.random()] and of [random.uniform(a, b)], numbered by the calls
    made to the module so far. *)
Record Random : Type := {
  random : nat -> R;
  uniform : nat -> R -> R -> R
}.

(** The dict [self.tree], node to parent, in insertion order; the parent of
    the root is [None]. *)
Definition tree : Type := list (point * option point).

(** [end_point in self.tree] and [self.tree[end_point]]. *)
Fixpoint tree_get (t : tree) (k : point) : option (option point) :=
  match t with
  | [] => None
  | e :: t' => if decide (e.1 = k) then Some e.2 else tree_get t' k
  end.

(** [self.tree[k] = v]: a key that is present keeps its place. *)
Fixpoint tree_set (t : tree) (k : point) (v : option point) : tree :=
  match t with
  | [] => [(k, v)]
  | e :: t' => if decide (e.1 = k) then (e.1, v) :: t' else e :: tree_set t' k v
  end.

(** [np.linalg.norm(np.array(a) - np.array(b))]. *)
Definition distance (a b : point) : R := norm2 (a.1 - b.1) (a.2 - b.2).

(** Python's [min(iterable, key=...)] after its first item: a later item
    replaces the best one only when its key is smaller. *)
Fixpoint min_by (key : point -> R) (best : point) (l : list point) : point :=
  match l with
  | [] => best
  | x :: l' => if Rltb (key x) (key best) then min_by key x l' else min_by key best l'
  end.

(** [RRT.sample_point]; [k] counts the calls to [random] made before, the
    result carries the count after. *)
Definition sample_point (rnd : Random) (self : RRT) (goal : point) (k : nat)
  : point * nat :=
  if Rltb (9 / 10) (random rnd k) then (goal, S k)
  else ((uniform rnd (S k) 0 (IZR (shape0 (map self))),
         uniform rnd (S (S k)) 0 (IZR (shape1 (map self)))),
        S (S (S k))).

(** [RRT.nearest_neighbor]: [min] raises [ValueError] on an empty tree. *)
Definition nearest_neighbor (t : tree) (p : point) : outcome point :=
  match fst <$> t with
  | [] => Raise ValueError
  | n :: keys => Ok (min_by (fun n => distance n p) n keys)
  end.

(** [while end_point in self.tree and self.tree[end_point] is not None]. *)
Fixpoint climb (fuel : nat) (t : tree) (end_point : point) (path : list point)
  : outcome (list point) :=
  match fuel with
  | O => Diverge
  | S fuel' =>
      match tree_get t end_point with
      | Some (Some parent) => climb fuel' t parent (path ++ [parent])
      | _ => Ok path
      end
  end.

(** [RRT._reconstruct_path]. *)
Definition _reconstruct_path (fuel : nat) (t : tree) (end_point : point)
  : outcome (list point) :=
  path ← climb fuel t end_point [end_point];
  Ok (reverse path).

(** [RRT.plan]: [n] turns of the [for] loop are left. On the point
    (nan, nan) every comparison of [is_collision_free] is false and
    [int(x)] raises [ValueError]. *)
Fixpoint plan (fuel : nat) (rnd : Random) (self : RRT) (goal : point)
    (n : nat) (t : tree) (k : nat) : outcome (option (list point)) :=
  match n with
  | O => Ok None
  | S n' =>
      let '(sampled, k') := sample_point rnd self goal k in
      nearest ← nearest_neighbor t sampled;
      match steer self nearest sampled with
      | None => Raise ValueError
      | Some new_point =>
          if is_collision_free self new_point then
            let t' := tree_set t new_point (Some nearest) in
            if Rltb (distance new_point goal) (step_size self) then
              path ← _reconstruct_path fuel t' new_point;
              Ok (Some path)
            else plan fuel rnd self goal n' t' k'
          else plan fuel rnd self goal n' t k'
      end
  end.

(** [RRT.find_path]; [fuel] bounds the turns of the [while] loop of
    [_reconstruct_path]. *)
Definition find_path (fuel : nat) (rnd : Random) (self : RRT) (start goal : point)
  : outcome (option (list point)) :=
  plan fuel rnd self goal (max_iter self) [(start, None)] 0.

(** Every step of a path, from a point to the next one, satisfies [ok]. *)
Fixpoint hops (ok : point -> point -> Prop) (p : list point) : Prop :=
  match p with
  | a :: p' =>
      match p' with
      | b :: _ => ok a b ∧ hops ok p'
      | [] => True
      end
  | [] => True
  end.

(** What [plan] keeps true of the tree: a parent is a node of the tree, a
    node with a parent is collision-free and within [step_size] of it, and
    only [start] can be without parent. *)
Definition grown (self : RRT) (start : point) (t : tree) : Prop :=
  (∀ n parent, tree_get t n = Some (Some parent) ->
     is_Some (tree_get t parent)
     ∧ is_collision_free self n = true
     ∧ (distance n parent <= step_size self)%R)
  ∧ (∀ n, tree_get t n = Some None -> n = start).

End RRTPlan.

(** ** Python's binding of a call *)

Module Call.
Import Wrapper.

(** A call that passes [positional] arguments by position and [keywords] by
    name, to a function without [*args] or [**kwargs]: too many positional
    arguments, a keyword that is no parameter or names a parameter already
    filled by position, or a parameter without default left unfilled, is a
    [TypeError]. *)
Definition bind_call (sig : signature) (positional : nat) (keywords : list string)
  : outcome unit :=
  let params := required sig ++ defaulted sig in
  if bool_decide (length params < positional)%nat then Raise TypeError
  else
    let filled := take positional params in
    if forallb (fun k => bool_decide (k ∈ params) && negb (bool_decide (k ∈ filled)))
               keywords
    then if forallb (fun r => bool_decide (r ∈ filled ++ keywords)) (required sig)
         then Ok ()
         else Raise TypeError
    else Raise TypeError.

End Call.

(** ** controller/rrt_planner.py: GeoAwareRRT *)

Module GeoAwareRRT.

(** Python's [round] on a float: to the nearest integer, a tie to the even
    one. *)
Definition py_round (x : R) : Z :=
  let f := floor x in
  let d := (x - IZR f)%R in
  if Rltb d (1 / 2) then f
  else if Rltb (1 / 2) d then (f + 1)%Z
  else if Z.even f then f else (f + 1)%Z.

(** [transform * (x, y)] and [~transform * (x, y)] are the fields
    [transform] and [inv_transform]; the inverse is taken once, in
    [__init__]. *)
Record GeoAwareRRT : Type := {
  grid : ndarray Z;
  transform : R -> R -> R * R;
  inv_transform : R -> R -> R * R;
  elevation : option (ndarray R);
  elevation_penalty : R;
  step_size : R;
  max_iter : nat;
  debug : bool
}.

(** [GeoAwareRRT.latlon_to_grid]. *)
Definition latlon_to_grid (self : GeoAwareRRT) (lat lon : R) : node :=
  let xy := inv_transform self lon lat in
  (py_round xy.2, py_round xy.1).

(** [GeoAwareRRT.grid_to_latlon]. *)
Definition grid_to_latlon (self : GeoAwareRRT) (row col : R) : point :=
  let lonlat := transform self col row in
  (lonlat.2, lonlat.1).

(** [GeoAwareRRT.elevation_cost]: an [IndexError] of a lookup is caught and
    answered with [float("inf")]. *)
Definition elevation_cost (self : GeoAwareRRT) (pt1 pt2 : point) : ext :=
  match elevation self with
  | None => Fin 0
  | Some elev =>
      let r1 := trunc pt1.1 in
      let c1 := trunc pt1.2 in
      let r2 := trunc pt2.1 in
      let c2 := trunc pt2.2 in
      match np_get elev r1 c1 with
      | Ok elev1 =>
          match np_get elev r2 c2 with
          | Ok elev2 => Fin (elevation_penalty self * Rabs (elev2 - elev1))
          | _ => Inf
          end
      | _ => Inf
      end
  end.

(** [GeoAwareRRT._is_valid_and_free]. *)
Definition _is_valid_and_free (self : GeoAwareRRT) (pt : point) : bool :=
  let row := trunc pt.1 in
  let col := trunc pt.2 in
  if bool_decide (row < 0)%Z || bool_decide (shape0 (grid self) <= row)%Z
     || bool_decide (col < 0)%Z || bool_decide (shape1 (grid self) <= col)%Z
  then false
  else if bool_decide (np_item (grid self) row col ≠ 0%Z) then false
  else true.

(** [GeoAwareRRT.find_path]. The constructor call is
    [RRT(start_rc, goal_rc, self.grid, step_size=..., max_iter=...)];
    [run_plan] stands for [base_rrt.plan()] with the collision check
    replaced. *)
Definition find_path (run_plan : outcome (option (list point)))
    (self : GeoAwareRRT) (start_latlon goal_latlon : point)
  : outcome (option (list point)) :=
  let start_rc := latlon_to_grid self start_latlon.1 start_latlon.2 in
  let goal_rc := latlon_to_grid self goal_latlon.1 goal_latlon.2 in
  _ ← Call.bind_call (Wrapper.init_signature Wrapper.RRT) 3 ["step_size"; "max_iter"];
  path_rc ← run_plan;
  match path_rc with
  | None => Ok None
  | Some [] => Ok None
  | Some path => Ok (Some ((fun pt : point => grid_to_latlon self pt.1 pt.2) <$> path))
  end.

End GeoAwareRRT.

(** ** controller/rrt_star_planner.py: construction and the final path *)

Module RRTStarTree.
Import RRTStar.

(** [RRTStar.__init__]; [load_map] stands for the method of that name, which
    reads a file. *)
Definition init (load_map : string -> outcome (ndarray Z)) (start goal : point)
    (map_path : option string) (occupancy_grid : option (ndarray Z))
    (target_radius delta exploration_bias : R) (max_nodes : nat)
  : outcome RRTStar :=
  map ← match occupancy_grid with
        | Some g => Ok g
        | None =>
            match map_path with
            | Some path =>
                if bool_decide (path = EmptyString) then Raise ValueError
                else load_map path
            | None => Raise ValueError
            end
        end;
  Ok {| map := map; start := start; goal := goal;
        target_radius := target_radius; exploration_bias := exploration_bias;
        delta := delta; max_nodes := max_nodes;
        nodes := [start]; edges := [] |}.

(** [next((p[0] for p in self.edges if p[1] == node), None)]. *)
Definition parent_of (edges : list (point * point)) (node : point) : option point :=
  fst <$> find (fun p => bool_decide (p.2 = node)) edges.

(** [while node != self.start: ...] of [get_final_path]: [Ok None] is the
    [return None] inside the loop. *)
Fixpoint trace_back (fuel : nat) (self : RRTStar) (node : point) (path : list point)
  : outcome (option (list point)) :=
  match fuel with
  | O => Diverge
  | S fuel' =>
      if decide (node = start self) then Ok (Some path)
      else
        match parent_of (edges self) node with
        | None => Ok None
        | Some parent => trace_back fuel' self parent (path ++ [node])
        end
  end.

(** [RRTStar.get_final_path]. *)
Definition get_final_path (fuel : nat) (self : RRTStar) : outcome (option (list point)) :=
  node ← or_raise IndexError (last (nodes self));
  traced ← trace_back fuel self node [];
  match traced with
  | None => Ok None
  | Some path =>
      let path := reverse (path ++ [start self]) in
      let path := if decide (head path = Some (goal self))
                  then tail path ++ [goal self] else path in
      let path := if decide (last path = Some (goal self))
                  then path else path ++ [goal self] in
      Ok (Some path)
  end.

End RRTStarTree.

(** ** controller/rrt_star_planner.py: GeoAwareRRTStar *)

Module GeoAwareRRTStar.

(** The object [transform_func], by the methods [find_path] calls on it. *)
Record TransformFunc : Type := {
  latlon_to_rc : R -> R -> outcome node;
  rc_to_world : Z -> Z -> outcome point;
  rc_to_latlon : Z -> Z -> outcome point
}.

Record GeoAwareRRTStar : Type := {
  grid : ndarray Z;
  transform_func : TransformFunc;
  dem_func : R -> R -> R
}.

(** [GeoAwareRRTStar.find_path]. [run] stands for what [planner.run()]
    leaves in [planner.path]; [RRTStar] defines no method of that name. *)
Definition find_path (load_map : string -> outcome (ndarray Z))
    (run : RRTStar.RRTStar -> outcome (option (list point)))
    (self : GeoAwareRRTStar) (start_latlon goal_latlon : point)
  : outcome (list (R * R * R)) :=
  start_rc ← latlon_to_rc (transform_func self) start_latlon.1 start_latlon.2;
  goal_rc ← latlon_to_rc (transform_func self) goal_latlon.1 goal_latlon.2;
  start_xy ← rc_to_world (transform_func self) start_rc.1 start_rc.2;
  goal_xy ← rc_to_world (transform_func self) goal_rc.1 goal_rc.2;
  _ ← Call.bind_call (Wrapper.init_signature Wrapper.RRTStar) 0
        ["map_path"; "start"; "goal"; "max_nodes"; "delta"];
  planner ← RRTStarTree.init load_map start_xy goal_xy None None 1 2 (8 / 10) 300;
  let planner :=
    {| RRTStar.map := grid self;
       RRTStar.start := RRTStar.start planner;
       RRTStar.goal := RRTStar.goal planner;
       RRTStar.target_radius := RRTStar.target_radius planner;
       RRTStar.exploration_bias := RRTStar.exploration_bias planner;
       RRTStar.delta := RRTStar.delta planner;
       RRTStar.max_nodes := RRTStar.max_nodes planner;
       RRTStar.nodes := RRTStar.nodes planner;
       RRTStar.edges := RRTStar.edges planner |} in
  path ← (if bool_decide ("run" ∈ Wrapper.methods Wrapper.RRTStar) then run planner
          else Raise AttributeError);
  match path with
  | None => Ok []
  | Some path =>
      for_each (fun latlon_path (xy : point) =>
                  let '(px, py) := RRTStar.world2map planner xy.1 xy.2 in
                  latlon ← rc_to_latlon (transform_func self) py px;
                  let alt := dem_func self latlon.1 latlon.2 in
                  Ok (latlon_path ++ [(latlon.1, latlon.2, alt)]))
               [] path
  end.

End GeoAwareRRTStar.

(** ** controller/simulation_controller.py: the planner of the constructor *)

Module SimInit.

(** [self.grid = np.zeros(self.elevation.shape)] and the
    [PathPlannerWrapper(...)] call of [SimulationController.__init__], with
    the penalty 0.001 and the step size 1.5. *)
Definition build_planner (elevation : ndarray float) : outcome Wrapper.PathPlannerWrapper :=
  let grid := replicate (Z.to_nat (shape0 elevation))
                        (replicate (Z.to_nat (shape1 elevation)) 0%Z) in
  Wrapper.init "astar" grid (Some elevation)
               0x1.0624dd2f1a9fcp-10%float 1.5%float 1500 true.

End SimInit.

(** ** data_processing/utils.py *)

Module Utils.

(** The dict that [get_bbox_from_center] returns. *)
Record BBox : Type := {
  min_lat : R;
  max_lat : R;
  min_lon : R;
  max_lon : R
}.

(** [get_bbox_from_center]; of [config] the function reads
    [config["simulation"]], a dict of numbers here. *)
Definition get_bbox_from_center (lat lon buffer_km : R)
    (config : option (gmap string (gmap string R))) : BBox :=
  let km :=
    match config with
    | Some cfg =>
        match cfg !! "simulation" with
        | Some sim => default buffer_km (sim !! "dem_km")
        | None => buffer_km
        end
    | None => buffer_km
    end in
  let delta_deg := (km / 111)%R in
  {| min_lat := lat - delta_deg / 2;
     max_lat := lat + delta_deg / 2;
     min_lon := lon - delta_deg / 2;
     max_lon := lon + delta_deg / 2 |}.

(** The place of a tuple [(complexity, poly)] in a list that is sorted by
    decreasing first component: before the first tuple that is not greater.
    Python's [sort(key=..., reverse=True)] is stable, so among equal keys the
    earlier tuple stays first. *)
Fixpoint insert_desc {P : Type} (x : R * P) (l : list (R * P)) : list (R * P) :=
  match l with
  | [] => [x]
  | y :: l' => if Rltb x.1 y.1 then y :: insert_desc x l' else x :: l
  end.

(** [scores.sort(key=lambda x: x[0], reverse=True)]. *)
Definition sort_desc {P : Type} (scores : list (R * P)) : list (R * P) :=
  foldr insert_desc [] scores.

(** [dem[int(row), int(col)]] at the centroid of a polygon, where
    [row, col = ~transform * (centroid.x, centroid.y)]. *)
Definition complexity_at {P : Type} (centroid : P -> point) (dem : ndarray R)
    (transform : Sim.Transform) (poly : P) : outcome R :=
  rc ← Sim.apply_inverse transform (centroid poly).1 (centroid poly).2;
  np_get dem (trunc rc.1) (trunc rc.2).

(** [rank_buildings_by_complexity]. The polygons are values of a type [P]
    with their [centroid]; the inverse of the transform is taken outside the
    [try], the lookup inside it. *)
Definition rank_buildings_by_complexity {P : Type} (centroid : P -> point)
    (buildings : list P) (dem : ndarray R) (transform : Sim.Transform)
    (top_n : nat) : outcome (list P) :=
  scores ← for_each (fun (scores : list (R * P)) (poly : P) =>
                       rc ← Sim.apply_inverse transform (centroid poly).1 (centroid poly).2;
                       match np_get dem (trunc rc.1) (trunc rc.2) with
                       | Ok complexity => Ok (scores ++ [(complexity, poly)])
                       | Raise _ => Ok scores
                       | Diverge => Diverge
                       end)
                    [] buildings;
  Ok (snd <$> take top_n (sort_desc scores)).

(** A dict of [generate_flight_waypoints_from_polygons]. *)
Record FlightWaypoint : Type := {
  fw_lat : R;
  fw_lon : R;
  fw_alt : R
}.

(** [generate_flight_waypoints_from_polygons]; a [config] without the key
    ["simulation"] is a [KeyError], recorded as [IndexError]. *)
Definition generate_flight_waypoints_from_polygons {P : Type} (centroid : P -> point)
    (polygons : list P) (config : option (gmap string (gmap string R)))
  : outcome (list FlightWaypoint) :=
  clearance ← match config with
              | Some cfg =>
                  if bool_decide (cfg = ∅) then Ok 20%R
                  else sim ← or_raise IndexError (cfg !! "simulation");
                       Ok (default 20%R (sim !! "altitude_clearance"))
              | None => Ok 20%R
              end;
  Ok ((fun poly => {| fw_lat := (centroid poly).2;
                      fw_lon := (centroid poly).1;
                      fw_alt := clearance |}) <$> polygons).

End Utils.

(** ** data_processing/world_data_builder.py *)

Module Builder.
Import Utils.

(** The key [(row, col)] of a polygon in [generate_waypoints]:
    [rowf, colf = ~transform * (centroid.x, centroid.y)], floored and clamped
    to the shape of the DEM. *)
Definition cell_key {P : Type} (centroid : P -> point) (dem : ndarray R)
    (transform : Sim.Transform) (poly : P) : outcome node :=
  rc ← Sim.apply_inverse transform (centroid poly).1 (centroid poly).2;
  let row := floor rc.1 in
  let col := floor rc.2 in
  let row := Z.min (Z.max row 0) (shape0 dem - 1) in
  let col := Z.min (Z.max col 0) (shape1 dem - 1) in
  Ok (row, col).

(** The loop of [generate_waypoints] that drops the polygons whose cell is
    taken already; an exception skips the polygon. The state is
    [(seen_rc, deduped_polygons)]. *)
Definition dedupe {P : Type} (centroid : P -> point) (dem : ndarray R)
    (transform : Sim.Transform) (ranked : list P) : outcome (gset node * list P) :=
  for_each (fun (st : gset node * list P) (poly : P) =>
              match cell_key centroid dem transform poly with
              | Ok key =>
                  if bool_decide (key ∈ st.1) then Ok st
                  else Ok ({[key]} ∪ st.1, st.2 ++ [poly])
              | Raise _ => Ok st
              | Diverge => Diverge
              end)
           (∅, []) ranked.

(** What [generate_waypoints] computes between reading the DEM and writing
    the flight plan: [ranked] stands for the result of
    [rank_buildings_by_complexity], [config] for [self.config]. A missing
    key of [config] is a [KeyError], recorded as [IndexError]. *)
Definition generate_waypoints {P : Type} (centroid : P -> point) (dem : ndarray R)
    (transform : Sim.Transform) (ranked : list P)
    (config : gmap string (gmap string R))
  : outcome (list FlightWaypoint) :=
  st ← dedupe centroid dem transform ranked;
  _ ← or_raise IndexError (config !! "waypoints");
  generate_flight_waypoints_from_polygons centroid (take 80 st.2) (Some config).

(** [generate_ordered_waypoints], from the waypoints on: the cost matrix of
    their [(lat, lon)] pairs, the tour, and the waypoints in the order of the
    tour. *)
Definition generate_ordered_waypoints (geodesic : point -> point -> outcome R)
    (christofides : Tsp.graph -> outcome (list nat))
    (waypoints : list FlightWaypoint) (metric : string)
  : outcome (list FlightWaypoint) :=
  let coords_for_tsp := (fun wp => (fw_lat wp, fw_lon wp)) <$> waypoints in
  cost_matrix ← Tsp.compute_cost_matrix geodesic coords_for_tsp metric;
  solved ← Tsp.solve_tsp_christofides christofides cost_matrix;
  for_each (fun ordered i => wp ← or_raise IndexError (waypoints !! i);
                             Ok (ordered ++ [wp]))
           [] solved.1.

End Builder.

(** ** config/load_config.py *)

Module Config.

(** What [yaml.safe_load] hands to [_expand_env_vars]: dicts (in the order
    of their items), lists, strings, and the values the function leaves
    alone. *)
#[local] Unset Elimination Schemes.

Inductive yaml : Type :=
| YDict (items : list (string * yaml))
| YList (items : list yaml)
| YStr (s : string)
| YNone
| YInt (z : Z)
| YFloat (r : R)
| YBool (b : bool).

#[local] Set Elimination Schemes.

(** The longest prefix of a string whose characters satisfy [p], and the
    rest. *)
Fixpoint span (p : Ascii.ascii -> bool) (s : string) : string * string :=
  match s with
  | EmptyString => (EmptyString, EmptyString)
  | String c r =>
      if p c then let '(a, b) := span p r in (String c a, b)
      else (EmptyString, s)
  end.

(** Every character of a string satisfies [p]. *)
Fixpoint all_chars (p : Ascii.ascii -> bool) (s : string) : bool :=
  match s with
  | EmptyString => true
  | String c r => p c && all_chars p r
  end.

Definition colon : Ascii.ascii := Ascii.ascii_of_nat 58.
Definition closing : Ascii.ascii := Ascii.ascii_of_nat 125.

(** [re.match(r"\$\{([^:}]+)(?::([^}]+))?\}", config)]: the two groups of
    the match at the start of the string. *)
Definition env_match (s : string) : option (string * option string) :=
  match s with
  | String c1 (String c2 r) =>
      if bool_decide (c1 = Ascii.ascii_of_nat 36) && bool_decide (c2 = Ascii.ascii_of_nat 123)
      then
        let '(key, r1) := span (fun c => negb (bool_decide (c = colon))
                                         && negb (bool_decide (c = closing))) r in
        if bool_decide (key = EmptyString) then None
        else
          match r1 with
          | String c3 r2 =>
              if bool_decide (c3 = closing) then Some (key, None)
              else if bool_decide (c3 = colon) then
                let '(dflt, r3) := span (fun c => negb (bool_decide (c = closing))) r2 in
                if bool_decide (dflt = EmptyString) then None
                else
                  match r3 with
                  | String c4 _ =>
                      if bool_decide (c4 = closing) then Some (key, Some dflt) else None
                  | EmptyString => None
                  end
              else None
          | EmptyString => None
          end
      else None
  | _ => None
  end.

(** [_expand_env_vars]; [env] is the process environment that [os.getenv]
    reads. *)
Fixpoint _expand_env_vars (env : gmap string string) (config : yaml) : yaml :=
  match config with
  | YDict items =>
      YDict (map (fun kv : string * yaml =>
                    let '(k, v) := kv in (k, _expand_env_vars env v)) items)
  | YList items => YList (map (_expand_env_vars env) items)
  | YStr s =>
      match env_match s with
      | Some (env_key, dflt) =>
          match env !! env_key with
          | Some value => YStr value
          | None =>
              match dflt with
              | Some d => YStr d
              | None => YNone
              end
          end
      | None => YStr s
      end
  | other => other
  end.

End Config.

(** ** controller/query.py and the endpoints of main.py that use it *)

Module Api.

(** What a handler can raise: FastAPI's [HTTPException] with its status
    code, which is an [Exception], or any other [Exception]. *)
Inductive error : Type :=
| HTTPException (status_code : nat)
| OtherException.

Inductive result (A : Type) : Type :=
| Returned (a : A)
| Raised (e : error).

Arguments Returned {A} a.
Arguments Raised {A} e.

Definition bind {A B : Type} (m : result A) (f : A -> result B) : result B :=
  match m with
  | Returned a => f a
  | Raised e => Raised e
  end.

(** [try: ... except Exception as e: raise HTTPException(status_code=500, ...)]. *)
Definition except_500 {A : Type} (body : result A) : result A :=
  match body with
  | Returned a => Returned a
  | Raised _ => Raised (HTTPException 500)
  end.

Definition unit_multipliers : gmap string Z :=
  list_to_map [ ("second", 1%Z); ("seconds", 1%Z); ("minute", 60%Z); ("minutes", 60%Z) ].

(** [timedelta(seconds=n)] raises [OverflowError] when the number of days
    leaves the range of [timedelta]. *)
Definition timedelta_fits (seconds : Z) : bool :=
  bool_decide (-999999999 <= seconds / 86400 <= 999999999)%Z.

(** [query.parse_interval], returning the seconds of the [timedelta].
    [split] stands for [str.strip().split()] and [to_int] for [int]. *)
Definition parse_interval (split : string -> list string) (to_int : string -> option Z)
    (interval_str : string) : result Z :=
  match split interval_str with
  | [num; unit] =>
      match to_int num with
      | Some n =>
          match unit_multipliers !! Wrapper.lower unit with
          | Some m =>
              if timedelta_fits (n * m) then Returned (n * m)%Z
              else Raised (HTTPException 400)
          | None => Raised (HTTPException 400)
          end
      | None => Raised (HTTPException 400)
      end
  | _ => Raised (HTTPException 400)
  end.

(** The database as the two endpoints use it: [db.get_asyncpg_conn],
    [query.get_resampled_trace], [query.get_first_point] (whose [None] is
    the missing row) and [conn.close]. *)
Record Database (Conn Row : Type) : Type := {
  get_asyncpg_conn : result Conn;
  get_resampled_trace : Conn -> string -> Z -> result (list Row);
  get_first_point : Conn -> string -> result (option Row);
  close : Conn -> result unit
}.

Arguments get_asyncpg_conn {Conn Row} _.
Arguments get_resampled_trace {Conn Row} _ _ _ _.
Arguments get_first_point {Conn Row} _ _ _.
Arguments close {Conn Row} _ _.

(** [main.resample_api]. *)
Definition resample_api {Conn Row : Type} (split : string -> list string)
    (to_int : string -> option Z) (db : Database Conn Row)
    (drone_id interval : string) : result (list Row) :=
  except_500
    (bind (parse_interval split to_int interval) (fun interval_td =>
     bind (get_asyncpg_conn db) (fun conn =>
     bind (get_resampled_trace db conn drone_id interval_td) (fun rows =>
     bind (close db conn) (fun _ =>
     Returned rows))))).

(** [main.get_start_location]. *)
Definition get_start_location {Conn Row : Type} (db : Database Conn Row)
    (drone_id : string) : result Row :=
  except_500
    (bind (get_asyncpg_conn db) (fun conn =>
     bind (get_first_point db conn drone_id) (fun found =>
     bind (close db conn) (fun _ =>
     match found with
     | None => Raised (HTTPException 404)
     | Some row => Returned row
     end)))).

End Api.

(** ** controller/db.py *)

Module Db.

(** What [get_psycopg_conn] can raise: [psycopg2.OperationalError], any
    other exception of the [connect] call, the [NameError] of a name the
    module does not define, and its own [Exception]. *)
Inductive error : Type :=
| OperationalError
| ConnectError
| NameError
| CouldNotConnect.

Inductive result (A : Type) : Type :=
| Returned (a : A)
| Raised (e : error).

Arguments Returned {A} a.
Arguments Raised {A} e.

(** [time.sleep(delay)]: db.py imports [asyncpg], [psycopg2], [os] and
    [load_simulation_config], and no [time]. *)
Definition time_sleep : result unit := Raised NameError.

(** [for attempt in range(retries)] of [get_psycopg_conn], with [n] turns
    left; [connect k] is the outcome of the call to [psycopg2.connect]
    numbered [k]. *)
Fixpoint attempts {Conn : Type} (connect : nat -> result Conn) (n attempt : nat)
  : result Conn :=
  match n with
  | O => Raised CouldNotConnect
  | S n' =>
      match connect attempt with
      | Returned conn => Returned conn
      | Raised OperationalError =>
          match time_sleep with
          | Returned _ => attempts connect n' (S attempt)
          | Raised e => Raised e
          end
      | Raised e => Raised e
      end
  end.

(** [db.get_psycopg_conn]. *)
Definition get_psycopg_conn {Conn : Type} (connect : nat -> result Conn)
    (retries : nat) : result Conn :=
  attempts connect retries 0.

End Db.

(** ** controller/sim_controller.py and the playback endpoints of main.py *)

Module Playback.

Record PlaybackController : Type := {
  paused : bool
}.

(** [PlaybackController.__init__], [play], [pause], [reset], [get_status]. *)
Definition new : PlaybackController := {| paused := true |}.
Definition play (self : PlaybackController) : PlaybackController := {| paused := false |}.
Definition pause (self : PlaybackController) : PlaybackController := {| paused := true |}.
Definition reset (self : PlaybackController) : PlaybackController := {| paused := true |}.
Definition get_status (self : PlaybackController) : bool := paused self.

(** The module-level [controller] and the dict [playback_state] of main.py. *)
Record State (Row : Type) : Type := {
  controller : PlaybackController;
  trace : list Row;
  index : nat
}.

Arguments controller {Row} _.
Arguments trace {Row} _.
Arguments index {Row} _.

Definition initial {Row : Type} : State Row :=
  {| controller := new; trace := []; index := 0 |}.

(** The answers of [/api/gps/next]. *)
Inductive answer (Row : Type) : Type :=
| Paused
| Done
| Point (point : Row).

Arguments Paused {Row}.
Arguments Done {Row}.
Arguments Point {Row} point.

(** [async def get_all_trace(conn, drone_id: str)] of query.py. *)
Definition get_all_trace_signature : Wrapper.signature :=
  {| Wrapper.required := ["conn"; "drone_id"]; Wrapper.defaulted := [] |}.

(** [main.get_next_point]. The trace is loaded by the call
    [query.get_all_trace(_psycopg_cur)]; [rows] stands for what that call
    would hand back. *)
Definition get_next_point {Row : Type} (rows : list Row) (st : State Row)
  : State Row * outcome (answer Row) :=
  if paused (controller st) then (st, Ok Paused)
  else
    let loaded :=
      match trace st with
      | [] =>
          _ ← Call.bind_call get_all_trace_signature 1 [];
          Ok {| controller := controller st; trace := rows; index := 0 |}
      | _ :: _ => Ok st
      end in
    match loaded with
    | Ok st1 =>
        match trace st1 !! index st1 with
        | None => (st1, Ok Done)
        | Some point =>
            ({| controller := controller st1; trace := trace st1;
                index := S (index st1) |}, Ok (Point point))
        end
    | Raise e => (st, Raise e)
    | Diverge => (st, Diverge)
    end.

(** The requests that touch the playback state, by endpoint. *)
Inductive request : Type :=
| PostPlay
| PostPause
| PostReset
| GetNext.

(** [play_simulation], [pause_simulation], [reset_simulation] and
    [get_next_point]; the first three answer with a constant. *)
Definition handle {Row : Type} (rows : list Row) (st : State Row) (req : request)
  : State Row * option (outcome (answer Row)) :=
  match req with
  | PostPlay =>
      ({| controller := play (controller st); trace := trace st; index := index st |}, None)
  | PostPause =>
      ({| controller := pause (controller st); trace := trace st; index := index st |}, None)
  | PostReset =>
      ({| controller := reset (controller st); trace := []; index := 0 |}, None)
  | GetNext =>
      let '(st', a) := get_next_point rows st in (st', Some a)
  end.

(** The answers to a sequence of requests, served one after the other. *)
Fixpoint serve {Row : Type} (rows : list Row) (st : State Row) (reqs : list request)
  : list (option (outcome (answer Row))) :=
  match reqs with
  | [] => []
  | req :: reqs' =>
      let '(st', a) := handle rows st req in a :: serve rows st' reqs'
  end.

End Playback.

(** ** Paths on the grid, in the words of the specification *)

Module GridPath.
Import AStar.

(** A legal 8-connected move: the offset is one of the eight directions and
    the destination cell is in-bounds and unoccupied. *)
Definition legal (self : AStarPlanner) (u v : node) : Prop :=
  (v.1 - u.1, v.2 - u.2)%Z ∈ directions
  ∧ in_bounds self v = true
  ∧ np_item (grid self) v.1 v.2 = 0%Z.

(** The Euclidean length of the offset of a move. *)
Definition base_cost (u v : node) : R :=
  norm2 (IZR (v.1 - u.1)) (IZR (v.2 - u.2)).

(** The cost of an edge: the Euclidean length of its offset, plus
    [elevation_penalty] times the absolute elevation difference when an
    elevation field is present. *)
Definition edge_cost (self : AStarPlanner) (u v : node) : outcome R :=
  match elevation self with
  | None => Ok (base_cost u v)
  | Some elev =>
      eu ← np_get elev u.1 u.2;
      ev ← np_get elev v.1 v.2;
      Ok (base_cost u v + elevation_penalty self * Rabs (ev - eu))%R
  end.

(** The total cost of a path: the sum of the costs of its edges. *)
Fixpoint path_cost (self : AStarPlanner) (p : list node) : outcome R :=
  match p with
  | u :: p' =>
      match p' with
      | v :: _ => c ← edge_cost self u v; r ← path_cost self p'; Ok (c + r)%R
      | [] => Ok 0%R
      end
  | [] => Ok 0%R
  end.

(** Every consecutive pair of the path is a legal move. *)
Fixpoint legal_moves (self : AStarPlanner) (p : list node) : Prop :=
  match p with
  | u :: p' =>
      match p' with
      | v :: _ => legal self u v ∧ legal_moves self p'
      | [] => True
      end
  | [] => True
  end.

(** An 8-connected obstacle-free path from [start] to [goal]. *)
Definition is_path (self : AStarPlanner) (start goal : node) (p : list node) : Prop :=
  head p = Some start ∧ last p = Some goal ∧ legal_moves self p.

End GridPath.

(** ** Grids without obstacles *)

Module OpenGrid.
Import AStar.

(** No cell of the grid is occupied. *)
Definition obstacle_free (self : AStarPlanner) : Prop :=
  ∀ n, in_bounds self n = true -> np_item (grid self) n.1 n.2 = 0%Z.

(** The elevation field, when there is one, has a value for every cell of
    the grid. *)
Definition covered (self : AStarPlanner) : Prop :=
  match elevation self with
  | None => True
  | Some elev =>
      (shape0 (grid self) <= shape0 elev)%Z ∧ (shape1 (grid self) <= shape1 elev)%Z
  end.

End OpenGrid.

(** ** What the search keeps true from turn to turn *)

Module SearchInv.
Import AStar GridPath.

Section Invariants.
Variable self : AStarPlanner.
Variable start goal : node.

(** Walks from [start]: the node reached, the nodes passed, the cost. *)
Inductive walk : node -> list node -> R -> Prop :=
| walk_start : walk start [start] 0
| walk_step u v p c ce c' :
    walk u p c -> legal self u v -> edge_cost self u v = Ok ce ->
    c' = (c + ce)%R -> walk v (p ++ [v]) c'.

(** The parent links seen from a node: the list from the root of the links
    down to the node. *)
Inductive chain (cf : gmap node node) : node -> list node -> Prop :=
| chain_root n : cf !! n = None -> chain cf n [n]
| chain_step n m p : cf !! n = Some m -> chain cf m p -> chain cf n (p ++ [n]).

(** The parent links and the scores: every scored node has its links back
    to [start], through closed nodes, along a walk of the cost it is scored
    with. *)
Record core (s : search) : Prop := {
  c_start : g_score s !! start = Some 0%R;
  c_tree : ∀ n g, g_score s !! n = Some g ->
      ∃ p, chain (came_from s) n p ∧ NoDup p
           ∧ (∀ x, x ∈ p -> x ≠ n -> x ∈ visited s) ∧ walk n p g;
  c_closed : ∀ u, u ∈ visited s -> is_Some (g_score s !! u);
  c_entries : ∀ e, e ∈ open_set s -> is_Some (g_score s !! e.2)
}.

(** The edge from a closed [u] to an open [v] has been relaxed. *)
Definition relaxed (s : search) (u v : node) : Prop :=
  v ∉ visited s -> legal self u v -> ∀ ce, edge_cost self u v = Ok ce ->
  ∃ gu gv, g_score s !! u = Some gu ∧ g_score s !! v = Some gv ∧ (gv <= gu + ce)%R.

(** Between two turns of the [while] loop. *)
Definition outer (s : search) : Prop :=
  core s
  ∧ (start ∈ visited s ∨ ∀ e, e ∈ open_set s -> e.2 = start)
  ∧ ∀ u v, u ∈ visited s -> relaxed s u v.

(** Inside the [for] loop over the neighbours of [cur], of which [done] have
    been handled. *)
Definition inner (cur : node) (done : list (node * R)) (s : search) : Prop :=
  core s
  ∧ start ∈ visited s
  ∧ cur ∈ visited s
  ∧ (∀ u v, u ∈ visited s -> u ≠ cur -> relaxed s u v)
  ∧ (∀ nb, nb ∈ done -> relaxed s cur nb.1).

(** The bounds that make the closed scores optimal. *)
Record bounds (s : search) : Prop := {
  b_closed : ∀ u gu, u ∈ visited s -> g_score s !! u = Some gu ->
      ∀ p c, walk u p c -> (gu <= c)%R;
  b_frontier : ∀ v g, g_score s !! v = Some g -> v ∉ visited s ->
      ∃ f, (f, v) ∈ open_set s ∧ (f <= g + heuristic goal v)%R;
  b_entries : ∀ f n g, (f, n) ∈ open_set s -> g_score s !! n = Some g ->
      n = start ∨ (g + heuristic goal n <= f)%R
}.

(** The state after [came_from[v] = cur; g_score[v] = t; heappush(...)]. *)
Definition updated (s : search) (cur v : node) (t : R) : search :=
  {| open_set := heappush (open_set s) ((t + heuristic goal v)%R, v);
     came_from := <[v := cur]> (came_from s);
     g_score := <[v := t]> (g_score s);
     visited := visited s |}.

(** The state after [heappop] and [visited.add(current)]. *)
Definition closing (s : search) (top : entry) (rest : list entry) : search :=
  {| open_set := rest; came_from := came_from s; g_score := g_score s;
     visited := {[top.2]} ∪ visited s |}.

(** The cells of the grid, and the nodes the search can touch. *)
Definition cells : gset node :=
  list_to_set ((fun rc : nat * nat => (Z.of_nat rc.1, Z.of_nat rc.2))
                 <$> list_prod (seq 0 (length (grid self)))
                               (seq 0 (length (hd [] (grid self))))).

Definition universe : gset node := {[start]} ∪ cells.

(** The heap entries and the closed nodes stay within the universe. *)
Definition scoped (s : search) : Prop :=
  (∀ e, e ∈ open_set s -> e.2 ∈ universe) ∧ visited s ⊆ universe.

(** Every scored node that is not closed yet waits on the heap. *)
Definition pending (s : search) : Prop :=
  ∀ v, is_Some (g_score s !! v) -> v ∉ visited s -> ∃ f, (f, v) ∈ open_set s.

(** What bounds the turns still to come: every turn takes an entry off the
    heap, and only the closing of a new node puts entries on it, eight at
    most. *)
Definition potential (s : search) : nat :=
  length (open_set s) + 9 * size (universe ∖ visited s).

End Invariants.

End SearchInv.

(** ** What the search on binary64 keeps true *)

Module SearchInv64.
Import AStar64.

Section Invariants.
Variable self : AStarPlanner.
Variable start : node.

(** The score that the edge from [u] offers to its neighbour [nb]:
    [g_score[current] + cost]. *)
Definition offer (s : search) (u : node) (nb : node * float) (ec : float) : float :=
  PrimFloat.add (g_get s u) (PrimFloat.add nb.2 ec).

(** Every scored node has its parent links back to [start], through closed
    nodes; closed nodes and heap entries are scored. *)
Record linked (s : search) : Prop := {
  l_tree : ∀ n, is_Some (g_score s !! n) ->
      ∃ p, SearchInv.chain (came_from s) n p ∧ NoDup p ∧ head p = Some start
           ∧ ∀ x, x ∈ p -> x ≠ n -> x ∈ visited s;
  l_closed : ∀ u, u ∈ visited s -> is_Some (g_score s !! u);
  l_entries : ∀ e, e ∈ open_set s -> is_Some (g_score s !! e.2)
}.

(** The edge from a closed [u] to its neighbour [nb] has been relaxed: what
    it offers is not below the neighbour's score (or is nan). *)
Definition settled (s : search) (u : node) (nb : node * float) : Prop :=
  nb.1 ∉ visited s -> ∀ ec, elev_cost self u nb.1 = Ok ec ->
  PrimFloat.ltb (offer s u nb ec) (g_get s nb.1) = false.

(** Between two turns of the [while] loop. *)
Definition outer (s : search) : Prop :=
  linked s
  ∧ ∀ u nb, u ∈ visited s -> nb ∈ get_neighbors self u -> settled s u nb.

(** Inside the [for] loop over the neighbours of [cur], of which [done] have
    been handled. *)
Definition inner (cur : node) (done : list (node * float)) (s : search) : Prop :=
  linked s
  ∧ cur ∈ visited s
  ∧ (∀ u nb, u ∈ visited s -> u ≠ cur -> nb ∈ get_neighbors self u -> settled s u nb)
  ∧ (∀ nb, nb ∈ done -> settled s cur nb).

(** The state after [heappop] and [visited.add(current)]. *)
Definition closing (s : search) (top : entry) (rest : list entry) : search :=
  {| open_set := rest; came_from := came_from s; g_score := g_score s;
     visited := {[top.2]} ∪ visited s |}.

(** The nodes the search can touch: [start] and the cells of the grid. *)
Definition universe : gset node := SearchInv.universe (exact self) start.

Definition scoped (s : search) : Prop :=
  (∀ e, e ∈ open_set s -> e.2 ∈ universe) ∧ visited s ⊆ universe.

(** What bounds the turns still to come, as for the search on exact
    numbers. *)
Definition potential (s : search) : nat :=
  length (open_set s) + 9 * size (universe ∖ visited s).

End Invariants.

End SearchInv64.

(** ** What the loops of the cost matrix keep true *)

Module MatrixInv.
Import Tsp.

(** [n] rows of [n] entries. *)
Definition square (n : nat) (m : list (list R)) : Prop :=
  length m = n ∧ Forall (fun row => length row = n) m.

Section Invariants.
Variable dist : point -> point -> R.
Variable waypoints : list point.

(** The matrix once the pairs in [done] are stored: square, zero on the
    diagonal, symmetric, and holding the distance [dist] at every stored
    pair. *)
Record filled (done : nat -> nat -> Prop) (m : list (list R)) : Prop := {
  f_square : square (length waypoints) m;
  f_diag : ∀ i, i < length waypoints -> cell m i i = Some 0%R;
  f_sym : ∀ i j, i < length waypoints -> j < length waypoints -> cell m i j = cell m j i;
  f_done : ∀ i j wi wj, done i j -> waypoints !! i = Some wi -> waypoints !! j = Some wj ->
           cell m i j = Some (dist wi wj)
}.

End Invariants.

End MatrixInv.

(** ** What two runs of the synthesizer can be compared on *)

Module Observe.
Import Sim.

(** A trajectory point without its clock reading. *)
Definition untimed (p : GPSPoint) : R * R * R * option R * option R :=
  (gps_lat p, gps_lon p, gps_alt p, agl p, gps_heading p).

(** The outcome of a run, without the clock readings. *)
Definition positions (o : outcome Trace)
  : outcome (string * list (R * R * R * option R * option R)) :=
  match o with
  | Ok t => Ok (trace_drone_id t, untimed <$> data t)
  | Raise e => Raise e
  | Diverge => Diverge
  end.

(** The range [[0, 360)] that the specification gives to headings. *)
Definition heading_in_range (h : R) : Prop := (0 <= h < 360)%R.

(** Two accumulators of a run that differ in clock readings only. *)
Definition same_untimed (a b : State * list GPSPoint) : Prop :=
  a.1 = b.1 ∧ untimed <$> a.2 = untimed <$> b.2.

(** Two outcomes of the same kind, related on what they return. *)
Definition outcome_rel {A : Type} (rel : A -> A -> Prop) (x y : outcome A) : Prop :=
  match x, y with
  | Ok a, Ok b => rel a b
  | Raise e, Raise e' => e = e'
  | Diverge, Diverge => True
  | _, _ => False
  end.

(** The planner's answer for a pair of cells, as the list of cells that
    [run_simulation] walks: none for an absent path. *)
Definition answers (w : World) (self : SimulationController)
    (pair : node * node) (path : list node) : Prop :=
  ∃ r, Wrapper.find_segment_path (run_plan w) (planner self) pair.1 pair.2 = Ok r
       ∧ default [] r = path.

(** The point [new_point_world] that [RRTStar.generate_new_point] steps to
    when the distance is not zero. *)
Definition new_point_world (self : RRTStar.RRTStar) (nearest random_point : point)
  : point :=
  let dx := (random_point.1 - nearest.1)%R in
  let dy := (random_point.2 - nearest.2)%R in
  let length := norm2 dx dy in
  let step_size := Rmin (RRTStar.delta self) (length * (7 / 10)) in
  (nearest.1 + dx / length * step_size, nearest.2 + dy / length * step_size)%R.

(** A call does not raise: it returns or does not come back. *)
Definition raises_nothing {A : Type} (o : outcome A) : Prop :=
  match o with
  | Raise _ => False
  | _ => True
  end.

(** A search does not return a path. *)
Definition no_path (o : outcome (option (list node))) : Prop :=
  match o with
  | Ok (Some _) => False
  | _ => True
  end.

(** The [k]-th point carries the [k]-th clock reading. *)
Definition stamped (w : World) (acc : State * list GPSPoint) : Prop :=
  ∀ k p, acc.2 !! k = Some p -> ts p = utcnow w k.

End Observe.

(** ** Concrete scenarios *)

Module Scenario.

(** A corridor of three free cells, without elevation field. *)
Definition corridor : AStar.AStarPlanner :=
  {| AStar.grid := [[0; 0; 0]]%Z;
     AStar.elevation := None;
     AStar.elevation_penalty := 1;
     AStar.debug := false |}.

(** A grid of two rows whose middle column is blocked. *)
Definition walled : AStar.AStarPlanner :=
  {| AStar.grid := [[0; 1; 0]; [0; 1; 0]]%Z;
     AStar.elevation := None;
     AStar.elevation_penalty := 1;
     AStar.debug := false |}.

(** The direct way through the corridor, and a way that turns back once. *)
Definition direct : list node := [(0, 0); (0, 1); (0, 2)]%Z.
Definition detour : list node := [(0, 0); (0, 1); (0, 0); (0, 1); (0, 2)]%Z.

(** An [RRTStar] on a map of one cell, with the defaults of its constructor. *)
Definition unit_star (cell : Z) : RRTStar.RRTStar :=
  {| RRTStar.map := [[cell]];
     RRTStar.start := (0, 0)%R;
     RRTStar.goal := (0, 0)%R;
     RRTStar.target_radius := 1;
     RRTStar.exploration_bias := 8 / 10;
     RRTStar.delta := 3;
     RRTStar.max_nodes := 100;
     RRTStar.nodes := [(0, 0)%R];
     RRTStar.edges := [] |}.

(** Geodesy on a line of constant latitude with one metre per unit of
    longitude: the forward azimuth is -90 westward and 90 eastward, as
    [pyproj.Geod.inv] reports azimuths within [-180, 180]. *)
Definition line_geod : Sim.Geod :=
  {| Sim.inv := fun lon1 lat1 lon2 lat2 =>
       (if Rlt_dec lon2 lon1 then (-90)%R else 90%R,
        if Rlt_dec lon2 lon1 then 90%R else (-90)%R,
        Rabs (lon2 - lon1));
     Sim.fwd := fun lon lat az dist =>
       (if Rlt_dec az 0 then (lon - dist)%R else (lon + dist)%R, lat, (- az)%R) |}.

(** The grid transform that sends column and row to longitude and latitude
    unchanged. *)
Definition unit_transform : Sim.Transform :=
  {| Sim.apply := fun x y => (x, y);
     Sim.apply_inverse := fun x y => Ok (x, y) |}.

Definition line_world (clock : nat -> Z) : Sim.World :=
  {| Sim.geodesic_m := fun a b => Rabs (a.2 - b.2);
     Sim.utcnow := clock;
     Sim.run_plan := fun _ _ _ => Ok None |}.

(** The wrapper as [SimulationController.__init__] builds it, on a grid of
    one row and two columns. *)
Definition row_wrapper (grid : ndarray Z) : Wrapper.PathPlannerWrapper :=
  {| Wrapper.planner_type := "astar";
     Wrapper.grid := grid;
     Wrapper.elevation := Some [[0; 0]]%float;
     Wrapper.elevation_penalty := 0x1.0624dd2f1a9fcp-10%float;
     Wrapper.step_size := 1.5%float;
     Wrapper.max_iter := 1500;
     Wrapper.debug := true;
     Wrapper.planner_core :=
       Wrapper.Instance
         {| AStar64.grid := grid;
            AStar64.elevation := Some [[0; 0]]%float;
            AStar64.elevation_penalty := 0x1.0624dd2f1a9fcp-10%float;
            AStar64.debug := true |} |}.

(** Two waypoints on the cells (0, 0) and (0, 1), with the drone starting ten
    metres east of the first, moving four metres per sample. *)
Definition westward (grid : ndarray Z) : Sim.SimulationController :=
  {| Sim.waypoints := [ {| Sim.wp_lat := 0; Sim.wp_lon := 0 |};
                        {| Sim.wp_lat := 0; Sim.wp_lon := 1 |} ];
     Sim.speed_mps := 4;
     Sim.interval_ms := 1000;
     Sim.gps_noise_std := 0;
     Sim.geod := line_geod;
     Sim.elevation := [[0; 0]]%float;
     Sim.transform := unit_transform;
     Sim.start_lat := 0;
     Sim.start_lon := 10;
     Sim.drone_id := "drone_1";
     Sim.dem_func := fun _ _ => 0%R;
     Sim.planner := row_wrapper grid |}.

(** The two states that the westward run passes through. *)
Definition west1 : Sim.State :=
  Sim.step_towards (westward [[0; 0]]%Z)
    (Sim.get_start_location (westward [[0; 0]]%Z)) (0, 0)%R None.
Definition west2 : Sim.State :=
  Sim.step_towards (westward [[0; 0]]%Z) west1 (0, 0)%R None.

End Scenario.

(** ** Further scenarios *)

Module Cases.

(** The westward controller without waypoints. *)
Definition lone : Sim.SimulationController :=
  {| Sim.waypoints := [];
     Sim.speed_mps := 4;
     Sim.interval_ms := 1000;
     Sim.gps_noise_std := 0;
     Sim.geod := Scenario.line_geod;
     Sim.elevation := [[0; 0]]%float;
     Sim.transform := Scenario.unit_transform;
     Sim.start_lat := 0;
     Sim.start_lon := 10;
     Sim.drone_id := "drone_1";
     Sim.dem_func := fun _ _ => 0%R;
     Sim.planner := Scenario.row_wrapper [[0; 0]]%Z |}.

(** The westward controller with the drone [d] metres east of its first
    target and a speed of [s] metres per sample. *)
Definition hopper (s d : R) : Sim.SimulationController :=
  {| Sim.waypoints := [ {| Sim.wp_lat := 0; Sim.wp_lon := 0 |};
                        {| Sim.wp_lat := 0; Sim.wp_lon := 1 |} ];
     Sim.speed_mps := s;
     Sim.interval_ms := 1000;
     Sim.gps_noise_std := 0;
     Sim.geod := Scenario.line_geod;
     Sim.elevation := [[0; 0]]%float;
     Sim.transform := Scenario.unit_transform;
     Sim.start_lat := 0;
     Sim.start_lon := d;
     Sim.drone_id := "drone_1";
     Sim.dem_func := fun _ _ => 0%R;
     Sim.planner := Scenario.row_wrapper [[0; 0]]%Z |}.

(** An [RRT] on a free map of two rows and one column, with a step of two
    cells. *)
Definition two_rows : RRT.RRT :=
  {| RRT.map := [[0]; [0]]%Z; RRT.step_size := 2; RRT.max_iter := 1;
     RRT.debug := false |}.

(** A random source whose [random.random()] is always above 0.9, so that
    every sample is the goal. *)
Definition goal_biased : RRTPlan.Random :=
  {| RRTPlan.random := fun _ => 1%R; RRTPlan.uniform := fun _ a _ => a |}.

(** An [RRTStar] that has grown a second node. *)
Definition grown_star : RRTStar.RRTStar :=
  {| RRTStar.map := [[1]]%Z;
     RRTStar.start := (0, 0)%R;
     RRTStar.goal := (2, 2)%R;
     RRTStar.target_radius := 1;
     RRTStar.exploration_bias := 8 / 10;
     RRTStar.delta := 3;
     RRTStar.max_nodes := 100;
     RRTStar.nodes := [(0, 0)%R; (1, 1)%R];
     RRTStar.edges := [] |}.

(** An [RRTStar] on a map of four rows and five columns that is free (1)
    everywhere but in the last cell of its first row. *)
Definition cornered_star : RRTStar.RRTStar :=
  {| RRTStar.map := [[1; 1; 1; 1; 0]; [1; 1; 1; 1; 1]; [1; 1; 1; 1; 1]; [1; 1; 1; 1; 1]]%Z;
     RRTStar.start := (0, 0)%R;
     RRTStar.goal := (2, 2)%R;
     RRTStar.target_radius := 1;
     RRTStar.exploration_bias := 8 / 10;
     RRTStar.delta := 5;
     RRTStar.max_nodes := 100;
     RRTStar.nodes := [(0, 0)%R];
     RRTStar.edges := [] |}.

(** A DEM of one row and seven cells whose third cell holds no data. *)
Definition gap_dem : ndarray float := [[0; 0; nan; 0; 0; 0; 0]]%float.

(** The wrapper as [SimulationController.__init__] builds it on that DEM: A*
    on the free grid of the DEM's shape, with the DEM as elevation field and
    the penalty 0.001. *)
Definition gap_wrapper : Wrapper.PathPlannerWrapper :=
  {| Wrapper.planner_type := "astar";
     Wrapper.grid := [[0; 0; 0; 0; 0; 0; 0]]%Z;
     Wrapper.elevation := Some gap_dem;
     Wrapper.elevation_penalty := 0x1.0624dd2f1a9fcp-10%float;
     Wrapper.step_size := 1.5%float;
     Wrapper.max_iter := 1500;
     Wrapper.debug := true;
     Wrapper.planner_core :=
       Wrapper.Instance
         {| AStar64.grid := [[0; 0; 0; 0; 0; 0; 0]]%Z;
            AStar64.elevation := Some gap_dem;
            AStar64.elevation_penalty := 0x1.0624dd2f1a9fcp-10%float;
            AStar64.debug := true |} |}.

(** The controller on that DEM, with four waypoints on the cells 0, 1, 3
    and 6 of the row: the cell without data lies between the second and the
    third. The drone starts three metres west of the first and moves four
    metres per sample. *)
Definition gapped : Sim.SimulationController :=
  {| Sim.waypoints := [ {| Sim.wp_lat := 0; Sim.wp_lon := 0 |};
                        {| Sim.wp_lat := 0; Sim.wp_lon := 1 |};
                        {| Sim.wp_lat := 0; Sim.wp_lon := 3 |};
                        {| Sim.wp_lat := 0; Sim.wp_lon := 6 |} ];
     Sim.speed_mps := 4;
     Sim.interval_ms := 1000;
     Sim.gps_noise_std := 0;
     Sim.geod := Scenario.line_geod;
     Sim.elevation := gap_dem;
     Sim.transform := Scenario.unit_transform;
     Sim.start_lat := 0;
     Sim.start_lon := -3;
     Sim.drone_id := "drone_1";
     Sim.dem_func := fun _ _ => 0%R;
     Sim.planner := gap_wrapper |}.

(** The two states that the run of [gapped] passes through. *)
Definition gap1 : Sim.State :=
  Sim.step_towards gapped (Sim.get_start_location gapped) (0, 0)%R None.
Definition gap2 : Sim.State := Sim.step_towards gapped gap1 (0, 4)%R None.

(** A free grid of two rows and three columns whose elevation field rises
    by [2 ^ -60] in one cell, with the penalty 1. *)
Definition rippled : AStar64.AStarPlanner :=
  {| AStar64.grid := [[0; 0; 0]; [0; 0; 0]]%Z;
     AStar64.elevation := Some [[0; 0x1p-60; 0]; [0; 0; 0]]%float;
     AStar64.elevation_penalty := 1%float;
     AStar64.debug := false |}.

(** The two ways from (0, 0) to (1, 2) that tie in binary64. *)
Definition over_ripple : list node := [(0, 0); (0, 1); (1, 2)]%Z.
Definition around_ripple : list node := [(0, 0); (1, 1); (1, 2)]%Z.

(** The planner of the controller (free grid, penalty 0.001) on a DEM of
    two cells, the second without data. *)
Definition hollow : AStar64.AStarPlanner :=
  {| AStar64.grid := [[0; 0]]%Z;
     AStar64.elevation := Some [[0; nan]]%float;
     AStar64.elevation_penalty := 0x1.0624dd2f1a9fcp-10%float;
     AStar64.debug := true |}.

(** An [RRT] whose step size is negative. *)
Definition backward : RRT64.RRT :=
  {| RRT64.map := [[0]]%Z; RRT64.step_size := (-1)%float; RRT64.max_iter := 1000;
     RRT64.debug := false |}.

(** Three buildings, named by numbers, on three cells of a DEM of two rows
    and two columns. *)
Definition corner_of (building : nat) : point :=
  match building with
  | 7%nat => (0, 0)%R
  | 8%nat => (0, 1)%R
  | _ => (1, 0)%R
  end.

Definition roughness : ndarray R := [[5; 9]; [1; 7]]%R.

(** A geodesic distance that knows latitudes within [[-90, 90]] only. *)
Definition geodesic_on_globe (u v : point) : outcome R :=
  if Rleb (Rabs u.1) 90 && Rleb (Rabs v.1) 90
  then Ok (Rabs (u.1 - v.1) + Rabs (u.2 - v.2))%R
  else Raise ValueError.

(** A database without rows for any drone. *)
Definition empty_db : Api.Database unit unit :=
  {| Api.get_asyncpg_conn := Api.Returned tt;
     Api.get_resampled_trace := fun _ _ _ => Api.Returned [];
     Api.get_first_point := fun _ _ => Api.Returned None;
     Api.close := fun _ => Api.Returned tt |}.

(** Two flight waypoints. *)
Definition pair_of_waypoints : list Utils.FlightWaypoint :=
  [ {| Utils.fw_lat := 0; Utils.fw_lon := 0; Utils.fw_alt := 20 |};
    {| Utils.fw_lat := 3; Utils.fw_lon := 4; Utils.fw_alt := 20 |} ].

End Cases.

(* ===================================================================== *)
(** * Part II: the properties                                             *)
(* ===================================================================== *)

(** ** Outcomes, loops and comparisons *)

Lemma Rltb_true x y : Rltb x y = true <-> (x < y)%R.
Proof. unfold Rltb. destruct (Rlt_dec x y); split; intros; try done. Qed.

Lemma Rleb_true x y : Rleb x y = true <-> (x <= y)%R.
Proof. unfold Rleb. destruct (Rle_dec x y); split; intros; try done. Qed.

Lemma norm2_nonneg x y : (0 <= norm2 x y)%R.
Proof. unfold norm2. apply sqrt_pos. Qed.

Lemma norm2_dist_euc x0 y0 x1 y1 : norm2 (x0 - x1) (y0 - y1) = dist_euc x0 y0 x1 y1.
Proof. unfold norm2, dist_euc, Rsqr. reflexivity. Qed.

Lemma norm2_triangle (a b c : node) :
  (norm2 (IZR (c.1 - a.1)) (IZR (c.2 - a.2))
   <= norm2 (IZR (b.1 - a.1)) (IZR (b.2 - a.2))
      + norm2 (IZR (c.1 - b.1)) (IZR (c.2 - b.2)))%R.
Proof.
  rewrite !minus_IZR, !norm2_dist_euc.
  rewrite Rplus_comm. apply triangle.
Qed.

Lemma bind_Ok {A B} (m : outcome A) (f : A -> outcome B) b :
  (m ≫= f) = Ok b <-> ∃ a, m = Ok a ∧ f a = Ok b.
Proof.
  destruct m; simpl; split; try (intros (? & ? & ?)); try done; eauto.
  congruence.
Qed.

Lemma bind_Ok_l {A B} (a : A) (f : A -> outcome B) : (Ok a ≫= f) = f a.
Proof. reflexivity. Qed.

Lemma for_each_prefix_inv {A S : Type} (body : S -> A -> outcome S)
    (P : list A -> S -> Prop) (l : list A) :
  (∀ pre x s s', x ∈ l -> P pre s -> body s x = Ok s' -> P (pre ++ [x]) s') ->
  ∀ s s', P [] s -> for_each body s l = Ok s' -> P l s'.
Proof.
  intros Hstep.
  assert (∀ l' pre s s', (∀ x, x ∈ l' -> x ∈ l) -> P pre s ->
            for_each body s l' = Ok s' -> P (pre ++ l') s') as Hgen.
  { induction l' as [|x l' IH]; intros pre s s' Hsub HP; simpl.
    - intros [= <-]. by rewrite app_nil_r.
    - intros (s1 & Hb & Hrest)%bind_Ok.
      replace (pre ++ x :: l') with ((pre ++ [x]) ++ l') by (by rewrite <- app_assoc).
      apply (IH _ s1); [intros; apply Hsub; by right| |done].
      apply (Hstep _ _ s); [apply Hsub; by left|done|done]. }
  intros s s' HP Hrun. apply (Hgen l [] s s'); auto.
Qed.

(** The same for a body that cannot raise under the invariant: the loop
    runs to its end. *)
Lemma for_each_prefix_total {A S : Type} (body : S -> A -> outcome S)
    (P : list A -> S -> Prop) (l : list A) :
  (∀ pre x s, x ∈ l -> P pre s -> ∃ s', body s x = Ok s' ∧ P (pre ++ [x]) s') ->
  ∀ s, P [] s -> ∃ s', for_each body s l = Ok s' ∧ P l s'.
Proof.
  intros Hstep.
  assert (∀ l' pre s, (∀ x, x ∈ l' -> x ∈ l) -> P pre s ->
            ∃ s', for_each body s l' = Ok s' ∧ P (pre ++ l') s') as Hgen.
  { induction l' as [|x l' IH]; intros pre s Hsub HP; simpl.
    - exists s. by rewrite app_nil_r.
    - destruct (Hstep pre x s) as (s1 & -> & HP1); [apply Hsub; by left|done|].
      simpl. replace (pre ++ x :: l') with ((pre ++ [x]) ++ l') by (by rewrite <- app_assoc).
      apply IH; [intros; apply Hsub; by right|done]. }
  intros s HP. apply (Hgen l [] s); auto.
Qed.

Module AStarFacts.
Import AStar GridPath SearchInv.

Lemma pop_min_spec e l m rest :
  pop_min e l = (m, rest) ->
  (m :: rest) ≡ₚ (e :: l) ∧ ∀ x, x ∈ e :: l -> (m.1 <= x.1)%R.
Proof.
  revert e m rest. induction l as [|x l IH]; intros e m rest; simpl.
  - intros [= <- <-]. split; [done|]. intros x ->%list_elem_of_singleton. lra.
  - destruct (pop_min x l) as [m' rest'] eqn:E.
    destruct (IH _ _ _ E) as [Hp Hmin].
    destruct (entry_leb e m') eqn:Hle.
    + intros [= <- <-]. split; [done|].
      assert (e.1 <= m'.1)%R as Hem.
      { unfold entry_leb in Hle. apply orb_true_iff in Hle as [H|H].
        - apply Rltb_true in H. lra.
        - apply andb_true_iff in H as [H _]. apply bool_decide_eq_true in H. lra. }
      intros y [->|Hy]%elem_of_cons; [lra|].
      specialize (Hmin y Hy). lra.
    + intros [= <- <-]. split.
      * etrans; [apply Permutation_swap|]. by apply Permutation_skip.
      * assert (m'.1 <= e.1)%R as Hme.
        { unfold entry_leb in Hle. apply orb_false_iff in Hle as [H _].
          destruct (Rlt_dec e.1 m'.1) as [Hlt|Hn]; [|lra].
          apply Rltb_true in Hlt. congruence. }
        intros y [->|Hy]%elem_of_cons; [lra|]. by apply Hmin.
Qed.

Section Search.
Variable self : AStarPlanner.
Variable start goal : node.

Local Abbreviation walk := (SearchInv.walk self start).
Local Abbreviation core := (SearchInv.core self start).
Local Abbreviation relaxed := (SearchInv.relaxed self).
Local Abbreviation outer := (SearchInv.outer self start).
Local Abbreviation inner := (SearchInv.inner self start).
Local Abbreviation bounds := (SearchInv.bounds self start goal).
Local Abbreviation updated := (SearchInv.updated goal).
Local Abbreviation c_start := (SearchInv.c_start self start).
Local Abbreviation c_tree := (SearchInv.c_tree self start).
Local Abbreviation c_closed := (SearchInv.c_closed self start).
Local Abbreviation c_entries := (SearchInv.c_entries self start).
Local Abbreviation b_closed := (SearchInv.b_closed self start goal).
Local Abbreviation b_frontier := (SearchInv.b_frontier self start goal).
Local Abbreviation b_entries := (SearchInv.b_entries self start goal).

Lemma neighbors_spec u v c :
  (v, c) ∈ get_neighbors self u <-> legal self u v ∧ c = base_cost u v.
Proof.
  unfold get_neighbors, legal, base_cost. rewrite list_elem_of_omap. split.
  - intros (d & Hd & Hv). simpl in Hv.
    destruct (in_bounds self _) eqn:Hb; [|done].
    case_bool_decide as Hfree; [|done].
    injection Hv as <- <-. simpl.
    replace (u.1 + d.1 - u.1)%Z with d.1 by lia.
    replace (u.2 + d.2 - u.2)%Z with d.2 by lia.
    destruct d; auto.
  - intros ((Hd & Hb & Hfree) & ->).
    exists (v.1 - u.1, v.2 - u.2)%Z. split; [done|]. simpl.
    replace (u.1 + (v.1 - u.1))%Z with v.1 by lia.
    replace (u.2 + (v.2 - u.2))%Z with v.2 by lia.
    destruct v as [v1 v2]; simpl in *. rewrite Hb.
    by rewrite bool_decide_eq_true_2.
Qed.

Lemma edge_cost_elev u v :
  edge_cost self u v = (ec ← elev_cost self u v; Ok (base_cost u v + ec)%R).
Proof.
  unfold edge_cost, elev_cost. destruct (elevation self) as [elev|]; simpl.
  - destruct (np_get elev u.1 u.2); simpl; try done.
    destruct (np_get elev v.1 v.2); simpl; done.
  - f_equal. lra.
Qed.

Lemma walk_head n p c : walk n p c -> head p = Some start.
Proof.
  induction 1 as [|u v p c ce c' _ IH _ _ _]; [done|].
  destruct p; [done|]. exact IH.
Qed.

Lemma walk_last n p c : walk n p c -> last p = Some n.
Proof. induction 1; [done|]. apply last_snoc. Qed.

Lemma path_cost_cons a b q :
  path_cost self (a :: b :: q)
  = (c ← edge_cost self a b; r ← path_cost self (b :: q); Ok (c + r)%R).
Proof. reflexivity. Qed.

Lemma path_cost_snoc q u v cq ce :
  last q = Some u -> path_cost self q = Ok cq -> edge_cost self u v = Ok ce ->
  path_cost self (q ++ [v]) = Ok (cq + ce)%R.
Proof.
  revert cq. induction q as [|a q IH]; intros cq Hl Hq He; [done|].
  destruct q as [|b q].
  - simpl in Hl, Hq. injection Hl as ->. injection Hq as <-.
    change ([u] ++ [v]) with [u; v]. rewrite path_cost_cons, He. simpl.
    f_equal. lra.
  - change ((a :: b :: q) ++ [v]) with (a :: b :: (q ++ [v])).
    rewrite path_cost_cons in Hq |- *.
    apply bind_Ok in Hq as (c1 & Hc1 & (r & Hr & [= <-])%bind_Ok).
    rewrite Hc1. rewrite bind_Ok_l.
    change (b :: q ++ [v]) with ((b :: q) ++ [v]).
    rewrite (IH r); [|done..]. rewrite bind_Ok_l. f_equal. lra.
Qed.

Lemma walk_path_cost n p c : walk n p c -> path_cost self p = Ok c.
Proof.
  induction 1 as [|u v p c ce c' Hw IH _ Hce ->]; [done|].
  apply (path_cost_snoc _ u); [by eapply walk_last|done|done].
Qed.

Lemma walk_legal_moves n p c : walk n p c -> legal_moves self p.
Proof.
  assert (∀ q u v, last q = Some u -> legal_moves self q -> legal self u v ->
            legal_moves self (q ++ [v])) as Hsnoc.
  { induction q as [|a q IH]; intros u v Hl Hq He; [done|].
    destruct q as [|b q].
    - simpl in *. injection Hl as ->. done.
    - change ((a :: b :: q) ++ [v]) with (a :: (b :: q) ++ [v]).
      destruct Hq as [Hab Hq]. split; [done|]. by apply (IH u). }
  induction 1 as [|u v p c ce c' Hw IH Hl _ _]; [done|].
  apply (Hsnoc _ u); [by eapply walk_last|done|done].
Qed.

(** Every path of the specification is a walk. *)
Lemma path_walk q n c :
  head q = Some start -> last q = Some n -> legal_moves self q ->
  path_cost self q = Ok c -> walk n q c.
Proof.
  revert n c. induction q as [|v q IH] using rev_ind; intros n c Hh Hl Hm Hc; [done|].
  rewrite last_snoc in Hl. injection Hl as ->.
  destruct q as [|a q] using rev_ind.
  - simpl in *. injection Hh as ->. injection Hc as <-. constructor.
  - clear IHq.
    assert (∀ l u w, legal_moves self (l ++ [u; w]) ->
              legal_moves self (l ++ [u]) ∧ legal self u w) as Hsplit.
    { induction l as [|x l IHl]; intros u w; simpl; [tauto|].
      destruct l as [|y l]; simpl in *; [tauto|].
      intros [Hxy H]. apply IHl in H. tauto. }
    assert (∀ l u w cw, path_cost self (l ++ [u; w]) = Ok cw ->
              ∃ c1 ce, path_cost self (l ++ [u]) = Ok c1 ∧ edge_cost self u w = Ok ce
                       ∧ cw = (c1 + ce)%R) as Hcost.
    { induction l as [|x l IHl]; intros u w cw.
      - change ([] ++ [u; w]) with [u; w]. rewrite path_cost_cons.
        intros (ce & He & (r & [= <-] & [= <-])%bind_Ok)%bind_Ok.
        exists 0%R, ce. split; [done|]. split; [done|lra].
      - destruct l as [|y l].
        + change ([x] ++ [u; w]) with (x :: u :: [w]). rewrite path_cost_cons.
          intros (c1 & H1 & (r & Hr & [= <-])%bind_Ok)%bind_Ok.
          rewrite path_cost_cons in Hr.
          apply bind_Ok in Hr as (ce & He & (r' & [= <-] & [= <-])%bind_Ok).
          exists (c1 + 0)%R, ce. change ([x] ++ [u]) with [x; u].
          rewrite path_cost_cons, H1. simpl. split; [done|]. split; [done|lra].
        + change ((x :: y :: l) ++ [u; w]) with (x :: y :: (l ++ [u; w])).
          rewrite path_cost_cons.
          intros (c1 & H1 & (r & Hr & [= <-])%bind_Ok)%bind_Ok.
          change (y :: l ++ [u; w]) with ((y :: l) ++ [u; w]) in Hr.
          apply IHl in Hr as (c2 & ce & H2 & He & ->).
          exists (c1 + c2)%R, ce.
          change ((x :: y :: l) ++ [u]) with (x :: y :: (l ++ [u])).
          rewrite path_cost_cons, H1, bind_Ok_l.
          change (y :: l ++ [u]) with ((y :: l) ++ [u]).
          rewrite H2, bind_Ok_l. split; [done|]. split; [done|lra]. }
    rewrite <- app_assoc in Hm, Hc. simpl in Hm, Hc.
    apply Hsplit in Hm as [Hm Hlegal].
    apply Hcost in Hc as (c1 & ce & Hc1 & Hce & ->).
    eapply walk_step; [|done|done|done].
    apply IH; [|apply last_snoc|done|done].
    rewrite <- app_assoc in Hh. destruct q; done.
Qed.

Lemma chain_insert cf n p v c :
  chain cf n p -> v ∉ p -> chain (<[v := c]> cf) n p.
Proof.
  induction 1 as [n Hn|n m p Hn Hc IH]; intros Hv.
  - apply chain_root. rewrite lookup_insert_ne; [done|].
    intros ->. apply Hv. by left.
  - apply not_elem_of_app in Hv as [Hv1 Hv2].
    apply chain_step with m; [|by apply IH].
    rewrite lookup_insert_ne; [done|]. intros ->. apply Hv2. by left.
Qed.

Lemma chain_nonempty cf n p : chain cf n p -> p ≠ [].
Proof. destruct 1; [done|]. by destruct p. Qed.

Lemma chain_tail_dom cf n p x : chain cf n p -> x ∈ tail p -> is_Some (cf !! x).
Proof.
  induction 1 as [n Hn|n m p Hn Hc IH]; simpl; [by intros ?%elem_of_nil|].
  destruct p as [|r p]; [by apply (chain_nonempty _ _ _) in Hc|].
  simpl in *. intros [Hx| ->%list_elem_of_singleton]%elem_of_app; [by apply IH|eauto].
Qed.

Lemma chain_length cf n p : chain cf n p -> NoDup p -> (length p <= S (size cf))%nat.
Proof.
  intros Hc Hnd.
  destruct p as [|r p]; [simpl; lia|]. simpl.
  apply NoDup_cons in Hnd as [_ Hnd].
  rewrite <- (size_dom (D := gset node)).
  rewrite <- (size_list_to_set (C := gset node) p Hnd).
  apply le_n_S, subseteq_size. intros x Hx%elem_of_list_to_set.
  apply elem_of_dom. by apply (chain_tail_dom _ _ _ _ Hc).
Qed.

Lemma chain_walk_back cf n p fuel :
  chain cf n p -> (length p <= fuel)%nat -> walk_back fuel cf n = Ok (reverse (tail p)).
Proof.
  intros Hc. revert fuel. induction Hc as [n Hn|n m p Hn Hc IH]; intros fuel Hf.
  - destruct fuel; [simpl in Hf; lia|]. simpl. by rewrite Hn.
  - rewrite length_app in Hf. simpl in Hf.
    destruct fuel; [lia|]. simpl. rewrite Hn.
    rewrite IH by lia. rewrite bind_Ok_l.
    destruct p as [|r p]; [by apply (chain_nonempty _ _ _) in Hc|].
    simpl. by rewrite reverse_snoc.
Qed.

Lemma chain_reconstruct cf n p :
  chain cf n p -> NoDup p -> head p = Some start -> reconstruct cf start n = Ok p.
Proof.
  intros Hc Hnd Hh. unfold reconstruct.
  rewrite (chain_walk_back cf n p); [|done|by apply (chain_length cf n)].
  rewrite bind_Ok_l. rewrite reverse_app, reverse_involutive.
  destruct p as [|r p]; [done|]. simpl in *. by injection Hh as ->.
Qed.

Lemma initial_outer : outer (initial start).
Proof.
  split; [split|split]; simpl.
  - apply lookup_singleton_eq.
  - intros n g [<- <-]%lookup_singleton_Some. exists [start].
    split; [by apply chain_root|]. split; [apply NoDup_singleton|].
    split; [by intros x ->%list_elem_of_singleton|constructor].
  - intros u Hu. by apply elem_of_empty in Hu.
  - intros e ->%list_elem_of_singleton. simpl. rewrite lookup_singleton_eq. eauto.
  - right. by intros e ->%list_elem_of_singleton.
  - intros u v Hu. by apply elem_of_empty in Hu.
Qed.

Lemma initial_bounds : bounds (initial start).
Proof.
  split; simpl.
  - intros u gu Hu. by apply elem_of_empty in Hu.
  - intros v g [<- <-]%lookup_singleton_Some _. exists 0%R.
    split; [by left|].
    pose proof (norm2_nonneg (IZR (goal.1 - start.1)) (IZR (goal.2 - start.2))).
    unfold heuristic. lra.
  - intros f n g [= -> ->]%list_elem_of_singleton _. by left.
Qed.

Lemma relaxed_updated s cur v t u w :
  u ∈ visited s -> v ∉ visited s ->
  (∀ gv, g_score s !! v = Some gv -> (t < gv)%R) ->
  relaxed s u w -> relaxed (updated s cur v t) u w.
Proof.
  intros Hu Hv Hlow Hrel Hw Hleg ce Hce.
  destruct (Hrel Hw Hleg ce Hce) as (gu & gw & Hgu & Hgw & Hle).
  assert (u ≠ v) as Huv by (intros ->; done).
  exists gu. simpl. rewrite lookup_insert_ne by done.
  destruct (decide (w = v)) as [->|Hwv].
  - exists t. rewrite lookup_insert_eq. split; [done|]. split; [done|].
    specialize (Hlow _ Hgw). lra.
  - exists gw. by rewrite lookup_insert_ne.
Qed.

Lemma updated_inner cur done s v gc ce t :
  inner cur done s -> legal self cur v -> v ∉ visited s ->
  edge_cost self cur v = Ok ce -> g_score s !! cur = Some gc -> t = (gc + ce)%R ->
  (∀ gv, g_score s !! v = Some gv -> (t < gv)%R) ->
  inner cur (done ++ [(v, base_cost cur v)]) (updated s cur v t).
Proof.
  intros (Hcore & Hst & Hcur & Hothers & Hdone) Hleg Hv Hce Hgc Ht Hlow.
  assert (v ≠ start) as Hvs by (intros ->; done).
  assert (v ≠ cur) as Hvc by (intros ->; done).
  split; [split|split; [|split; [|split]]]; simpl; try done.
  - rewrite lookup_insert_ne by done. apply Hcore.
  - intros n g Hn. destruct (decide (n = v)) as [->|Hnv].
    + rewrite lookup_insert_eq in Hn. injection Hn as <-.
      destruct (c_tree s Hcore cur gc Hgc) as (pc & Hch & Hnd & Hvis & Hw).
      assert (v ∉ pc) as Hvpc.
      { intros Hin. destruct (decide (v = cur)) as [->|Hne]; [done|].
        apply Hv. by apply Hvis. }
      exists (pc ++ [v]). split; [|split; [|split]].
      * apply chain_step with cur; [apply lookup_insert_eq|by apply chain_insert].
      * apply NoDup_app. split; [done|]. split; [|apply NoDup_singleton].
        intros x Hx ->%list_elem_of_singleton. done.
      * intros x [Hx| ->%list_elem_of_singleton]%elem_of_app Hxv; [|done].
        destruct (decide (x = cur)) as [->|Hne]; [done|]. by apply Hvis.
      * by eapply walk_step.
    + rewrite lookup_insert_ne in Hn by done.
      destruct (c_tree s Hcore n g Hn) as (p & Hch & Hnd & Hvis & Hw).
      exists p. split; [|done]. apply chain_insert; [done|].
      intros Hin. apply Hv. apply Hvis; [done|]. by intros ->.
  - intros u Hu. rewrite lookup_insert_ne by (intros ->; done). by apply Hcore.
  - intros e [->|Hin]%elem_of_cons; simpl.
    + rewrite lookup_insert_eq. eauto.
    + destruct (decide (e.2 = v)) as [->|Hne].
      * rewrite lookup_insert_eq. eauto.
      * rewrite lookup_insert_ne by done. by apply (c_entries s Hcore).
  - intros u w Hu Hne. apply relaxed_updated; [done..|by apply Hothers].
  - intros nb [Hin| ->%list_elem_of_singleton]%elem_of_app.
    + apply relaxed_updated; [done..|by apply Hdone].
    + simpl. intros _ _ ce' Hce'. rewrite Hce in Hce'. injection Hce' as <-.
      exists gc, t. simpl. rewrite lookup_insert_ne by done. rewrite lookup_insert_eq.
      split; [done|]. split; [done|lra].
Qed.

Lemma updated_bounds cur s v t :
  core s -> bounds s -> v ∉ visited s -> v ≠ start ->
  (∀ gv, g_score s !! v = Some gv -> (t < gv)%R) ->
  bounds (updated s cur v t).
Proof.
  intros Hcore Hb Hv Hvs Hlow. split; simpl.
  - intros u gu Hu. rewrite lookup_insert_ne by (intros ->; done). by apply Hb.
  - intros n g Hn Hnv. destruct (decide (n = v)) as [->|Hne].
    + rewrite lookup_insert_eq in Hn. injection Hn as <-.
      exists (t + heuristic goal v)%R. split; [by left|lra].
    + rewrite lookup_insert_ne in Hn by done.
      destruct (b_frontier s Hb n g Hn Hnv) as (f & Hf & Hle).
      exists f. split; [by right|done].
  - intros f n g [[= -> ->]|Hin]%elem_of_cons.
    + rewrite lookup_insert_eq. intros [= <-]. right. lra.
    + destruct (decide (n = v)) as [->|Hne].
      * rewrite lookup_insert_eq. intros [= <-]. right.
        destruct (c_entries s Hcore _ Hin) as [gv Hgv]. simpl in Hgv.
        destruct (b_entries s Hb f v gv Hin Hgv) as [->|Hle]; [done|].
        specialize (Hlow _ Hgv). lra.
      * rewrite lookup_insert_ne by done. by apply Hb.
Qed.

Lemma relax_inner cur done s nb s' :
  inner cur done s -> nb ∈ get_neighbors self cur ->
  relax self goal cur s nb = Ok s' ->
  inner cur (done ++ [nb]) s' ∧ (bounds s -> bounds s').
Proof.
  intros Hin Hnb. destruct nb as [v base].
  apply neighbors_spec in Hnb as [Hlegal ->].
  unfold relax. simpl. case_bool_decide as Hv.
  - intros [= <-]. split; [|done].
    destruct Hin as (Hcore & Hst & Hcur & Hothers & Hdone).
    split; [done|]. split; [done|]. split; [done|]. split; [done|].
    intros nb [Hnb| ->%list_elem_of_singleton]%elem_of_app; [by apply Hdone|].
    intros Hv'. done.
  - intros (ec & Hec & Hrest)%bind_Ok.
    pose proof Hin as (Hcore & Hst & Hcur & Hothers & Hdone).
    destruct (c_closed s Hcore cur Hcur) as (gc & Hgc).
    unfold g_get in Hrest. rewrite Hgc in Hrest. simpl in Hrest.
    assert (edge_cost self cur v = Ok (base_cost cur v + ec)%R) as Hedge.
    { by rewrite edge_cost_elev, Hec. }
    assert (v ≠ start) as Hvs by (intros ->; done).
    destruct (g_score s !! v) as [gv|] eqn:Hgv; simpl in Hrest.
    + destruct (Rltb (gc + (base_cost cur v + ec)) gv) eqn:Hlt.
      * injection Hrest as <-.
        assert (∀ gv', g_score s !! v = Some gv' -> (gc + (base_cost cur v + ec) < gv')%R) as Hlow.
        { intros gv' Hgv'. rewrite Hgv in Hgv'. injection Hgv' as <-. by apply Rltb_true. }
        split; [|intros Hb; by apply updated_bounds].
        by apply (updated_inner cur done s v gc (base_cost cur v + ec)).
      * injection Hrest as <-. split; [|done].
        split; [done|]. split; [done|]. split; [done|]. split; [done|].
        intros nb [Hnb| ->%list_elem_of_singleton]%elem_of_app; [by apply Hdone|].
        simpl. intros _ _ ce Hce. rewrite Hedge in Hce. injection Hce as <-.
        exists gc, gv. split; [done|]. split; [done|].
        destruct (Rlt_dec (gc + (base_cost cur v + ec)) gv) as [Hl|Hl]; [|lra].
        apply Rltb_true in Hl. congruence.
    + injection Hrest as <-.
      assert (∀ gv', g_score s !! v = Some gv' -> (gc + (base_cost cur v + ec) < gv')%R) as Hlow.
      { intros gv' Hgv'. by rewrite Hgv in Hgv'. }
      split; [|intros Hb; by apply updated_bounds].
      by apply (updated_inner cur done s v gc (base_cost cur v + ec)).
Qed.

(** The [for] loop over the neighbours of [cur]. *)
Lemma expand_inner cur s s' :
  inner cur [] s -> for_each (relax self goal cur) s (get_neighbors self cur) = Ok s' ->
  inner cur (get_neighbors self cur) s' ∧ (bounds s -> bounds s').
Proof.
  intros Hin Hfor.
  apply (for_each_prefix_inv (relax self goal cur)
           (fun done s' => inner cur done s' ∧ (bounds s -> bounds s'))
           (get_neighbors self cur)) with (s := s); [|done|done].
  intros pre x s0 s0' Hx [Hinner Hb] Hrelax.
  destruct (relax_inner _ _ _ _ _ Hinner Hx Hrelax) as [H1 H2]. split; [done|auto].
Qed.

Lemma heappop_spec h top rest :
  heappop h = Some (top, rest) ->
  top ∈ h ∧ (∀ x, x ∈ rest -> x ∈ h) ∧ (∀ x, x ∈ h -> x = top ∨ x ∈ rest)
  ∧ (∀ x, x ∈ h -> (top.1 <= x.1)%R) ∧ length h = S (length rest).
Proof.
  unfold heappop. destruct h as [|e l]; [done|]. intros [= Hpop].
  apply pop_min_spec in Hpop as [Hperm Hmin].
  split; [rewrite <- Hperm; by left|].
  split; [intros x Hx; rewrite <- Hperm; by right|].
  split; [intros x Hx; rewrite <- Hperm in Hx; by apply elem_of_cons in Hx|].
  split; [done|]. by rewrite <- Hperm.
Qed.

Lemma pop_inner s top rest :
  outer s -> heappop (open_set s) = Some (top, rest) ->
  inner top.2 [] (closing s top rest).
Proof.
  intros (Hcore & Hbegun & Hrel) (Htop & Hrest & _)%heappop_spec.
  split; [split|split; [|split; [|split]]]; simpl.
  - apply Hcore.
  - intros n g Hn. destruct (c_tree s Hcore n g Hn) as (p & Hch & Hnd & Hvis & Hw).
    exists p. split; [done|]. split; [done|]. split; [|done].
    intros x Hx Hne. apply elem_of_union_r. by apply Hvis.
  - intros u [->%elem_of_singleton|Hu]%elem_of_union.
    + by apply (c_entries s Hcore).
    + by apply Hcore.
  - intros e He. apply (c_entries s Hcore). by apply Hrest.
  - destruct Hbegun as [Hs|Hall]; [by apply elem_of_union_r|].
    apply elem_of_union_l, elem_of_singleton. symmetry. apply (Hall _ Htop).
  - apply elem_of_union_l. by apply elem_of_singleton.
  - intros u v [->%elem_of_singleton|Hu]%elem_of_union Hne; [done|].
    intros Hv. apply Hrel; [done|]. intros Hv'. apply Hv. by apply elem_of_union_r.
  - by intros nb ?%elem_of_nil.
Qed.

(** After the [for] loop the state is again one between two turns. *)
Lemma inner_outer cur s :
  inner cur (get_neighbors self cur) s -> outer s.
Proof.
  intros (Hcore & Hst & Hcur & Hothers & Hdone).
  split; [done|]. split; [by left|].
  intros u v Hu. destruct (decide (u = cur)) as [->|Hne]; [|by apply Hothers].
  intros Hv Hleg. apply (Hdone (v, base_cost cur v)); [|done|done].
  by apply neighbors_spec.
Qed.

(** The path that the search returns follows the parent links of the goal. *)
Lemma pop_goal_walk s top rest path :
  outer s -> heappop (open_set s) = Some (top, rest) ->
  reconstruct (came_from s) start top.2 = Ok path ->
  ∃ g, g_score s !! top.2 = Some g ∧ walk top.2 path g.
Proof.
  intros (Hcore & _ & _) (Htop & _)%heappop_spec Hrec.
  destruct (c_entries s Hcore _ Htop) as [g Hg].
  destruct (c_tree s Hcore _ g Hg) as (q & Hch & Hnd & Hvis & Hw).
  rewrite (chain_reconstruct _ _ q) in Hrec; [|done|done|by eapply walk_head].
  injection Hrec as <-. eauto.
Qed.

Lemma search_loop_walk fuel s path :
  outer s -> search_loop fuel self start goal s = Ok (Some path) ->
  ∃ g, walk goal path g.
Proof.
  revert s. induction fuel as [|fuel IH]; intros s Hout; [done|]. simpl.
  destruct (heappop (open_set s)) as [[top rest]|] eqn:Hpop; [|done].
  case_bool_decide as Hgoal.
  - intros (p & Hrec & [= <-])%bind_Ok.
    destruct (pop_goal_walk s top rest p Hout Hpop Hrec) as (g & _ & Hw).
    rewrite Hgoal in Hw. eauto.
  - intros (s2 & Hfor & Hloop)%bind_Ok. apply (IH s2); [|done].
    apply (inner_outer top.2).
    by apply (expand_inner top.2 (closing s top rest)); [apply pop_inner|].
Qed.

(** Every path that [find_path] returns is a walk from start to goal. *)
Lemma find_path_walk path :
  find_path self start goal = Ok (Some path) -> ∃ g, walk goal path g.
Proof.
  unfold find_path. case_bool_decide as Heq.
  - intros [= <-]. exists 0%R. rewrite <- Heq. constructor.
  - apply search_loop_walk, initial_outer.
Qed.

(** *** The search ends within [search_fuel] turns *)

Local Abbreviation cells := (SearchInv.cells self).
Local Abbreviation universe := (SearchInv.universe self start).
Local Abbreviation scoped := (SearchInv.scoped self start).
Local Abbreviation potential := (SearchInv.potential self start).

Lemma in_bounds_cells n : in_bounds self n = true -> n ∈ cells.
Proof.
  unfold in_bounds, SearchInv.cells, shape0, shape1. intros [H1 H2]%andb_true_iff.
  apply bool_decide_eq_true in H1, H2.
  apply elem_of_list_to_set, list_elem_of_fmap.
  exists (Z.to_nat n.1, Z.to_nat n.2). split.
  - destruct n as [a b]; simpl in *. f_equal; lia.
  - apply list_elem_of_In, in_prod; apply in_seq; simpl in *; lia.
Qed.

Lemma size_list_to_set_le (l : list node) : size (list_to_set l : gset node) <= length l.
Proof.
  induction l as [|x l IH].
  { change (size (∅ : gset node) <= 0). by rewrite size_empty. }
  change (size ({[x]} ∪ list_to_set l : gset node) <= S (length l)).
  rewrite size_union_alt, size_singleton.
  pose proof (subseteq_size (list_to_set l ∖ {[x]}) (list_to_set l : gset node)) as H.
  assert (size (list_to_set l ∖ {[x]} : gset node) <= size (list_to_set l : gset node))
    by (apply H; by intros y [Hy _]%elem_of_difference).
  lia.
Qed.

Lemma size_universe :
  size universe <= Z.to_nat (shape0 (grid self) * shape1 (grid self)) + 1.
Proof.
  unfold SearchInv.universe. rewrite size_union_alt, size_singleton.
  assert (size (cells ∖ {[start]}) <= size cells)
    by (apply subseteq_size; by intros y [Hy _]%elem_of_difference).
  assert (size cells <= length (grid self) * length (hd [] (grid self))) as Hc.
  { unfold SearchInv.cells. etrans; [apply size_list_to_set_le|].
    by rewrite length_fmap, length_prod, !length_seq. }
  unfold shape0, shape1. rewrite <- Nat2Z.inj_mul, Nat2Z.id. lia.
Qed.

Lemma relax_never_diverges cur s nb : relax self goal cur s nb ≠ Diverge.
Proof.
  unfold relax. case_bool_decide; [done|].
  assert (elev_cost self cur nb.1 ≠ Diverge) as Hec.
  { unfold elev_cost. destruct (elevation self) as [elev|]; [|done].
    unfold np_get.
    destruct (np_index (shape0 elev) cur.1), (np_index (shape1 elev) cur.2),
      (np_index (shape0 elev) nb.1.1), (np_index (shape1 elev) nb.1.2); done. }
  destruct (elev_cost self cur nb.1) as [ec| |]; simpl; [|done|done].
  destruct (ext_add _ _); [|done]. by destruct (lt_ext _ _).
Qed.

Lemma for_each_never_diverges {A S : Type} (body : S -> A -> outcome S) s l :
  (∀ s x, body s x ≠ Diverge) -> for_each body s l ≠ Diverge.
Proof.
  intros Hb. revert s. induction l as [|x l IH]; intros s; [done|]. simpl.
  specialize (Hb s x). destruct (body s x) as [s'| |]; simpl; [apply IH|done|done].
Qed.

(** One neighbour puts at most one entry on the heap, of a cell of the grid,
    and closes nothing. *)
Lemma relax_pushes cur s nb s' :
  nb ∈ get_neighbors self cur -> relax self goal cur s nb = Ok s' ->
  visited s' = visited s
  ∧ (open_set s' = open_set s
     ∨ ∃ f, open_set s' = (f, nb.1) :: open_set s ∧ nb.1 ∈ cells).
Proof.
  destruct nb as [v base]. intros [(_ & Hin & _) _]%neighbors_spec.
  unfold relax. simpl. case_bool_decide; [intros [= <-]; auto|].
  intros (ec & _ & Hrest)%bind_Ok.
  destruct (ext_add _ _) as [t|]; [|injection Hrest as <-; auto].
  destruct (lt_ext _ _); injection Hrest as <-; [|auto].
  split; [done|]. right. eexists. split; [done|]. by apply in_bounds_cells.
Qed.

Lemma expand_pushes cur l s s' :
  (∀ nb, nb ∈ l -> nb ∈ get_neighbors self cur) ->
  for_each (relax self goal cur) s l = Ok s' ->
  visited s' = visited s
  ∧ length (open_set s') <= length (open_set s) + length l
  ∧ ∀ e, e ∈ open_set s' -> e ∈ open_set s ∨ e.2 ∈ cells.
Proof.
  revert s. induction l as [|nb l IH]; intros s Hl; simpl.
  - intros [= <-]. split; [done|]. split; [lia|auto].
  - intros (s1 & H1 & Hrest)%bind_Ok.
    destruct (relax_pushes cur s nb s1) as [Hv Ho]; [apply Hl; by left|done|].
    destruct (IH s1) as (Hv' & Hlen & Hin); [intros; apply Hl; by right|done|].
    split; [congruence|].
    destruct Ho as [Ho|(f & Ho & Hc)]; rewrite Ho in *.
    + split; [lia|done].
    + split; [simpl in Hlen; lia|].
      intros e He. destruct (Hin e He) as [[->|H]%elem_of_cons|H]; auto.
Qed.

(** A neighbour of a node whose edges are relaxed changes nothing. *)
Lemma relax_again cur s nb s' :
  core s -> cur ∈ visited s -> (∀ v, relaxed s cur v) ->
  nb ∈ get_neighbors self cur -> relax self goal cur s nb = Ok s' -> s' = s.
Proof.
  intros Hcore Hcur Hrel. destruct nb as [v base].
  intros [Hleg ->]%neighbors_spec.
  unfold relax. simpl. case_bool_decide as Hv; [by intros [= <-]|].
  intros (ec & Hec & Hrest)%bind_Ok.
  assert (edge_cost self cur v = Ok (base_cost cur v + ec)%R) as Hedge.
  { by rewrite edge_cost_elev, Hec. }
  destruct (Hrel v Hv Hleg _ Hedge) as (gc & gv & Hgc & Hgv & Hle).
  unfold g_get in Hrest. rewrite Hgc, Hgv in Hrest. simpl in Hrest.
  destruct (Rltb (gc + (base_cost cur v + ec)) gv) eqn:Hlt; [|by injection Hrest as <-].
  apply Rltb_true in Hlt. lra.
Qed.

Lemma expand_again cur l s s' :
  core s -> cur ∈ visited s -> (∀ v, relaxed s cur v) ->
  (∀ nb, nb ∈ l -> nb ∈ get_neighbors self cur) ->
  for_each (relax self goal cur) s l = Ok s' -> s' = s.
Proof.
  intros Hcore Hcur Hrel. induction l as [|nb l IH]; intros Hl; simpl.
  - by intros [= <-].
  - intros (s1 & H1 & Hrest)%bind_Ok.
    apply relax_again in H1; [|done|done|done|apply Hl; by left]. subst s1.
    apply IH; [intros; apply Hl; by right|done].
Qed.

Lemma neighbors_length cur : length (get_neighbors self cur) <= 8.
Proof.
  unfold get_neighbors.
  assert (∀ {A B} (f : A -> option B) l, length (omap f l) <= length l) as Hlen.
  { intros A B f l. induction l as [|x l IH]; csimpl; [lia|].
    destruct (f x); csimpl; lia. }
  etrans; [apply Hlen|]. unfold directions. simpl. lia.
Qed.

(** The heap entry that is taken for the goal has its parent links. *)
Lemma pop_reconstructs s top rest :
  outer s -> heappop (open_set s) = Some (top, rest) ->
  ∃ path, reconstruct (came_from s) start top.2 = Ok path.
Proof.
  intros (Hcore & _ & _) (Htop & _)%heappop_spec.
  destruct (c_entries s Hcore _ Htop) as [g Hg].
  destruct (c_tree s Hcore _ g Hg) as (q & Hch & Hnd & Hvis & Hw).
  exists q. apply chain_reconstruct; [done|done|by eapply walk_head].
Qed.

Lemma search_loop_total fuel s :
  outer s -> scoped s -> potential s < fuel ->
  search_loop fuel self start goal s ≠ Diverge.
Proof.
  revert s. induction fuel as [|fuel IH]; intros s Hout [Hopen Hvis] Hpot; [lia|].
  simpl. destruct (heappop (open_set s)) as [[top rest]|] eqn:Hpop; [|done].
  case_bool_decide as Hgoal.
  { destruct (pop_reconstructs s top rest Hout Hpop) as [path Hpath].
    by rewrite Hpath. }
  pose proof (pop_inner s top rest Hout Hpop) as Hin.
  pose proof Hpop as (Htop & Hrest & _ & _ & Hlen)%heappop_spec.
  destruct (for_each (relax self goal top.2) _ _) as [s2| |] eqn:Hfor; simpl;
    [|done|by destruct (for_each_never_diverges _ _ _ (relax_never_diverges top.2) Hfor)].
  change (for_each (relax self goal top.2) (closing s top rest)
            (get_neighbors self top.2) = Ok s2) in Hfor.
  destruct (expand_inner top.2 (closing s top rest) s2 Hin Hfor) as [Hin2 _].
  destruct (expand_pushes top.2 _ _ _ (fun _ H => H) Hfor) as (Hv2 & Hlen2 & Hopen2).
  assert (top.2 ∈ universe) as Htu by (by apply Hopen).
  assert ({[top.2]} ∪ visited s ⊆ universe) as Hsub.
  { intros x [->%elem_of_singleton|Hx]%elem_of_union; [done|by apply Hvis]. }
  apply IH; [by apply (inner_outer top.2)| |].
  - split.
    + intros e He. destruct (Hopen2 e He) as [H|H].
      * apply Hopen. by apply Hrest.
      * unfold SearchInv.universe. by apply elem_of_union_r.
    + by rewrite Hv2.
  - unfold SearchInv.potential in *. rewrite Hv2. simpl in *.
    destruct (decide (top.2 ∈ visited s)) as [Hold|Hnew].
    + assert (s2 = closing s top rest) as ->.
      { apply (expand_again top.2 (get_neighbors self top.2)); try done.
        - apply Hin.
        - apply Hin.
        - intros v Hv. destruct Hout as (_ & _ & Hrel).
          apply (Hrel top.2 v Hold). intros Hv'. apply Hv. by apply elem_of_union_r. }
      simpl. rewrite (subseteq_union_1_L {[top.2]} (visited s))
        by (by apply singleton_subseteq_l).
      lia.
    + pose proof (neighbors_length top.2).
      assert ({[top.2]} ## visited s) as Hdis by (by apply disjoint_singleton_l).
      rewrite size_difference by done.
      rewrite size_difference in Hpot by done.
      rewrite size_union, size_singleton by done.
      pose proof (subseteq_size _ _ Hsub) as Hsz.
      rewrite size_union, size_singleton in Hsz by done.
      lia.
Qed.

(** [find_path] returns or raises within its fuel. *)
Lemma find_path_total : find_path self start goal ≠ Diverge.
Proof.
  unfold find_path. case_bool_decide; [done|].
  apply search_loop_total; [apply initial_outer| |].
  - split; simpl; [|apply empty_subseteq].
    intros e ->%list_elem_of_singleton. simpl. unfold SearchInv.universe.
    by apply elem_of_union_l, elem_of_singleton.
  - unfold SearchInv.potential, search_fuel. simpl.
    rewrite difference_empty_L. pose proof size_universe. lia.
Qed.

End Search.

(** *** The closed scores are optimal *)

Section Optimal.
Variable self : AStarPlanner.
Variable start goal : node.
Hypothesis penalty_nonneg : (0 <= elevation_penalty self)%R.

Local Abbreviation walk := (SearchInv.walk self start).
Local Abbreviation core := (SearchInv.core self start).
Local Abbreviation relaxed := (SearchInv.relaxed self).
Local Abbreviation outer := (SearchInv.outer self start).
Local Abbreviation inner := (SearchInv.inner self start).
Local Abbreviation bounds := (SearchInv.bounds self start goal).
Local Abbreviation updated := (SearchInv.updated goal).
Local Abbreviation c_start := (SearchInv.c_start self start).
Local Abbreviation c_tree := (SearchInv.c_tree self start).
Local Abbreviation c_closed := (SearchInv.c_closed self start).
Local Abbreviation c_entries := (SearchInv.c_entries self start).
Local Abbreviation b_closed := (SearchInv.b_closed self start goal).
Local Abbreviation b_frontier := (SearchInv.b_frontier self start goal).
Local Abbreviation b_entries := (SearchInv.b_entries self start goal).

Lemma elev_cost_nonneg u v ec : elev_cost self u v = Ok ec -> (0 <= ec)%R.
Proof.
  unfold elev_cost. destruct (elevation self) as [elev|].
  - intros (a & _ & (b & _ & [= <-])%bind_Ok)%bind_Ok.
    apply Rmult_le_pos; [done|apply Rabs_pos].
  - intros [= <-]. lra.
Qed.

Lemma edge_cost_lower u v c : edge_cost self u v = Ok c -> (base_cost u v <= c)%R.
Proof.
  rewrite edge_cost_elev. intros (ec & Hec & [= <-])%bind_Ok.
  apply elev_cost_nonneg in Hec. lra.
Qed.

Lemma edge_cost_nonneg u v c : edge_cost self u v = Ok c -> (0 <= c)%R.
Proof.
  intros H%edge_cost_lower. pose proof (norm2_nonneg (IZR (v.1 - u.1)) (IZR (v.2 - u.2))).
  unfold base_cost in H. lra.
Qed.

(** The heuristic is consistent with the edge costs. *)
Lemma heuristic_consistent u v c :
  edge_cost self u v = Ok c -> (heuristic goal u <= c + heuristic goal v)%R.
Proof.
  intros H%edge_cost_lower. unfold heuristic, base_cost in *.
  pose proof (norm2_triangle u v goal). lra.
Qed.

Lemma walk_cost_nonneg n p c : walk n p c -> (0 <= c)%R.
Proof.
  induction 1 as [|u v p c ce c' _ IH _ Hce ->]; [lra|].
  apply edge_cost_nonneg in Hce. lra.
Qed.

(** On every walk, either the end is closed with an optimal score, or some
    open node of the walk already bounds the walk from below. *)
Lemma walk_frontier s n p c :
  outer s -> bounds s -> walk n p c ->
  (n ∈ visited s ∧ ∃ gn, g_score s !! n = Some gn ∧ (gn <= c)%R)
  ∨ (∃ v gv, (v ∉ visited s) ∧ g_score s !! v = Some gv
             ∧ (gv + heuristic goal v <= c + heuristic goal n)%R).
Proof.
  intros (Hcore & Hbegun & Hrel) Hb.
  induction 1 as [|u v p c ce c' Hw IH Hleg Hce ->].
  - destruct (decide (start ∈ visited s)) as [Hs|Hs].
    + left. split; [done|]. exists 0%R. split; [apply Hcore|lra].
    + right. exists start, 0%R. split; [done|]. split; [apply Hcore|lra].
  - destruct IH as [(Hu & gu & Hgu & Hle)|(w & gw & Hw' & Hgw & Hle)].
    + destruct (decide (v ∈ visited s)) as [Hv|Hv].
      * left. split; [done|].
        destruct (c_closed s Hcore v Hv) as (gv & Hgv).
        exists gv. split; [done|].
        apply (b_closed s Hb v gv Hv Hgv (p ++ [v])). by eapply walk_step.
      * right. destruct (Hrel u v Hu Hv Hleg ce Hce) as (gu' & gv & Hgu' & Hgv & Hle').
        rewrite Hgu in Hgu'. injection Hgu' as <-.
        exists v, gv. split; [done|]. split; [done|lra].
    + right. exists w, gw. split; [done|]. split; [done|].
      pose proof (heuristic_consistent u v ce Hce). lra.
Qed.

(** The score of the entry that [heappop] returns is optimal. *)
Lemma pop_optimal s top rest gc :
  outer s -> bounds s -> heappop (open_set s) = Some (top, rest) ->
  g_score s !! top.2 = Some gc -> ∀ p c, walk top.2 p c -> (gc <= c)%R.
Proof.
  intros Hout Hb (Htop & _ & _ & Hmin & _)%heappop_spec Hgc p c Hw.
  pose proof Hout as (Hcore & _ & _). destruct top as [f cur]. simpl in *.
  destruct (walk_frontier s cur p c Hout Hb Hw)
    as [(_ & gn & Hgn & Hle)|(v & gv & Hv & Hgv & Hle)].
  - rewrite Hgc in Hgn. by injection Hgn as <-.
  - destruct (b_entries s Hb f cur gc Htop Hgc) as [->|Hf].
    + rewrite (c_start s Hcore) in Hgc. injection Hgc as <-.
      by apply walk_cost_nonneg in Hw.
    + destruct (b_frontier s Hb v gv Hgv Hv) as (f' & Hf' & Hle').
      specialize (Hmin _ Hf'). simpl in Hmin. lra.
Qed.

Lemma pop_bounds s top rest :
  outer s -> bounds s -> heappop (open_set s) = Some (top, rest) ->
  bounds (closing s top rest).
Proof.
  intros Hout Hb Hpop. pose proof Hpop as (Htop & Hrest & Hcases & _)%heappop_spec.
  split; simpl.
  - intros u gu [->%elem_of_singleton|Hu]%elem_of_union Hgu.
    + by apply (pop_optimal s top rest).
    + by apply (b_closed s Hb).
  - intros v g Hv Hnv. apply not_elem_of_union in Hnv as [Hvc%not_elem_of_singleton Hnv].
    destruct (b_frontier s Hb v g Hv Hnv) as (f' & Hf' & Hle).
    exists f'. split; [|done].
    destruct (Hcases _ Hf') as [<-|Hin]; done.
  - intros f n g Hn. apply (b_entries s Hb). by apply Hrest.
Qed.

(** The path that the search returns is a walk to the goal of least cost. *)
Lemma search_loop_optimal fuel s path :
  outer s -> bounds s -> search_loop fuel self start goal s = Ok (Some path) ->
  ∃ g, walk goal path g ∧ ∀ p c, walk goal p c -> (g <= c)%R.
Proof.
  revert s. induction fuel as [|fuel IH]; intros s Hout Hb; [done|]. simpl.
  destruct (heappop (open_set s)) as [[top rest]|] eqn:Hpop; [|done].
  case_bool_decide as Hgoal.
  - intros (p & Hrec & [= <-])%bind_Ok.
    destruct (pop_goal_walk self start s top rest p Hout Hpop Hrec) as (g & Hg & Hw).
    exists g. rewrite <- Hgoal. split; [done|]. by apply (pop_optimal s top rest).
  - intros (s2 & Hfor & Hloop)%bind_Ok.
    destruct (expand_inner self start goal top.2 (closing s top rest) s2) as [Hin Hb2];
      [by apply pop_inner|done|].
    apply (IH s2); [by apply (inner_outer self start top.2)| |done].
    by apply Hb2, pop_bounds.
Qed.

Lemma find_path_optimal path :
  find_path self start goal = Ok (Some path) ->
  ∃ g, walk goal path g ∧ ∀ p c, walk goal p c -> (g <= c)%R.
Proof.
  unfold find_path. case_bool_decide as Heq.
  - intros [= <-]. exists 0%R. split.
    + rewrite <- Heq. constructor.
    + intros p c Hw. by apply walk_cost_nonneg in Hw.
  - apply search_loop_optimal; [apply initial_outer|apply initial_bounds].
Qed.

End Optimal.

End AStarFacts.

(** ** binary64 numbers *)

Module F64Facts.

Lemma is_nan_eq x : Prim2SF x = S754_nan -> x = PrimFloat.nan.
Proof. intros H. apply Prim2SF_inj. by rewrite H. Qed.

Lemma sub_nan_l y : PrimFloat.sub PrimFloat.nan y = PrimFloat.nan.
Proof. apply is_nan_eq. by rewrite sub_spec. Qed.

Lemma mul_nan_r x : PrimFloat.mul x PrimFloat.nan = PrimFloat.nan.
Proof.
  apply is_nan_eq. rewrite mul_spec. change (Prim2SF PrimFloat.nan) with S754_nan.
  by destruct (Prim2SF x).
Qed.

Lemma mul_nan_l y : PrimFloat.mul PrimFloat.nan y = PrimFloat.nan.
Proof. apply is_nan_eq. by rewrite mul_spec. Qed.

Lemma add_nan_r x : PrimFloat.add x PrimFloat.nan = PrimFloat.nan.
Proof.
  apply is_nan_eq. rewrite add_spec. change (Prim2SF PrimFloat.nan) with S754_nan.
  by destruct (Prim2SF x).
Qed.

Lemma ltb_nan_l y : PrimFloat.ltb PrimFloat.nan y = false.
Proof. by rewrite ltb_spec. Qed.

(** [<] on floats is a strict order; with a nan it is false. *)
Lemma ltb_irrefl x : PrimFloat.ltb x x = false.
Proof.
  rewrite ltb_spec. unfold SFltb, SFcompare.
  destruct (Prim2SF x) as [s|s| |s m e]; try done; destruct s; try done;
    rewrite Z.compare_refl; change (Pos.compare_cont Eq m m) with (Pos.compare m m);
    by rewrite Pos.compare_refl.
Qed.

Lemma ltb_trans x y z :
  PrimFloat.ltb x y = true -> PrimFloat.ltb y z = true -> PrimFloat.ltb x z = true.
Proof.
  rewrite !ltb_spec. unfold SFltb, SFcompare.
  destruct (Prim2SF x) as [sx|sx| |sx mx ex], (Prim2SF y) as [sy|sy| |sy my ey],
    (Prim2SF z) as [sz|sz| |sz mz ez];
    try done; try (by destruct sx, sy, sz); try (by destruct sx, sy);
    try (by destruct sy, sz); try (by destruct sx, sz).
  all: destruct sx, sy, sz; try done.
  all: change (Pos.compare_cont Eq ?a ?b) with (Pos.compare a b).
  all: destruct (Z.compare_spec ex ey), (Z.compare_spec ey ez), (Z.compare_spec ex ez);
    try done; try lia; subst.
  all: destruct (Pos.compare_spec mx my), (Pos.compare_spec my mz), (Pos.compare_spec mx mz);
    simpl; try done; try lia.
Qed.

(** A finite float is a zero or has a mantissa and an exponent. *)
Lemma finite_cases x :
  PrimFloat.is_finite x = true ->
  (∃ s, Prim2SF x = S754_zero s) ∨ (∃ s m e, Prim2SF x = S754_finite s m e).
Proof.
  unfold PrimFloat.is_finite, PrimFloat.is_nan, PrimFloat.is_infinity.
  rewrite !FloatAxioms.eqb_spec, abs_spec.
  destruct (Prim2SF x) as [s|s| |s m e]; [eauto|by destruct s|done|eauto 6].
Qed.

(** [x - x] is [+0] for a finite [x]. *)
Lemma sub_self x : PrimFloat.is_finite x = true -> PrimFloat.sub x x = PrimFloat.zero.
Proof.
  intros [[s H]|(s & m & e & H)]%finite_cases; apply Prim2SF_inj;
    rewrite sub_spec, H.
  - by destruct s.
  - unfold SF64sub, SFsub. cbv zeta. by rewrite Z.sub_diag.
Qed.

(** A negative step size is not reached by a zero distance. *)
Lemma leb_zero_negative x :
  PrimFloat.ltb x PrimFloat.zero = true -> PrimFloat.leb PrimFloat.zero x = false.
Proof.
  rewrite ltb_spec, leb_spec. change (Prim2SF PrimFloat.zero) with (S754_zero false).
  by destruct (Prim2SF x) as [s|[|]| |[|] m e].
Qed.

(** The real number of a positive finite float is positive. *)
Lemma to_R_pos x m e : Prim2SF x = S754_finite false m e -> (0 < F64.to_R x)%R.
Proof.
  intros H. unfold F64.to_R. rewrite H.
  assert (0 < powerRZ 2 e)%R by (apply powerRZ_lt; lra).
  assert (0 < IZR (Z.pos m))%R by (apply IZR_lt; lia).
  rewrite Rmult_1_l. by apply Rmult_lt_0_compat.
Qed.

End F64Facts.

(** ** A* on binary64 *)

Module AStar64Facts.
Import AStar64.

Lemma pop_min64_perm e l m rest :
  pop_min e l = (m, rest) -> m :: rest ≡ₚ e :: l.
Proof.
  revert e m rest. induction l as [|x l IH]; intros e m rest; simpl.
  - by intros [= <- <-].
  - destruct (pop_min x l) as [m' rest'] eqn:Hp. specialize (IH _ _ _ Hp).
    destruct (entry_ltb m' e); intros [= <- <-]; [|done].
    rewrite (Permutation_swap e m' rest'). by rewrite IH.
Qed.

Lemma heappop64_spec h top rest :
  heappop h = Some (top, rest) -> top ∈ h ∧ ∀ x, x ∈ rest -> x ∈ h.
Proof.
  destruct h as [|e l]; [done|]. simpl. intros [= H]. apply pop_min64_perm in H.
  split; [rewrite <- H; by left|]. intros x Hx. rewrite <- H. by right.
Qed.

Section NanGoal.
Variable self : AStarPlanner.
Variable elev : ndarray float.
Variable start goal : node.
Hypothesis Helev : elevation self = Some elev.
Hypothesis Hnan : np_get elev goal.1 goal.2 = Ok PrimFloat.nan.

(** No entry of the heap names the goal. *)
Local Abbreviation unlisted := (fun s : search => ∀ x, x ∈ open_set s -> x.2 ≠ goal).

Lemma elev_cost_nan cur ec : elev_cost self cur goal = Ok ec -> ec = PrimFloat.nan.
Proof.
  unfold elev_cost. rewrite Helev, Hnan.
  destruct (np_get elev cur.1 cur.2) as [e0| |]; simpl; [|done..].
  intros [= <-]. rewrite F64Facts.sub_nan_l.
  change (PrimFloat.abs PrimFloat.nan) with PrimFloat.nan.
  apply F64Facts.mul_nan_r.
Qed.

Lemma relax_unlisted cur s nb s' :
  relax self goal cur s nb = Ok s' -> unlisted s -> unlisted s'.
Proof.
  unfold relax. case_bool_decide; [by intros [= <-]|].
  destruct (elev_cost self cur nb.1) as [ec| |] eqn:Hec; simpl; [|done..].
  destruct (PrimFloat.ltb _ _) eqn:Hlt; [|by intros [= <-]].
  intros [= <-] Hs x. simpl. unfold heappush.
  intros [->|Hx]%elem_of_cons; [|by apply Hs].
  simpl. intros Hg. rewrite Hg in Hec. apply elev_cost_nan in Hec.
  rewrite Hec, !F64Facts.add_nan_r, F64Facts.ltb_nan_l in Hlt. done.
Qed.

Lemma expand_unlisted cur l s s' :
  for_each (relax self goal cur) s l = Ok s' -> unlisted s -> unlisted s'.
Proof.
  revert s. induction l as [|nb l IH]; intros s; simpl; [by intros [= <-]|].
  destruct (relax self goal cur s nb) as [s1| |] eqn:H1; simpl; [|done..].
  intros H Hs. apply (IH s1 H). by apply (relax_unlisted cur s nb).
Qed.

Lemma search_loop_unlisted fuel s :
  unlisted s -> Observe.no_path (search_loop fuel self start goal s).
Proof.
  revert s. induction fuel as [|fuel IH]; intros s Hs; [done|]. simpl.
  destruct (heappop (open_set s)) as [[top rest]|] eqn:Hpop; [|done].
  apply heappop64_spec in Hpop as [Htop Hrest].
  rewrite bool_decide_eq_false_2 by by apply Hs.
  destruct (for_each _ _ _) as [s2| |] eqn:Hfor; simpl; [|done..].
  apply IH. apply (expand_unlisted _ _ _ _ Hfor). simpl. intros x Hx. by apply Hs, Hrest.
Qed.

Lemma find_path_nan_goal : start ≠ goal -> Observe.no_path (find_path self start goal).
Proof.
  intros Hne. unfold find_path. rewrite bool_decide_eq_false_2 by done.
  apply search_loop_unlisted. simpl. by intros x ->%list_elem_of_singleton.
Qed.

End NanGoal.

End AStar64Facts.

(** ** Steering on binary64 *)

Module RRT64Facts.
Import RRT64.

Lemma norm2_zero : F64.norm2 PrimFloat.zero PrimFloat.zero = PrimFloat.zero.
Proof. reflexivity. Qed.

(** With a step size that the zero distance reaches, nothing is divided. *)
Lemma steer64_same self (p : point) :
  PrimFloat.is_finite p.1 = true -> PrimFloat.is_finite p.2 = true ->
  PrimFloat.leb PrimFloat.zero (step_size self) = true ->
  steer self p p = p.
Proof.
  intros H1 H2 Hs. unfold steer. cbn [fst snd].
  rewrite !F64Facts.sub_self by done. by rewrite norm2_zero, Hs.
Qed.

(** With a negative step size the zero distance divides. *)
Lemma steer64_negative_step self (p : point) :
  PrimFloat.is_finite p.1 = true -> PrimFloat.is_finite p.2 = true ->
  PrimFloat.ltb (step_size self) PrimFloat.zero = true ->
  steer self p p = (PrimFloat.nan, PrimFloat.nan).
Proof.
  intros H1 H2 Hs. unfold steer. cbn [fst snd].
  rewrite !F64Facts.sub_self by done.
  rewrite norm2_zero, (F64Facts.leb_zero_negative _ Hs).
  change (PrimFloat.div PrimFloat.zero PrimFloat.zero) with PrimFloat.nan.
  by rewrite F64Facts.mul_nan_l, !F64Facts.add_nan_r.
Qed.

End RRT64Facts.

(** ** Paths as lists *)

Module PathFacts.
Import AStar GridPath.

Lemma legal_moves_lookup self p i a b :
  legal_moves self p -> p !! i = Some a -> p !! S i = Some b -> legal self a b.
Proof.
  revert i. induction p as [|x p IH]; intros i Hm Ha Hb; [done|].
  destruct p as [|y p]; [done|]. destruct Hm as [Hxy Hm].
  destruct i as [|i].
  - simpl in Ha, Hb. by injection Ha as <-; injection Hb as <-.
  - by apply (IH i).
Qed.

Lemma legal_distinct self a b : legal self a b -> a ≠ b.
Proof.
  intros (Hd & _ & _) <-.
  replace (a.1 - a.1, a.2 - a.2)%Z with (0, 0)%Z in Hd by (f_equal; lia).
  apply list_elem_of_In in Hd. simpl in Hd. intuition discriminate.
Qed.

(** A path from a node to itself that does not move. *)
Lemma find_path_same self start : find_path self start start = Ok (Some [start]).
Proof. unfold find_path. by rewrite bool_decide_eq_true_2. Qed.

End PathFacts.

(** ** Numbers *)

Lemma Int_part_IZR z : Int_part (IZR z) = z.
Proof. symmetry. apply Int_part_spec. lra. Qed.

Lemma floor_IZR z : floor (IZR z) = z.
Proof. apply Int_part_IZR. Qed.

Lemma trunc_0 : trunc 0 = 0%Z.
Proof.
  unfold trunc. destruct (Rle_dec 0 0) as [_|H]; [|lra].
  apply (Int_part_IZR 0).
Qed.

Lemma norm2_0 : norm2 0 0 = 0%R.
Proof. unfold norm2. rewrite Rmult_0_l, Rplus_0_l. apply sqrt_0. Qed.

Lemma norm2_diag (p : point) : norm2 (p.1 - p.1) (p.2 - p.2) = 0%R.
Proof. rewrite !Rminus_diag. apply norm2_0. Qed.

Lemma Rltb_false x y : Rltb x y = false <-> (y <= x)%R.
Proof. unfold Rltb. destruct (Rlt_dec x y); split; intros; try done; lra. Qed.

Lemma Rleb_false x y : Rleb x y = false <-> (y < x)%R.
Proof. unfold Rleb. destruct (Rle_dec x y); split; intros; try done; lra. Qed.

Lemma pymod_range x m : (0 < m)%R -> (0 <= pymod x m < m)%R.
Proof.
  intros Hm. unfold pymod.
  destruct (base_Int_part (x / m)) as [H1 H2].
  assert (x = x / m * m)%R as Hx by (field; lra).
  split.
  - apply (Rmult_le_compat_r m) in H1; lra.
  - assert ((x / m - IZR (Int_part (x / m))) * m < 1 * m)%R as Hlt.
    { apply Rmult_lt_compat_r; lra. }
    lra.
Qed.

(** ** The sampling planners *)

Module PlannerFacts.

Lemma is_collision_free_spec (self : RRT.RRT) (p : point) :
  RRT.is_collision_free self p = true
  <-> (0 <= p.1 < IZR (shape0 (RRT.map self)))%R
      ∧ (0 <= p.2 < IZR (shape1 (RRT.map self)))%R
      ∧ np_item (RRT.map self) (trunc p.1) (trunc p.2) = 0%Z.
Proof.
  unfold RRT.is_collision_free.
  destruct (Rltb p.1 0) eqn:H1; simpl.
  { apply Rltb_true in H1. split; [done|]. intros [? _]. lra. }
  destruct (Rleb (IZR (shape0 (RRT.map self))) p.1) eqn:H2; simpl.
  { apply Rleb_true in H2. split; [done|]. intros [? _]. lra. }
  destruct (Rltb p.2 0) eqn:H3; simpl.
  { apply Rltb_true in H3. split; [done|]. intros (_ & ? & _). lra. }
  destruct (Rleb (IZR (shape1 (RRT.map self))) p.2) eqn:H4; simpl.
  { apply Rleb_true in H4. split; [done|]. intros (_ & ? & _). lra. }
  apply Rltb_false in H1, H3. apply Rleb_false in H2, H4.
  rewrite bool_decide_eq_true. split; [|tauto].
  intros H. split; [lra|]. split; [lra|done].
Qed.

Lemma is_valid_point_spec (self : RRTStar.RRTStar) (pt : point) (parent : option point) :
  RRTStar.is_valid_point self pt parent = true
  <-> (0 <= (RRTStar.world2map self pt.1 pt.2).1 < shape1 (RRTStar.map self))%Z
      ∧ (0 <= (RRTStar.world2map self pt.1 pt.2).2 < shape0 (RRTStar.map self))%Z
      ∧ np_item (RRTStar.map self) (RRTStar.world2map self pt.1 pt.2).2
                (RRTStar.world2map self pt.1 pt.2).1 ≠ 0%Z.
Proof.
  unfold RRTStar.is_valid_point.
  destruct (RRTStar.world2map self pt.1 pt.2) as [px py]. simpl.
  repeat case_bool_decide; simpl; split; try done; try tauto.
Qed.

Lemma world2map_unit cell x y : RRTStar.world2map (Scenario.unit_star cell) x y = (0, 0)%Z.
Proof.
  unfold RRTStar.world2map. simpl. rewrite !Rmult_0_r, trunc_0. reflexivity.
Qed.

Lemma unit_star_zero_rejected parent :
  RRTStar.is_valid_point (Scenario.unit_star 0) (0, 0)%R parent = false.
Proof.
  apply not_true_is_false. intros H%is_valid_point_spec.
  rewrite !world2map_unit in H. destruct H as (_ & _ & H). by apply H.
Qed.

Lemma unit_star_one_accepted parent :
  RRTStar.is_valid_point (Scenario.unit_star 1) (0, 0)%R parent = true.
Proof.
  apply is_valid_point_spec. rewrite !world2map_unit.
  unfold shape0, shape1, np_item. simpl. split; [lia|]. split; [lia|done].
Qed.

Lemma steer_same (self : RRT.RRT) (p : point) :
  (0 <= RRT.step_size self)%R -> RRT.steer self p p = Some p.
Proof.
  intros H. unfold RRT.steer. simpl. rewrite norm2_diag.
  by rewrite (proj2 (Rleb_true _ _) H).
Qed.

Lemma generate_same (self : RRTStar.RRTStar) (p : point) :
  RRTStar.generate_new_point self p p = Ok p.
Proof.
  unfold RRTStar.generate_new_point. simpl. rewrite norm2_diag.
  by rewrite bool_decide_eq_true_2.
Qed.

End PlannerFacts.

(** ** The cost matrix *)

Module TspFacts.
Import Tsp MatrixInv.

Lemma single_waypoint geodesic p metric :
  compute_cost_matrix geodesic [p] metric = Ok [[0%R]].
Proof. reflexivity. Qed.

Lemma no_waypoint geodesic metric : compute_cost_matrix geodesic [] metric = Ok [].
Proof. reflexivity. Qed.

(** With two or more waypoints the metric is looked at. *)
Lemma unsupported_raises geodesic a b rest metric :
  metric ≠ "euclidean" -> metric ≠ "geodesic" ->
  compute_cost_matrix geodesic (a :: b :: rest) metric = Raise ValueError.
Proof.
  intros H1 H2.
  assert (∀ m, cost_entry geodesic (a :: b :: rest) metric 1 m 0 = Raise ValueError) as Hraise.
  { intros m. unfold cost_entry. simpl. by rewrite !bool_decide_eq_false_2. }
  unfold compute_cost_matrix. simpl. by rewrite Hraise.
Qed.

(** *** Square matrices *)

Lemma square_zeros n : square n (replicate n (replicate n 0%R)).
Proof.
  split; [apply length_replicate|]. apply Forall_replicate, length_replicate.
Qed.

Lemma cell_zeros n i j : i < n -> j < n -> cell (replicate n (replicate n 0%R)) i j = Some 0%R.
Proof.
  intros Hi Hj. unfold cell. rewrite lookup_replicate_2 by done. simpl.
  by apply lookup_replicate_2.
Qed.

Lemma square_set_item n m i j v : square n m -> square n (set_item m i j v).
Proof.
  intros [Hlen Hrows]. split; unfold set_item.
  - by rewrite length_alter.
  - apply Forall_alter; [done|]. intros row _ Hrow. by rewrite length_insert.
Qed.

Lemma cell_set_item n m i j v a b :
  square n m -> i < n -> j < n ->
  cell (set_item m i j v) a b = if decide (a = i ∧ b = j) then Some v else cell m a b.
Proof.
  intros [Hlen Hrows] Hi Hj. unfold cell, set_item.
  destruct (decide (a = i)) as [->|Hne].
  - rewrite list_lookup_alter_eq.
    destruct (lookup_lt_is_Some_2 m i) as [row Hrow]; [lia|].
    rewrite Hrow. simpl.
    pose proof (Forall_lookup_1 _ _ _ _ Hrows Hrow) as Hl. simpl in Hl.
    destruct (decide (b = j)) as [->|Hnb].
    + rewrite decide_True by done. apply list_lookup_insert_eq. lia.
    + rewrite decide_False by (intros [_ ?]; done).
      by rewrite list_lookup_insert_ne.
  - rewrite list_lookup_alter_ne by done.
    by rewrite decide_False by (intros [? _]; done).
Qed.

(** *** The cost matrix under a supported metric *)

Section CostMatrix.
Variable geodesic : point -> point -> outcome R.
Variable waypoints : list point.
Variable metric : string.
Variable dist : point -> point -> R.
Hypothesis supported : metric = "euclidean" ∨ metric = "geodesic".
Hypothesis measured : ∀ wi wj, wi ∈ waypoints -> wj ∈ waypoints ->
  distance geodesic metric wi wj = Ok (dist wi wj).

Local Abbreviation n := (length waypoints).

Local Abbreviation filled := (MatrixInv.filled dist waypoints).

Lemma cost_entry_filled (done : nat -> nat -> Prop) m i j :
  j < i -> i < n -> (∀ a b, done a b -> b < a) -> filled done m ->
  ∃ m', cost_entry geodesic waypoints metric i m j = Ok m' ∧
        filled (fun a b => done a b ∨ (a = i ∧ b = j)) m'.
Proof.
  intros Hji Hi Hlow [Hsq Hdiag Hsym Hdone].
  destruct (lookup_lt_is_Some_2 waypoints i) as [wi Hwi]; [done|].
  destruct (lookup_lt_is_Some_2 waypoints j) as [wj Hwj]; [lia|].
  unfold cost_entry. rewrite Hwi, Hwj. simpl.
  assert ((if bool_decide (metric = "euclidean") then Ok (euclidean wi wj)
           else if bool_decide (metric = "geodesic") then geodesic wi wj
           else Raise ValueError) = Ok (dist wi wj)) as ->.
  { rewrite <- (measured wi wj) by by eapply list_elem_of_lookup_2.
    unfold distance. destruct supported as [->| ->]; reflexivity. }
  simpl. eexists. split; [reflexivity|].
  pose proof (square_set_item n m i j (dist wi wj) Hsq) as Hsq1.
  assert (∀ a b, cell (set_item (set_item m i j (dist wi wj)) j i
                                 (dist wi wj)) a b
                 = if decide ((a = i ∧ b = j) ∨ (a = j ∧ b = i))
                   then Some (dist wi wj) else cell m a b) as Hcell.
  { intros a b. rewrite (cell_set_item n) by (done || lia).
    rewrite (cell_set_item n) by (done || lia).
    repeat case_decide; try done; exfalso; tauto. }
  split.
  - by apply square_set_item.
  - intros a Ha. rewrite Hcell. rewrite decide_False by lia. by apply Hdiag.
  - intros a b Ha Hb. rewrite !Hcell.
    repeat case_decide; try done; try (exfalso; tauto). by apply Hsym.
  - intros a b wa wb Hd Hwa Hwb. rewrite Hcell. case_decide as Hab.
    + destruct Hab as [[-> ->]|[-> ->]].
      * congruence.
      * destruct Hd as [Hd|[? ?]]; [specialize (Hlow _ _ Hd)|]; lia.
    + destruct Hd as [Hd|[-> ->]]; [by apply (Hdone a b)|]. exfalso; tauto.
Qed.

(** The inner loop over [range(i)]. *)
Lemma row_filled (done : nat -> nat -> Prop) m i :
  i < n -> (∀ a b, done a b -> b < a) -> filled done m ->
  ∃ m', for_each (cost_entry geodesic waypoints metric i) m (seq 0 i) = Ok m' ∧
        filled (fun a b => done a b ∨ (a = i ∧ b < i)) m'.
Proof.
  intros Hi Hlow Hm.
  destruct (for_each_prefix_total (cost_entry geodesic waypoints metric i)
              (fun pre m => filled (fun a b => done a b ∨ (a = i ∧ b < i ∧ b ∈ pre)) m)
              (seq 0 i)) with (s := m) as (m' & Hrun & Hm').
  - intros pre j m0 Hj%elem_of_seq Hm0.
    destruct (cost_entry_filled (fun a b => done a b ∨ (a = i ∧ b < i ∧ b ∈ pre)) m0 i j)
      as (m1 & Hrun & Hm1); [lia|done| |done|].
    { intros a b [Hd|(-> & Hb & _)]; [by apply Hlow|done]. }
    exists m1. split; [done|].
    destruct Hm1 as [Hsq Hdiag Hsym Hdone]. split; try done.
    intros a b wa wb Hab. apply Hdone.
    destruct Hab as [Hd|(-> & Hlt & Hb)]; [by left; left|].
    apply elem_of_app in Hb as [Hb|Hb%list_elem_of_singleton]; [left; right|right]; done.
  - destruct Hm as [Hsq Hdiag Hsym Hdone]. split; try done.
    intros a b wa wb [Hd|(_ & _ & Hb)]; [by apply Hdone|]. by apply elem_of_nil in Hb.
  - exists m'. split; [done|].
    destruct Hm' as [Hsq Hdiag Hsym Hdone]. split; try done.
    intros a b wa wb Hab. apply Hdone.
    destruct Hab as [Hd|[-> Hb]]; [by left|]. right. repeat split; [done|].
    apply elem_of_seq. lia.
Qed.

(** The whole of [compute_cost_matrix]. *)
Lemma compute_cost_matrix_filled :
  ∃ m, compute_cost_matrix geodesic waypoints metric = Ok m ∧
       filled (fun a b => b < a ∧ a < n) m.
Proof.
  unfold compute_cost_matrix.
  destruct (for_each_prefix_total
              (fun m i => for_each (cost_entry geodesic waypoints metric i) m (seq 0 i))
              (fun pre m => filled (fun a b => b < a ∧ a ∈ pre) m)
              (seq 0 n)) with (s := replicate n (replicate n 0%R)) as (m' & Hrun & Hm').
  - intros pre i m0 Hi%elem_of_seq Hm0.
    destruct (row_filled (fun a b => b < a ∧ a ∈ pre) m0 i) as (m1 & Hrun & Hm1);
      [lia|by intros a b [? _]|done|].
    exists m1. split; [done|].
    destruct Hm1 as [Hsq Hdiag Hsym Hdone]. split; try done.
    intros a b wa wb [Hlt Ha]. apply Hdone.
    apply elem_of_app in Ha as [Ha|Ha%list_elem_of_singleton]; [by left|right; split; [done|lia]].
  - split.
    + apply square_zeros.
    + intros i Hi. by apply cell_zeros.
    + intros i j Hi Hj. by rewrite !cell_zeros.
    + intros a b wa wb [_ Ha]. by apply elem_of_nil in Ha.
  - exists m'. split; [done|].
    destruct Hm' as [Hsq Hdiag Hsym Hdone]. split; try done.
    intros a b wa wb [Hlt Ha]. apply Hdone. split; [done|]. apply elem_of_seq. lia.
Qed.

End CostMatrix.

(** *** The graph and the tour *)

Lemma build_graph_empty : build_graph_from_matrix [] = Ok [].
Proof. reflexivity. Qed.

(** One waypoint gives a graph without edges, hence without nodes. *)
Lemma build_graph_single v : build_graph_from_matrix [[v]] = Ok [].
Proof. reflexivity. Qed.

Lemma cell_empty i j : cell [] i j = None.
Proof. reflexivity. Qed.

(** The tour that comes back is the one the library gave, on the graph
    built from the matrix. *)
Lemma solve_passes_tour christofides cost_matrix tour c :
  solve_tsp_christofides christofides cost_matrix = Ok (tour, c) ->
  ∃ G, build_graph_from_matrix cost_matrix = Ok G ∧ christofides G = Ok tour.
Proof.
  unfold solve_tsp_christofides.
  intros (G & HG & (t & Ht & (tc & _ & (fi & _ & (fr & _ & (cl & _ & [= <- _])%bind_Ok)%bind_Ok)
    %bind_Ok)%bind_Ok)%bind_Ok)%bind_Ok.
  by exists G.
Qed.

(** A tour that comes back has a last and a first index, both rows and
    columns of the matrix. *)
Lemma solve_tour_closes christofides cost_matrix tour c :
  solve_tsp_christofides christofides cost_matrix = Ok (tour, c) ->
  ∃ final first w, last tour = Some final ∧ head tour = Some first
                   ∧ cell cost_matrix final first = Some w.
Proof.
  unfold solve_tsp_christofides.
  intros (G & HG & (t & Ht & (tc & _ & (fi & Hfi & (fr & Hfr & (cl & Hcl & [= <- _])%bind_Ok)%bind_Ok)
    %bind_Ok)%bind_Ok)%bind_Ok)%bind_Ok.
  exists fi, fr, cl.
  destruct (last t); [|done]. destruct (head t); [|done].
  destruct (cell cost_matrix fi fr); [|done].
  simpl in *. by simplify_eq.
Qed.

End TspFacts.

(** ** The synthesizer *)

Module SimFacts.
Import Sim Observe.

Lemma for_each_app {A S : Type} (body : S -> A -> outcome S) (s : S) (l1 l2 : list A) :
  for_each body s (l1 ++ l2) = (s' ← for_each body s l1; for_each body s' l2).
Proof.
  revert s. induction l1 as [|x l1 IH]; intros s; [done|]. simpl.
  destruct (body s x) as [s1| |]; simpl; [apply IH|done|done].
Qed.

Lemma for_each_inv {A S : Type} (body : S -> A -> outcome S) (P : S -> Prop) l :
  (∀ x s s', P s -> body s x = Ok s' -> P s') ->
  ∀ s s', P s -> for_each body s l = Ok s' -> P s'.
Proof.
  intros Hstep s s'.
  apply (for_each_prefix_inv body (fun _ => P) l). intros pre x s0 s0' _. apply Hstep.
Qed.

Lemma for_each_rel {A S : Type} (rel : S -> S -> Prop) (f g : S -> A -> outcome S) l :
  (∀ a b x, rel a b -> outcome_rel rel (f a x) (g b x)) ->
  ∀ a b, rel a b -> outcome_rel rel (for_each f a l) (for_each g b l).
Proof.
  intros Hstep. induction l as [|x l IH]; intros a b Hab; [done|]. simpl.
  specialize (Hstep a b x Hab).
  destruct (f a x) as [a'| |], (g b x) as [b'| |]; simpl in *; try done.
  by apply IH.
Qed.

(** *** Skipping *)

Lemma segment_absent fuel w self acc pair r :
  Wrapper.find_segment_path (run_plan w) (planner self) pair.1 pair.2 = Ok r ->
  absent r = true -> segment fuel w self acc pair = Ok acc.
Proof. intros Hr Ha. unfold segment. rewrite Hr. simpl. by rewrite Ha. Qed.

(** *** Headings *)

(** The heading of a state that [step_towards] returns is the forward azimuth
    of [geod.inv], as it comes. *)
Lemma step_towards_heading self state target speed :
  heading (step_towards self state target speed)
  = (inv (geod self) (lon state) (lat state) target.2 target.1).1.1.
Proof. reflexivity. Qed.

(** [compute_heading] brings an azimuth into [[0, 360)]. *)
Lemma compute_heading_in_range self lat1 lon1 lat2 lon2 :
  heading_in_range (compute_heading self lat1 lon1 lat2 lon2).
Proof. apply pymod_range. lra. Qed.

(** *** The clock *)

Section Clocks.
Variable geo : point -> point -> R.
Variable plan : Wrapper.planner_class -> node -> node -> outcome (option (list node)).
Variable clock1 clock2 : nat -> Z.
Variable self : SimulationController.

Local Abbreviation w1 := {| geodesic_m := geo; utcnow := clock1; run_plan := plan |}.
Local Abbreviation w2 := {| geodesic_m := geo; utcnow := clock2; run_plan := plan |}.

Lemma walk_to_clock fuel target a b :
  same_untimed a b ->
  outcome_rel same_untimed (walk_to fuel w1 self target a) (walk_to fuel w2 self target b).
Proof.
  revert a b. induction fuel as [|fuel IH]; intros a b [Hst Hpts]; [done|]. simpl.
  rewrite <- Hst. change (has_arrived w2 a.1 target) with (has_arrived w1 a.1 target).
  destruct (has_arrived w1 a.1 target); [done|].
  apply IH. split; [done|]. simpl. rewrite !fmap_app. by rewrite Hpts.
Qed.

Lemma segment_clock fuel pair a b :
  same_untimed a b ->
  outcome_rel same_untimed (segment fuel w1 self a pair) (segment fuel w2 self b pair).
Proof.
  intros Hab. unfold segment.
  change (run_plan w2) with (run_plan w1).
  destruct (Wrapper.find_segment_path (run_plan w1) (planner self) pair.1 pair.2)
    as [r| |]; simpl; [|done|done].
  destruct (absent r); [done|].
  apply for_each_rel; [|done]. intros a' b' x. apply walk_to_clock.
Qed.

Lemma run_simulation_clock fuel :
  positions (run_simulation fuel w1 self) = positions (run_simulation fuel w2 self).
Proof.
  unfold run_simulation. destruct (_build_path self) as [cells| |]; simpl; [|done|done].
  case_bool_decide; [done|].
  pose proof (for_each_rel same_untimed (segment fuel w1 self) (segment fuel w2 self)
                (consecutive cells) (fun a b x => segment_clock fuel x a b)
                (get_start_location self, []) (get_start_location self, [])
                (conj eq_refl eq_refl)) as Hrel.
  unfold segments.
  destruct (for_each (segment fuel w1 self) _ _) as [a| |],
           (for_each (segment fuel w2 self) _ _) as [b| |]; simpl in *; try done.
  - destruct Hrel as [_ Hrel]. by rewrite Hrel.
  - by subst.
Qed.

End Clocks.

Lemma walk_to_stamped fuel w self target acc acc' :
  stamped w acc -> walk_to fuel w self target acc = Ok acc' -> stamped w acc'.
Proof.
  revert acc. induction fuel as [|fuel IH]; intros acc Hacc; [done|]. simpl.
  destruct (has_arrived w acc.1 target); [by intros [= <-]|].
  apply IH. intros k p. simpl.
  intros [Hk|[Hk Hp]]%lookup_app_Some; [by apply Hacc|].
  apply list_lookup_singleton_Some in Hp as [Hz <-]. simpl.
  f_equal. lia.
Qed.

Lemma segment_stamped fuel w self acc pair acc' :
  stamped w acc -> segment fuel w self acc pair = Ok acc' -> stamped w acc'.
Proof.
  intros Hacc. unfold segment.
  intros (r & _ & Hrest)%bind_Ok. destruct (absent r); [by injection Hrest as <-|].
  revert Hrest. apply for_each_inv; [|done].
  intros target s s'. apply walk_to_stamped.
Qed.

Lemma run_simulation_stamped fuel w self tr k p :
  run_simulation fuel w self = Ok tr -> data tr !! k = Some p -> ts p = utcnow w k.
Proof.
  unfold run_simulation. intros (cells & _ & Hrest)%bind_Ok.
  case_bool_decide; [done|].
  apply bind_Ok in Hrest as (acc & Hseg & [= <-]). simpl.
  assert (stamped w acc) as Hst; [|apply Hst].
  revert Hseg. apply for_each_inv; [|done].
  intros pair s s'. apply segment_stamped.
Qed.

(** *** The interpolation *)

Lemma interpolate_segment_samples w z self p1 p2 samples i s :
  interpolate_segment w z self p1 p2 = Ok samples ->
  samples !! i = Some s ->
  timestamp_ms s = (INR i * interval_ms self)%R
  ∧ heading_in_range (sample_heading s).
Proof.
  unfold interpolate_segment. destruct p1 as [[lat1 lon1] alt1], p2 as [[lat2 lon2] alt2].
  intros (duration_s & _ & (quotient & _ & Hrest)%bind_Ok)%bind_Ok.
  case_bool_decide; [done|].
  destruct (Rltb (gps_noise_std self) 0); [done|].
  injection Hrest as <-. rewrite list_lookup_imap.
  destruct (_ !! i) as [x|]; [|done]. simpl. intros [= <-]. simpl.
  split; [done|apply compute_heading_in_range].
Qed.

(** *** The westward run *)

Lemma walk_to_arrived fuel w self target acc :
  has_arrived w acc.1 target = true -> walk_to (S fuel) w self target acc = Ok acc.
Proof. intros H. simpl. by rewrite H. Qed.

Lemma walk_to_step fuel w self target acc :
  has_arrived w acc.1 target = false ->
  walk_to (S fuel) w self target acc
  = walk_to fuel w self target
      (step_towards self acc.1 target None,
       acc.2 ++ [gps_point w (length acc.2) (step_towards self acc.1 target None)]).
Proof. intros H. simpl. by rewrite H. Qed.

Lemma westward_cells grid :
  _build_path (Scenario.westward grid) = Ok [(0, 0); (0, 1)]%Z.
Proof.
  unfold _build_path. simpl. rewrite !floor_IZR. reflexivity.
Qed.

Lemma free_row_plan run :
  Wrapper.find_segment_path run (Scenario.row_wrapper [[0; 0]]%Z) (0, 0)%Z (0, 1)%Z
  = Ok (Some [(0, 0); (0, 1)]%Z).
Proof. vm_compute. reflexivity. Qed.

Lemma line_step_west grid st (target : point) :
  (target.2 < lon st)%R ->
  lon (step_towards (Scenario.westward grid) st target None) = (lon st - 4)%R
  ∧ heading (step_towards (Scenario.westward grid) st target None) = (-90)%R.
Proof.
  intros H. unfold step_towards. simpl.
  destruct (Rlt_dec target.2 (lon st)) as [_|Hn]; [|lra].
  destruct (Rlt_dec (-90) 0) as [_|Hn]; [|lra].
  split; [lra|reflexivity].
Qed.

Lemma west1_state : lon Scenario.west1 = 6%R ∧ heading Scenario.west1 = (-90)%R.
Proof.
  destruct (line_step_west [[0; 0]]%Z
              (get_start_location (Scenario.westward [[0; 0]]%Z)) (0, 0)%R) as [H1 H2].
  { simpl. lra. }
  split; [|exact H2]. unfold Scenario.west1. rewrite H1. simpl. lra.
Qed.

Lemma west2_state : lon Scenario.west2 = 2%R ∧ heading Scenario.west2 = (-90)%R.
Proof.
  destruct west1_state as [Hl _].
  destruct (line_step_west [[0; 0]]%Z Scenario.west1 (0, 0)%R) as [H1 H2].
  { rewrite Hl. simpl. lra. }
  split; [|exact H2]. unfold Scenario.west2. rewrite H1, Hl. lra.
Qed.

Lemma has_arrived_line clock st (target : point) :
  has_arrived (Scenario.line_world clock) st target = Rleb (Rabs (lon st - target.2)) 2.
Proof. reflexivity. Qed.

Lemma westward_run clock :
  run_simulation 10 (Scenario.line_world clock) (Scenario.westward [[0; 0]]%Z)
  = Ok {| trace_drone_id := "drone_1";
          data := [gps_point (Scenario.line_world clock) 0 Scenario.west1;
                   gps_point (Scenario.line_world clock) 1 Scenario.west2] |}.
Proof.
  destruct west1_state as [H1 _]. destruct west2_state as [H2 _].
  unfold run_simulation. rewrite westward_cells, bind_Ok_l.
  simpl bool_decide. cbn [consecutive segments for_each].
  unfold segment at 1.
  change (Sim.planner (Scenario.westward [[0; 0]]%Z)) with (Scenario.row_wrapper [[0; 0]]%Z).
  change (((0, 0)%Z, (0, 1)%Z).1) with (0, 0)%Z.
  change (((0, 0)%Z, (0, 1)%Z).2) with (0, 1)%Z.
  rewrite free_row_plan, !bind_Ok_l.
  cbn [absent].
  change (grid_to_latlon (Scenario.westward [[0; 0]]%Z)
            <$> default [] (Some [(0, 0); (0, 1)]%Z)) with [(0, 0)%R; (0, 1)%R].
  cbn [for_each].
  rewrite walk_to_step.
  2:{ rewrite has_arrived_line. simpl. apply Rleb_false. rewrite Rabs_pos_eq; lra. }
  cbn [fst snd app length]. fold Scenario.west1.
  rewrite walk_to_step.
  2:{ rewrite has_arrived_line. cbn [fst snd]. rewrite H1. apply Rleb_false.
      rewrite Rabs_pos_eq; lra. }
  cbn [fst snd app length]. fold Scenario.west2.
  rewrite walk_to_arrived.
  2:{ rewrite has_arrived_line. cbn [fst snd]. rewrite H2. apply Rleb_true.
      rewrite Rabs_pos_eq; lra. }
  rewrite bind_Ok_l. cbn [for_each].
  rewrite walk_to_arrived.
  2:{ rewrite has_arrived_line. cbn [fst snd]. rewrite H2. apply Rleb_true.
      rewrite Rabs_pos_eq; lra. }
  reflexivity.
Qed.

End SimFacts.

(** ** The search of A*: completeness, simple paths, exceptions *)

Module AStarComplete.
Import AStar GridPath SearchInv AStarFacts.

Section Complete.
Variable self : AStarPlanner.
Variable start goal : node.

Local Abbreviation walk := (SearchInv.walk self start).
Local Abbreviation outer := (SearchInv.outer self start).
Local Abbreviation inner := (SearchInv.inner self start).
Local Abbreviation pending := (SearchInv.pending).

(** *** No path is missed *)

Lemma initial_pending : pending (initial start).
Proof.
  intros v [g Hg] _. simpl in *.
  apply lookup_singleton_Some in Hg as [<- <-]. exists 0%R. by left.
Qed.

Lemma relax_pending cur s nb s' :
  relax self goal cur s nb = Ok s' -> pending s -> pending s'.
Proof.
  unfold relax. case_bool_decide; [by intros [= <-]|].
  intros (ec & _ & Hrest)%bind_Ok.
  destruct (ext_add _ _) as [t|]; [|by injection Hrest as <-].
  destruct (lt_ext _ _); [|by injection Hrest as <-].
  injection Hrest as <-. intros Hp v Hv Hnv. simpl in *.
  destruct (decide (v = nb.1)) as [->|Hne].
  - eexists. by left.
  - rewrite lookup_insert_ne in Hv by done.
    destruct (Hp v Hv Hnv) as [f Hf]. exists f. by right.
Qed.

Lemma relax_visited cur s nb s' :
  relax self goal cur s nb = Ok s' -> visited s' = visited s.
Proof.
  unfold relax. case_bool_decide; [by intros [= <-]|].
  intros (ec & _ & Hrest)%bind_Ok.
  destruct (ext_add _ _) as [t|]; [|by injection Hrest as <-].
  destruct (lt_ext _ _); by injection Hrest as <-.
Qed.

Lemma expand_pending cur l s s' :
  for_each (relax self goal cur) s l = Ok s' ->
  pending s -> pending s' ∧ visited s' = visited s.
Proof.
  revert s. induction l as [|nb l IH]; intros s; simpl.
  - by intros [= <-].
  - intros (s1 & H1 & Hrest)%bind_Ok Hp.
    destruct (IH s1 Hrest (relax_pending _ _ _ _ H1 Hp)) as [Hp' Hv].
    split; [done|]. rewrite Hv. by apply (relax_visited cur s nb).
Qed.

Lemma pop_pending s top rest :
  heappop (open_set s) = Some (top, rest) -> pending s ->
  pending (closing s top rest).
Proof.
  intros (_ & _ & Hall & _)%heappop_spec Hp v Hv Hnv. simpl in *.
  apply not_elem_of_union in Hnv as [Hne%not_elem_of_singleton Hnv].
  destruct (Hp v Hv Hnv) as [f Hf]. exists f.
  destruct (Hall _ Hf) as [<-|Hr]; [done|done].
Qed.

(** When the heap runs empty every node that a walk reaches is closed. *)
Lemma exhausted_closed s n p c :
  outer s -> pending s -> open_set s = [] -> walk n p c -> n ∈ visited s.
Proof.
  intros (Hcore & _ & Hrel) Hp Hopen.
  assert (∀ v, is_Some (g_score s !! v) -> v ∈ visited s) as Hall.
  { intros v Hv. destruct (decide (v ∈ visited s)) as [|Hnv]; [done|].
    destruct (Hp v Hv Hnv) as [f Hf]. rewrite Hopen in Hf. by apply elem_of_nil in Hf. }
  induction 1 as [|u v p c ce c' Hw IH Hleg Hce ->].
  - apply Hall. rewrite (SearchInv.c_start self start s Hcore). eauto.
  - destruct (decide (v ∈ visited s)) as [|Hnv]; [done|].
    destruct (Hrel u v IH Hnv Hleg ce Hce) as (gu & gv & _ & Hgv & _).
    apply Hall. eauto.
Qed.

Lemma search_loop_exhausts fuel s :
  outer s -> pending s -> goal ∉ visited s ->
  search_loop fuel self start goal s = Ok None ->
  ∀ p c, ¬ walk goal p c.
Proof.
  revert s. induction fuel as [|fuel IH]; intros s Hout Hp Hg; [done|]. simpl.
  destruct (heappop (open_set s)) as [[top rest]|] eqn:Hpop.
  - case_bool_decide as Hgoal.
    { by intros (path & _ & [=])%bind_Ok. }
    intros (s2 & Hfor & Hloop)%bind_Ok.
    pose proof (pop_inner self start s top rest Hout Hpop) as Hin.
    destruct (expand_inner self start goal top.2 _ s2 Hin Hfor) as [Hin2 _].
    destruct (expand_pending top.2 _ _ s2 Hfor (pop_pending s top rest Hpop Hp)) as [Hp2 Hv2].
    apply (IH s2); [by apply (inner_outer self start top.2)|done| |done].
    rewrite Hv2. simpl. intros [->%elem_of_singleton|H]%elem_of_union; done.
  - intros _ p c Hw. apply Hg.
    apply (exhausted_closed s goal p c); try done.
    unfold heappop in Hpop. by destruct (open_set s).
Qed.

(** [find_path] answers [None] only when no walk reaches the goal. *)
Lemma find_path_none : find_path self start goal = Ok None -> ∀ p c, ¬ walk goal p c.
Proof.
  unfold find_path. case_bool_decide; [done|].
  apply search_loop_exhausts; [apply initial_outer|apply initial_pending|].
  simpl. apply not_elem_of_empty.
Qed.

(** *** The returned path repeats no node *)

Lemma pop_goal_nodup s top rest path :
  outer s -> heappop (open_set s) = Some (top, rest) ->
  reconstruct (came_from s) start top.2 = Ok path -> NoDup path.
Proof.
  intros (Hcore & _ & _) (Htop & _)%heappop_spec Hrec.
  destruct (SearchInv.c_entries self start s Hcore _ Htop) as [g Hg].
  destruct (SearchInv.c_tree self start s Hcore _ g Hg) as (q & Hch & Hnd & Hvis & Hw).
  rewrite (chain_reconstruct start _ _ q) in Hrec; [|done|done|by eapply walk_head].
  by injection Hrec as <-.
Qed.

Lemma search_loop_nodup fuel s path :
  outer s -> search_loop fuel self start goal s = Ok (Some path) -> NoDup path.
Proof.
  revert s. induction fuel as [|fuel IH]; intros s Hout; [done|]. simpl.
  destruct (heappop (open_set s)) as [[top rest]|] eqn:Hpop; [|done].
  case_bool_decide as Hgoal.
  - intros (p & Hrec & [= <-])%bind_Ok. by apply (pop_goal_nodup s top rest).
  - intros (s2 & Hfor & Hloop)%bind_Ok. apply (IH s2); [|done].
    apply (inner_outer self start top.2).
    by apply (expand_inner self start goal top.2 (closing s top rest));
      [apply pop_inner|].
Qed.

Lemma find_path_nodup path : find_path self start goal = Ok (Some path) -> NoDup path.
Proof.
  unfold find_path. case_bool_decide as Heq.
  - intros [= <-]. apply NoDup_singleton.
  - apply search_loop_nodup, initial_outer.
Qed.

(** *** The only exception is that of an elevation lookup *)

Lemma np_get_raises {A : Type} `{Inhabited A} (a : ndarray A) i j e :
  np_get a i j = Raise e -> e = IndexError.
Proof.
  unfold np_get.
  destruct (np_index (shape0 a) i); simpl; [|by intros [= <-]].
  destruct (np_index (shape1 a) j); simpl; [done|by intros [= <-]].
Qed.

Lemma elev_cost_raises u v e : elev_cost self u v = Raise e -> e = IndexError.
Proof.
  unfold elev_cost. destruct (elevation self) as [elev|]; [|done].
  destruct (np_get elev u.1 u.2) eqn:H1; simpl; [|intros [= <-]; by eapply np_get_raises|done].
  destruct (np_get elev v.1 v.2) eqn:H2; simpl; [done|intros [= <-]; by eapply np_get_raises|done].
Qed.

Lemma relax_raises cur s nb e : relax self goal cur s nb = Raise e -> e = IndexError.
Proof.
  unfold relax. case_bool_decide; [done|].
  destruct (elev_cost self cur nb.1) as [ec| |] eqn:Hec; simpl;
    [|intros [= <-]; by eapply elev_cost_raises|done].
  destruct (ext_add _ _); [|done]. by destruct (lt_ext _ _).
Qed.

Lemma for_each_raises {A S : Type} (body : S -> A -> outcome S) (P : exn -> Prop) s l e :
  (∀ s x e, body s x = Raise e -> P e) -> for_each body s l = Raise e -> P e.
Proof.
  intros Hb. revert s. induction l as [|x l IH]; intros s; [done|]. simpl.
  destruct (body s x) as [s'| |] eqn:Hx; simpl; [apply IH| |done].
  intros [= <-]. by eapply Hb.
Qed.

Lemma walk_back_raises fuel cf n e : walk_back fuel cf n ≠ Raise e.
Proof.
  revert n. induction fuel as [|fuel IH]; intros n; [done|]. simpl.
  destruct (cf !! n) as [m|]; [|done].
  specialize (IH m). by destruct (walk_back fuel cf m).
Qed.

Lemma search_loop_raises fuel s e :
  search_loop fuel self start goal s = Raise e -> e = IndexError.
Proof.
  revert s. induction fuel as [|fuel IH]; intros s; [done|]. simpl.
  destruct (heappop (open_set s)) as [[top rest]|]; [|done].
  case_bool_decide.
  - unfold reconstruct.
    pose proof (walk_back_raises (S (size (came_from s))) (came_from s) top.2) as Hw.
    destruct (walk_back _ _ _) as [p| |]; simpl; [done| |done].
    intros [= <-]. by destruct (Hw e0).
  - destruct (for_each _ _ _) as [s2| |] eqn:Hfor; simpl; [apply IH| |done].
    intros [= <-]. apply (for_each_raises _ (fun e => e = IndexError) _ _ _
                            (relax_raises top.2) Hfor).
Qed.

Lemma find_path_raises e : find_path self start goal = Raise e -> e = IndexError.
Proof.
  unfold find_path. case_bool_decide; [done|]. apply search_loop_raises.
Qed.

(** *** Without an elevation field nothing is raised *)

Lemma relax_plain cur s nb e :
  elevation self = None -> relax self goal cur s nb = Raise e -> False.
Proof.
  intros Hn. unfold relax, elev_cost. rewrite Hn. case_bool_decide; [done|]. simpl.
  destruct (ext_add _ _); [|done]. by destruct (lt_ext _ _).
Qed.

Lemma search_loop_plain fuel s e :
  elevation self = None -> search_loop fuel self start goal s = Raise e -> False.
Proof.
  intros Hn. revert s. induction fuel as [|fuel IH]; intros s; [done|]. simpl.
  destruct (heappop (open_set s)) as [[top rest]|]; [|done].
  case_bool_decide.
  - unfold reconstruct.
    pose proof (walk_back_raises (S (size (came_from s))) (came_from s) top.2) as Hw.
    destruct (walk_back _ _ _) as [p|e0|]; simpl; [done| |done].
    by destruct (Hw e0).
  - destruct (for_each _ _ _) as [s2|e0|] eqn:Hfor; simpl; [apply IH| |done].
    intros _. apply (for_each_raises _ (fun _ => False) _ _ _
                       (fun s x e => relax_plain top.2 s x e Hn) Hfor).
Qed.

Lemma find_path_plain e :
  elevation self = None -> find_path self start goal = Raise e -> False.
Proof.
  intros Hn. unfold find_path. case_bool_decide; [done|]. by apply search_loop_plain.
Qed.

Lemma path_cost_plain q : elevation self = None -> ∃ c, path_cost self q = Ok c.
Proof.
  intros Hn. induction q as [|u [|v q] IH]; [by exists 0%R..|].
  destruct IH as [c Hc]. exists (base_cost u v + c)%R.
  change (path_cost self (u :: v :: q))
    with (c0 ← edge_cost self u v; r ← path_cost self (v :: q); Ok (c0 + r)%R).
  unfold edge_cost. rewrite Hn, Hc. reflexivity.
Qed.

(** *** A path is found whenever there is one *)

Lemma find_path_complete q cq :
  is_path self start goal q -> path_cost self q = Ok cq ->
  (∃ path, find_path self start goal = Ok (Some path))
  ∨ find_path self start goal = Raise IndexError.
Proof.
  intros (Hh & Hl & Hm) Hc.
  pose proof (path_walk self start q goal cq Hh Hl Hm Hc) as Hw.
  pose proof (find_path_total self start goal) as Htot.
  destruct (find_path self start goal) as [[path|]|e|] eqn:Hf.
  - left. eauto.
  - by destruct (find_path_none Hf q cq).
  - right. by rewrite (find_path_raises e).
  - done.
Qed.

(** Without an elevation field the search answers with a path whenever
    there is one. *)
Lemma find_path_complete_plain q :
  elevation self = None -> is_path self start goal q ->
  ∃ path, find_path self start goal = Ok (Some path).
Proof.
  intros Hn Hq. destruct (path_cost_plain q Hn) as [c Hc].
  destruct (find_path_complete q c Hq Hc) as [H|H]; [done|].
  by destruct (find_path_plain IndexError Hn).
Qed.

End Complete.
End AStarComplete.

(** ** Grids without obstacles *)

Module OpenGridFacts.
Import AStar GridPath SearchInv OpenGrid AStarFacts.

Lemma np_get_in_range {A : Type} `{Inhabited A} (a : ndarray A) i j :
  (0 <= i < shape0 a)%Z -> (0 <= j < shape1 a)%Z -> np_get a i j = Ok (np_item a i j).
Proof.
  intros Hi Hj. unfold np_get, np_index.
  rewrite !bool_decide_eq_true_2 by done. reflexivity.
Qed.

Lemma in_bounds_range self n :
  in_bounds self n = true
  <-> (0 <= n.1 < shape0 (grid self))%Z ∧ (0 <= n.2 < shape1 (grid self))%Z.
Proof.
  unfold in_bounds. rewrite andb_true_iff, !bool_decide_eq_true. done.
Qed.

Lemma cells_in_bounds self n : n ∈ SearchInv.cells self -> in_bounds self n = true.
Proof.
  unfold SearchInv.cells. intros ([r c] & -> & Hrc)%elem_of_list_to_set%list_elem_of_fmap.
  apply list_elem_of_In, in_prod_iff in Hrc as [Hr%in_seq Hc%in_seq].
  apply in_bounds_range. unfold shape0, shape1. simpl in *. lia.
Qed.

Section Open.
Variable self : AStarPlanner.
Hypothesis Hcov : covered self.

Lemma elev_cost_covered u v :
  in_bounds self u = true -> in_bounds self v = true ->
  ∃ ec, elev_cost self u v = Ok ec.
Proof.
  intros [Hu1 Hu2]%in_bounds_range [Hv1 Hv2]%in_bounds_range.
  unfold elev_cost. unfold covered in Hcov.
  destruct (elevation self) as [elev|]; [|eauto].
  destruct Hcov as [H0 H1].
  rewrite !np_get_in_range by lia. simpl. eauto.
Qed.

Lemma edge_cost_covered u v :
  in_bounds self u = true -> in_bounds self v = true ->
  ∃ c, edge_cost self u v = Ok c.
Proof.
  intros Hu Hv. rewrite edge_cost_elev.
  destruct (elev_cost_covered u v Hu Hv) as [ec ->]. simpl. eauto.
Qed.

Lemma relax_covered goal cur s nb :
  in_bounds self cur = true -> nb ∈ get_neighbors self cur ->
  ∃ s', relax self goal cur s nb = Ok s'.
Proof.
  destruct nb as [v base]. intros Hcur [(_ & Hv & _) _]%neighbors_spec.
  unfold relax. simpl. case_bool_decide; [eauto|].
  destruct (elev_cost_covered cur v Hcur Hv) as [ec ->]. simpl.
  destruct (ext_add _ _); [|eauto]. destruct (lt_ext _ _); eauto.
Qed.

Lemma expand_covered goal cur l s :
  in_bounds self cur = true -> (∀ nb, nb ∈ l -> nb ∈ get_neighbors self cur) ->
  ∃ s', for_each (relax self goal cur) s l = Ok s'.
Proof.
  intros Hcur. revert s. induction l as [|nb l IH]; intros s Hl; simpl; [eauto|].
  destruct (relax_covered goal cur s nb Hcur) as [s1 ->]; [apply Hl; by left|].
  simpl. apply IH. intros; apply Hl; by right.
Qed.

(** With every elevation lookup in range the search raises nothing. *)
Lemma search_loop_covered start goal fuel s e :
  in_bounds self start = true ->
  (∀ x, x ∈ open_set s -> in_bounds self x.2 = true) ->
  search_loop fuel self start goal s ≠ Raise e.
Proof.
  intros Hstart. revert s. induction fuel as [|fuel IH]; intros s Hopen; [done|].
  simpl. destruct (heappop (open_set s)) as [[top rest]|] eqn:Hpop; [|done].
  pose proof Hpop as (Htop & Hrest & _)%heappop_spec.
  case_bool_decide.
  - unfold reconstruct.
    pose proof (AStarComplete.walk_back_raises (S (size (came_from s))) (came_from s) top.2) as Hw.
    destruct (walk_back _ _ _) as [p|e'|]; simpl; [done| |done].
    by destruct (Hw e').
  - destruct (expand_covered goal top.2 (get_neighbors self top.2)
                (closing s top rest) (Hopen _ Htop) (fun _ H => H)) as [s2 Hfor].
    unfold closing in Hfor. simpl in Hfor. rewrite Hfor. simpl.
    apply IH. intros x Hx.
    destruct (expand_pushes self goal top.2 _ _ _ (fun _ H => H) Hfor)
      as (_ & _ & Hin).
    destruct (Hin x Hx) as [Hx'|Hx'].
    + apply Hopen. by apply Hrest.
    + by apply cells_in_bounds.
Qed.

Lemma find_path_covered start goal e :
  in_bounds self start = true -> find_path self start goal ≠ Raise e.
Proof.
  intros Hs. unfold find_path. case_bool_decide; [done|].
  apply search_loop_covered; [done|].
  by intros x ->%list_elem_of_singleton.
Qed.

(** *** A path between any two cells *)

Hypothesis Hfree : obstacle_free self.

Lemma step_legal u v :
  in_bounds self v = true -> (v.1 - u.1, v.2 - u.2)%Z ∈ directions -> legal self u v.
Proof. intros Hv Hd. split; [done|]. split; [done|]. by apply Hfree. Qed.

Lemma open_grid_path (n : nat) :
  ∀ a b, in_bounds self a = true -> in_bounds self b = true ->
    (Z.abs (b.1 - a.1) + Z.abs (b.2 - a.2) = Z.of_nat n)%Z ->
    ∃ q c, is_path self a b q ∧ path_cost self q = Ok c.
Proof.
  induction n as [|n IH]; intros a b Ha Hb Hn.
  - assert (a = b) as <-.
    { destruct a as [a1 a2], b as [b1 b2]; simpl in *. f_equal; lia. }
    exists [a], 0%R. split; [|done]. split; [done|]. split; done.
  - set (a' := if bool_decide (a.1 < b.1)%Z then (a.1 + 1, a.2)%Z
               else if bool_decide (b.1 < a.1)%Z then (a.1 - 1, a.2)%Z
               else if bool_decide (a.2 < b.2)%Z then (a.1, a.2 + 1)%Z
               else (a.1, a.2 - 1)%Z).
    apply in_bounds_range in Ha as Ha', Hb as Hb'.
    assert (in_bounds self a' = true
            ∧ (a'.1 - a.1, a'.2 - a.2)%Z ∈ directions
            ∧ (Z.abs (b.1 - a'.1) + Z.abs (b.2 - a'.2) = Z.of_nat n)%Z) as (Hin & Hdir & Hm).
    { unfold a'. repeat case_bool_decide; simpl; (split; [apply in_bounds_range; simpl; lia|]);
        (split; [|lia]).
      - replace (a.1 + 1 - a.1)%Z with 1%Z by lia. replace (a.2 - a.2)%Z with 0%Z by lia.
        apply list_elem_of_In; simpl; auto 12.
      - replace (a.1 - 1 - a.1)%Z with (-1)%Z by lia. replace (a.2 - a.2)%Z with 0%Z by lia.
        apply list_elem_of_In; simpl; auto 12.
      - replace (a.1 - a.1)%Z with 0%Z by lia. replace (a.2 + 1 - a.2)%Z with 1%Z by lia.
        apply list_elem_of_In; simpl; auto 12.
      - replace (a.1 - a.1)%Z with 0%Z by lia. replace (a.2 - 1 - a.2)%Z with (-1)%Z by lia.
        apply list_elem_of_In; simpl; auto 12. }
    destruct (IH a' b Hin Hb Hm) as (q & c & (Hh & Hl & Hmoves) & Hc).
    destruct (edge_cost_covered a a' Ha Hin) as [ce Hce].
    destruct q as [|x q]; [done|]. injection Hh as ->.
    exists (a :: a' :: q), (ce + c)%R. split.
    + split; [done|]. split; [exact Hl|].
      split; [by apply step_legal|done].
    + by rewrite path_cost_cons, Hce, bind_Ok_l, Hc.
Qed.

(** On a grid without obstacles the search finds a path between any two
    cells. *)
Lemma find_path_open start goal :
  in_bounds self start = true -> in_bounds self goal = true ->
  ∃ path, find_path self start goal = Ok (Some path).
Proof.
  intros Hs Hg.
  destruct (open_grid_path (Z.to_nat (Z.abs (goal.1 - start.1) + Z.abs (goal.2 - start.2)))
              start goal Hs Hg) as (q & c & Hq & Hc); [lia|].
  destruct (AStarComplete.find_path_complete self start goal q c Hq Hc) as [H|H]; [done|].
  by destruct (find_path_covered start goal IndexError Hs).
Qed.

End Open.

End OpenGridFacts.

(** ** The search on binary64 ends *)

Module AStar64Search.
Import AStar64 SearchInv64.

Section Search.
Variable self : AStarPlanner.
Variable start goal : node.

Local Abbreviation linked := (SearchInv64.linked start).
Local Abbreviation settled := (SearchInv64.settled self).
Local Abbreviation outer := (SearchInv64.outer self start).
Local Abbreviation inner := (SearchInv64.inner self start).
Local Abbreviation universe := (SearchInv64.universe self start).
Local Abbreviation scoped := (SearchInv64.scoped self start).
Local Abbreviation potential := (SearchInv64.potential self start).
Local Abbreviation chain := SearchInv.chain.

Lemma neighbors64_in_bounds cur nb :
  nb ∈ get_neighbors self cur -> in_bounds self nb.1 = true.
Proof.
  unfold get_neighbors. rewrite list_elem_of_omap. intros (d & _ & Hd). simpl in Hd.
  destruct (in_bounds self _) eqn:Hb; [|done].
  case_bool_decide; [|done]. by injection Hd as <-.
Qed.

Lemma neighbors64_length cur : length (get_neighbors self cur) <= 8.
Proof.
  unfold get_neighbors.
  assert (∀ {A B} (f : A -> option B) l, length (omap f l) <= length l) as Hlen.
  { intros A B f l. induction l as [|x l IH]; csimpl; [lia|].
    destruct (f x); csimpl; lia. }
  etrans; [apply Hlen|]. unfold AStar.directions. simpl. lia.
Qed.

Lemma initial64_outer : outer (initial start).
Proof.
  split; [split|]; simpl.
  - intros n [g [<- <-]%lookup_singleton_Some]. exists [start].
    split; [by apply SearchInv.chain_root|]. split; [apply NoDup_singleton|].
    split; [done|]. by intros x ->%list_elem_of_singleton.
  - intros u Hu. by apply elem_of_empty in Hu.
  - intros e ->%list_elem_of_singleton. simpl. rewrite lookup_singleton_eq. eauto.
  - intros u nb Hu. by apply elem_of_empty in Hu.
Qed.

(** The state after [came_from[v] = cur; g_score[v] = t; heappush(...)]. *)
Lemma updated64_linked s cur v t f :
  linked s -> cur ∈ visited s -> v ∉ visited s ->
  linked {| open_set := heappush (open_set s) (f, v);
            came_from := <[v := cur]> (came_from s);
            g_score := <[v := t]> (g_score s);
            visited := visited s |}.
Proof.
  intros [Htree Hclosed Hentries] Hcur Hv. split; simpl.
  - intros n Hn. destruct (decide (n = v)) as [->|Hne].
    + destruct (Htree cur (Hclosed cur Hcur)) as (p & Hch & Hnd & Hh & Hvis).
      assert (∀ x, x ∈ p -> x ∈ visited s) as Hall.
      { intros x Hx. destruct (decide (x = cur)) as [->|Hxc]; [done|by apply Hvis]. }
      assert (v ∉ p) as Hvp by (intros Hin; by apply Hv, Hall).
      exists (p ++ [v]). split; [|split; [|split]].
      * apply SearchInv.chain_step with cur; [apply lookup_insert_eq|].
        by apply AStarFacts.chain_insert.
      * apply NoDup_app. split; [done|]. split; [|apply NoDup_singleton].
        by intros x Hx ->%list_elem_of_singleton.
      * destruct p; [done|]. exact Hh.
      * intros x [Hx| ->%list_elem_of_singleton]%elem_of_app Hxv; [by apply Hall|done].
    + rewrite lookup_insert_ne in Hn by done.
      destruct (Htree n Hn) as (p & Hch & Hnd & Hh & Hvis).
      exists p. split; [|done].
      apply AStarFacts.chain_insert; [done|].
      intros Hin. destruct (decide (v = n)) as [->|Hvn]; [done|].
      by apply Hv, Hvis.
  - intros u Hu. destruct (decide (u = v)) as [->|Hne].
    + rewrite lookup_insert_eq. eauto.
    + rewrite lookup_insert_ne by done. by apply Hclosed.
  - unfold heappush. intros e [->|He]%elem_of_cons; simpl.
    + rewrite lookup_insert_eq. eauto.
    + destruct (decide (e.2 = v)) as [->|Hne].
      * rewrite lookup_insert_eq. eauto.
      * rewrite lookup_insert_ne by done. by apply Hentries.
Qed.

(** A score that went down leaves the relaxed edges relaxed. *)
Lemma settled_updated s cur v t f u nb :
  u ∈ visited s -> v ∉ visited s ->
  PrimFloat.ltb t (g_get s v) = true ->
  settled s u nb ->
  settled {| open_set := heappush (open_set s) (f, v);
             came_from := <[v := cur]> (came_from s);
             g_score := <[v := t]> (g_score s);
             visited := visited s |} u nb.
Proof.
  intros Hu Hv Hlt Hset Hnb ec Hec. simpl in Hnb.
  specialize (Hset Hnb ec Hec).
  assert (u ≠ v) as Huv by (by intros ->).
  unfold SearchInv64.offer, g_get in *. simpl.
  rewrite (lookup_insert_ne _ v u) by done.
  destruct (decide (nb.1 = v)) as [Heq|Hne].
  - rewrite Heq in *. rewrite lookup_insert_eq. simpl.
    destruct (PrimFloat.ltb _ t) eqn:Hxt; [|done].
    by rewrite (F64Facts.ltb_trans _ _ _ Hxt Hlt) in Hset.
  - by rewrite lookup_insert_ne.
Qed.

Lemma relax64_inner cur done s nb s' :
  inner cur done s -> relax self goal cur s nb = Ok s' -> inner cur (done ++ [nb]) s'.
Proof.
  intros (Hlink & Hcur & Hothers & Hdone). unfold relax.
  case_bool_decide as Hv.
  { intros [= <-]. split; [done|]. split; [done|]. split; [done|].
    intros nb' [H| ->%list_elem_of_singleton]%elem_of_app; [by apply Hdone|].
    by intros Hn. }
  destruct (elev_cost self cur nb.1) as [ec| |] eqn:Hec; simpl; [|done..].
  destruct (PrimFloat.ltb _ _) eqn:Hlt.
  - intros [= <-]. split; [by apply updated64_linked|]. split; [done|]. split.
    + intros u nb' Hu Hne Hnb'. apply settled_updated; [done|done|done|].
      by apply Hothers.
    + intros nb' [H| ->%list_elem_of_singleton]%elem_of_app.
      * apply settled_updated; [done|done|done|]. by apply Hdone.
      * intros _ ec' Hec'. simpl in Hec'. rewrite Hec in Hec'. injection Hec' as <-.
        assert (cur ≠ nb.1) as Hcv by (by intros ->).
        unfold SearchInv64.offer, g_get. simpl.
        rewrite lookup_insert_eq, (lookup_insert_ne _ nb.1 cur) by done. simpl.
        apply F64Facts.ltb_irrefl.
  - intros [= <-]. split; [done|]. split; [done|]. split; [done|].
    intros nb' [H| ->%list_elem_of_singleton]%elem_of_app; [by apply Hdone|].
    intros _ ec' Hec'. rewrite Hec in Hec'. by injection Hec' as <-.
Qed.

Lemma expand64_inner cur s s' :
  inner cur [] s -> for_each (relax self goal cur) s (get_neighbors self cur) = Ok s' ->
  outer s'.
Proof.
  intros Hin Hfor.
  pose proof (for_each_prefix_inv (relax self goal cur) (inner cur) (get_neighbors self cur)
                (fun pre x s0 s1 _ H0 H1 => relax64_inner cur pre s0 x s1 H0 H1)
                s s' Hin Hfor) as (Hlink & Hcur & Hothers & Hdone).
  split; [done|]. intros u nb Hu Hnb.
  destruct (decide (u = cur)) as [->|Hne]; [by apply Hdone|by apply Hothers].
Qed.

Lemma pop64_inner s top rest :
  outer s -> heappop (open_set s) = Some (top, rest) ->
  inner top.2 [] (closing s top rest).
Proof.
  intros [[Htree Hclosed Hentries] Hset] [Htop Hrest]%AStar64Facts.heappop64_spec.
  split; [split|split; [|split]]; simpl.
  - intros n Hn. destruct (Htree n Hn) as (p & Hch & Hnd & Hh & Hvis).
    exists p. split; [done|]. split; [done|]. split; [done|].
    intros x Hx Hxn. apply elem_of_union_r. by apply Hvis.
  - intros u [->%elem_of_singleton|Hu]%elem_of_union; [by apply Hentries|by apply Hclosed].
  - intros e He. by apply Hentries, Hrest.
  - apply elem_of_union_l. by apply elem_of_singleton.
  - intros u nb [Hu%elem_of_singleton|Hu]%elem_of_union Hne Hnb; [done|].
    intros Hn. apply (Hset u nb Hu Hnb). intros Hin. apply Hn. by apply elem_of_union_r.
  - by intros nb Hnb%elem_of_nil.
Qed.

(** One neighbour puts at most one entry on the heap, of a cell of the grid,
    and closes nothing. *)
Lemma relax64_pushes cur s nb s' :
  nb ∈ get_neighbors self cur -> relax self goal cur s nb = Ok s' ->
  visited s' = visited s
  ∧ (open_set s' = open_set s
     ∨ ∃ f, open_set s' = (f, nb.1) :: open_set s ∧ nb.1 ∈ universe).
Proof.
  intros Hnb%neighbors64_in_bounds. unfold relax.
  case_bool_decide; [intros [= <-]; auto|].
  destruct (elev_cost self cur nb.1) as [ec| |]; simpl; [|done..].
  destruct (PrimFloat.ltb _ _); intros [= <-]; [|auto].
  split; [done|]. right. eexists. split; [done|].
  unfold SearchInv64.universe, SearchInv.universe.
  apply elem_of_union_r. by apply (AStarFacts.in_bounds_cells (exact self)).
Qed.

Lemma expand64_pushes cur l s s' :
  (∀ nb, nb ∈ l -> nb ∈ get_neighbors self cur) ->
  for_each (relax self goal cur) s l = Ok s' ->
  visited s' = visited s
  ∧ length (open_set s') <= length (open_set s) + length l
  ∧ ∀ e, e ∈ open_set s' -> e ∈ open_set s ∨ e.2 ∈ universe.
Proof.
  revert s. induction l as [|nb l IH]; intros s Hl; simpl.
  - intros [= <-]. split; [done|]. split; [lia|auto].
  - intros (s1 & H1 & Hrest)%bind_Ok.
    destruct (relax64_pushes cur s nb s1) as [Hv Ho]; [apply Hl; by left|done|].
    destruct (IH s1) as (Hv' & Hlen & Hin); [intros; apply Hl; by right|done|].
    split; [congruence|].
    destruct Ho as [Ho|(f & Ho & Hc)]; rewrite Ho in *.
    + split; [lia|done].
    + split; [simpl in Hlen; lia|].
      intros e He. destruct (Hin e He) as [[->|H]%elem_of_cons|H]; auto.
Qed.

(** A neighbour of a node whose edges are relaxed changes nothing. *)
Lemma relax64_again cur s nb s' :
  settled s cur nb -> relax self goal cur s nb = Ok s' -> s' = s.
Proof.
  intros Hset. unfold relax. case_bool_decide as Hv; [by intros [= <-]|].
  destruct (elev_cost self cur nb.1) as [ec| |] eqn:Hec; simpl; [|done..].
  specialize (Hset Hv ec Hec). unfold SearchInv64.offer in Hset. rewrite Hset.
  by intros [= <-].
Qed.

Lemma expand64_again cur l s s' :
  (∀ nb, nb ∈ l -> settled s cur nb) ->
  for_each (relax self goal cur) s l = Ok s' -> s' = s.
Proof.
  induction l as [|nb l IH]; intros Hl; simpl.
  - by intros [= <-].
  - intros (s1 & H1 & Hrest)%bind_Ok.
    apply relax64_again in H1; [|apply Hl; by left]. subst s1.
    apply IH; [intros; apply Hl; by right|done].
Qed.

Lemma relax64_never_diverges cur s nb : relax self goal cur s nb ≠ Diverge.
Proof.
  unfold relax. case_bool_decide; [done|].
  assert (elev_cost self cur nb.1 ≠ Diverge) as Hec.
  { unfold elev_cost. destruct (elevation self) as [elev|]; [|done].
    unfold np_get.
    destruct (np_index (shape0 elev) cur.1), (np_index (shape1 elev) cur.2),
      (np_index (shape0 elev) nb.1.1), (np_index (shape1 elev) nb.1.2); done. }
  destruct (elev_cost self cur nb.1) as [ec| |]; simpl; [|done|done].
  by destruct (PrimFloat.ltb _ _).
Qed.

Lemma relax64_raises cur s nb e : relax self goal cur s nb = Raise e -> e = IndexError.
Proof.
  unfold relax. case_bool_decide; [done|].
  destruct (elev_cost self cur nb.1) as [ec|e0|] eqn:Hec; simpl;
    [by destruct (PrimFloat.ltb _ _)| |done].
  intros [= <-]. unfold elev_cost in Hec. destruct (elevation self) as [elev|]; [|done].
  destruct (np_get elev cur.1 cur.2) eqn:H1; simpl in Hec;
    [|injection Hec as <-; by eapply AStarComplete.np_get_raises|done].
  destruct (np_get elev nb.1.1 nb.1.2) eqn:H2; simpl in Hec;
    [done|injection Hec as <-; by eapply AStarComplete.np_get_raises|done].
Qed.

(** The heap entry that is taken for the goal has its parent links. *)
Lemma pop64_reconstructs s top rest :
  outer s -> heappop (open_set s) = Some (top, rest) ->
  ∃ path, AStar.reconstruct (came_from s) start top.2 = Ok path.
Proof.
  intros [[Htree _ Hentries] _] [Htop _]%AStar64Facts.heappop64_spec.
  destruct (Htree _ (Hentries _ Htop)) as (p & Hch & Hnd & Hh & _).
  exists p. by apply AStarFacts.chain_reconstruct.
Qed.

Lemma search_loop64_total fuel s :
  outer s -> scoped s -> potential s < fuel ->
  search_loop fuel self start goal s ≠ Diverge.
Proof.
  revert s. induction fuel as [|fuel IH]; intros s Hout [Hopen Hvis] Hpot; [lia|].
  simpl. destruct (heappop (open_set s)) as [[top rest]|] eqn:Hpop; [|done].
  case_bool_decide as Hgoal.
  { destruct (pop64_reconstructs s top rest Hout Hpop) as [path Hpath].
    by rewrite Hpath. }
  pose proof (pop64_inner s top rest Hout Hpop) as Hin.
  pose proof Hpop as [Htop Hrest]%AStar64Facts.heappop64_spec.
  assert (S (length rest) = length (open_set s)) as Hlen.
  { destruct (open_set s) as [|e l]; [done|]. simpl in Hpop. injection Hpop as Hp.
    apply AStar64Facts.pop_min64_perm, Permutation_length in Hp. simpl in *. lia. }
  destruct (for_each (relax self goal top.2) _ _) as [s2| |] eqn:Hfor; simpl;
    [|done|by destruct (AStarFacts.for_each_never_diverges _ _ _
                          (relax64_never_diverges top.2) Hfor)].
  change (for_each (relax self goal top.2) (closing s top rest)
            (get_neighbors self top.2) = Ok s2) in Hfor.
  pose proof (expand64_inner top.2 _ _ Hin Hfor) as Hout2.
  destruct (expand64_pushes top.2 _ _ _ (fun _ H => H) Hfor) as (Hv2 & Hlen2 & Hopen2).
  assert (top.2 ∈ universe) as Htu by (by apply Hopen).
  assert ({[top.2]} ∪ visited s ⊆ universe) as Hsub.
  { intros x [->%elem_of_singleton|Hx]%elem_of_union; [done|by apply Hvis]. }
  apply IH; [done| |].
  - split.
    + intros e He. destruct (Hopen2 e He) as [H|H]; [|done].
      apply Hopen. by apply Hrest.
    + by rewrite Hv2.
  - unfold SearchInv64.potential in *. rewrite Hv2. simpl in *.
    destruct (decide (top.2 ∈ visited s)) as [Hold|Hnew].
    + assert (s2 = closing s top rest) as ->.
      { apply (expand64_again top.2 (get_neighbors self top.2)); [|done].
        intros nb Hnb Hn. destruct Hout as [_ Hset].
        apply (Hset top.2 nb Hold Hnb). intros Hv'. apply Hn. simpl.
        by apply elem_of_union_r. }
      simpl. rewrite (subseteq_union_1_L {[top.2]} (visited s))
        by (by apply singleton_subseteq_l).
      lia.
    + pose proof (neighbors64_length top.2).
      assert ({[top.2]} ## visited s) as Hdis by (by apply disjoint_singleton_l).
      rewrite size_difference by done.
      rewrite size_difference in Hpot by done.
      rewrite size_union, size_singleton by done.
      pose proof (subseteq_size _ _ Hsub) as Hsz.
      rewrite size_union, size_singleton in Hsz by done.
      lia.
Qed.

Lemma search_loop64_raises fuel s e :
  search_loop fuel self start goal s = Raise e -> e = IndexError.
Proof.
  revert s. induction fuel as [|fuel IH]; intros s; [done|]. simpl.
  destruct (heappop (open_set s)) as [[top rest]|]; [|done].
  case_bool_decide.
  - unfold AStar.reconstruct.
    pose proof (AStarComplete.walk_back_raises (S (size (came_from s))) (came_from s) top.2)
      as Hw.
    destruct (AStar.walk_back _ _ _) as [p|e0|]; simpl; [done| |done].
    by destruct (Hw e0).
  - destruct (for_each _ _ _) as [s2| |] eqn:Hfor; simpl; [apply IH| |done].
    intros [= <-]. apply (AStarComplete.for_each_raises _ (fun e => e = IndexError) _ _ _
                            (relax64_raises top.2) Hfor).
Qed.

(** [find_path] returns or raises within its fuel. *)
Lemma find_path64_total : find_path self start goal ≠ Diverge.
Proof.
  unfold find_path. case_bool_decide; [done|].
  apply search_loop64_total; [apply initial64_outer| |].
  - split; simpl; [|apply empty_subseteq].
    intros e ->%list_elem_of_singleton. simpl.
    unfold SearchInv64.universe, SearchInv.universe.
    by apply elem_of_union_l, elem_of_singleton.
  - unfold SearchInv64.potential, search_fuel. simpl.
    rewrite difference_empty_L.
    pose proof (AStarFacts.size_universe (exact self) start). simpl in *.
    unfold SearchInv64.universe. lia.
Qed.

Lemma find_path64_raises e : find_path self start goal = Raise e -> e = IndexError.
Proof.
  unfold find_path. case_bool_decide; [done|]. apply search_loop64_raises.
Qed.

End Search.

End AStar64Search.

(** ** The tree search of RRT *)

Module RRTFacts.
Import RRT RRTPlan.

Lemma tree_get_set t k v k' :
  tree_get (tree_set t k v) k' = if decide (k = k') then Some v else tree_get t k'.
Proof.
  induction t as [|e t IH]; simpl.
  - by destruct (decide (k = k')).
  - destruct (decide (e.1 = k)) as [He|He]; simpl.
    + destruct (decide (e.1 = k')) as [He'|He'].
      * by rewrite decide_True by congruence.
      * by rewrite decide_False by congruence.
    + destruct (decide (e.1 = k')) as [He'|He']; [|done].
      by rewrite decide_False by congruence.
Qed.

Lemma tree_get_keys t k : is_Some (tree_get t k) <-> k ∈ fst <$> t.
Proof.
  induction t as [|e t IH]; simpl.
  - split; [by intros [? ?]|by intros ?%elem_of_nil].
  - rewrite elem_of_cons. destruct (decide (e.1 = k)) as [He|He].
    + split; [by left|eauto].
    + rewrite IH. split; [by right|]. by intros [?|?].
Qed.

Lemma min_by_spec key best l :
  min_by key best l ∈ best :: l
  ∧ ∀ x, x ∈ best :: l -> (key (min_by key best l) <= key x)%R.
Proof.
  revert best. induction l as [|y l IH]; intros best; simpl.
  - split; [by left|]. intros x ->%list_elem_of_singleton. lra.
  - destruct (Rltb (key y) (key best)) eqn:Hlt.
    + apply Rltb_true in Hlt. destruct (IH y) as [Hin Hmin]. split.
      * by right.
      * intros x [->|Hx]%elem_of_cons; [|by apply Hmin].
        specialize (Hmin y (ltac:(by left))). lra.
    + apply Rltb_false in Hlt. destruct (IH best) as [Hin Hmin]. split.
      * apply elem_of_cons in Hin as [->|Hin]; [by left|by right; right].
      * intros x [->|[->|Hx]%elem_of_cons]%elem_of_cons.
        -- apply Hmin. by left.
        -- specialize (Hmin best (ltac:(by left))). lra.
        -- apply Hmin. by right.
Qed.

Lemma nearest_neighbor_spec t p n :
  nearest_neighbor t p = Ok n ->
  is_Some (tree_get t n)
  ∧ ∀ m, is_Some (tree_get t m) -> (distance n p <= distance m p)%R.
Proof.
  unfold nearest_neighbor. destruct (fst <$> t) as [|k keys] eqn:Hk; [done|].
  intros [= <-]. destruct (min_by_spec (fun n => distance n p) k keys) as [Hin Hmin].
  split.
  - apply tree_get_keys. by rewrite Hk.
  - intros m Hm%tree_get_keys. rewrite Hk in Hm. by apply Hmin.
Qed.

Lemma nearest_neighbor_total t p : t ≠ [] -> ∃ n, nearest_neighbor t p = Ok n.
Proof. unfold nearest_neighbor. destruct t; [done|]. simpl. eauto. Qed.

Lemma distance_nonneg a b : (0 <= distance a b)%R.
Proof. apply norm2_nonneg. Qed.

Lemma distance_same a : distance a a = 0%R.
Proof. apply norm2_diag. Qed.

Lemma norm2_scaled dx dy s :
  (0 <= s)%R -> norm2 dx dy ≠ 0%R ->
  norm2 (dx / norm2 dx dy * s) (dy / norm2 dx dy * s) = s.
Proof.
  intros Hs Hd. unfold norm2 at 1.
  assert (norm2 dx dy * norm2 dx dy = dx * dx + dy * dy)%R as Hsq.
  { unfold norm2. apply sqrt_sqrt. nra. }
  replace (dx / norm2 dx dy * s * (dx / norm2 dx dy * s)
           + dy / norm2 dx dy * s * (dy / norm2 dx dy * s))%R with (s * s)%R.
  - by apply sqrt_square.
  - transitivity ((dx * dx + dy * dy) / (norm2 dx dy * norm2 dx dy) * (s * s))%R.
    + rewrite <- Hsq. field. done.
    + field. done.
Qed.

(** [steer] moves at most [step_size] away from [nearest]. *)
Lemma steer_reach (self : RRT) nearest sampled p :
  (0 <= step_size self)%R -> steer self nearest sampled = Some p ->
  (distance p nearest <= step_size self)%R.
Proof.
  intros Hs. unfold steer. simpl.
  destruct (Rleb _ _) eqn:Hle.
  - intros [= <-]. by apply Rleb_true in Hle.
  - destruct (decide (norm2 _ _ = 0%R)) as [|Hd]; [done|].
    intros [= <-]. unfold distance. simpl.
    replace (nearest.1 + (sampled.1 - nearest.1)
               / norm2 (sampled.1 - nearest.1) (sampled.2 - nearest.2)
               * step_size self - nearest.1)%R
      with ((sampled.1 - nearest.1)
              / norm2 (sampled.1 - nearest.1) (sampled.2 - nearest.2)
              * step_size self)%R by lra.
    replace (nearest.2 + (sampled.2 - nearest.2)
               / norm2 (sampled.1 - nearest.1) (sampled.2 - nearest.2)
               * step_size self - nearest.2)%R
      with ((sampled.2 - nearest.2)
              / norm2 (sampled.1 - nearest.1) (sampled.2 - nearest.2)
              * step_size self)%R by lra.
    rewrite norm2_scaled by done. lra.
Qed.

(** *** What [plan] keeps true of the tree *)

Lemma hops_lookup ok p :
  hops ok p <-> ∀ i a b, p !! i = Some a -> p !! S i = Some b -> ok a b.
Proof.
  induction p as [|x p IH]; [done|].
  destruct p as [|y p].
  - split; [|done]. intros _ [|i] a b; done.
  - change (hops ok (x :: y :: p)) with (ok x y ∧ hops ok (y :: p)).
    rewrite IH. split.
    + intros [Hxy H] [|i] a b; simpl.
      * by intros [= <-] [= <-].
      * apply H.
    + intros H. split; [by apply (H 0%nat)|]. intros i a b. apply (H (S i)).
Qed.

Lemma hops_snoc ok p a b :
  hops ok (p ++ [a]) -> ok a b -> hops ok (p ++ [a; b]).
Proof.
  induction p as [|x p IH]; simpl; [by intros _ ?|].
  destruct p as [|y p]; simpl in *; [tauto|]. intros [Hxy H] Hab.
  split; [done|]. by apply IH.
Qed.

Lemma hops_reverse ok p : hops (flip ok) p -> hops ok (reverse p).
Proof.
  induction p as [|x p IH]; [done|]. rewrite reverse_cons.
  destruct p as [|y p]; [done|].
  intros [Hxy H]. specialize (IH H). rewrite reverse_cons in *.
  rewrite <- app_assoc. simpl. by apply hops_snoc.
Qed.

Lemma grown_initial self start : grown self start [(start, None)].
Proof.
  split; intros n; simpl; destruct (decide (start = n)); done.
Qed.

Lemma grown_set self start t new nearest :
  grown self start t -> is_Some (tree_get t nearest) ->
  is_collision_free self new = true ->
  (distance new nearest <= step_size self)%R ->
  grown self start (tree_set t new (Some nearest)).
Proof.
  intros [Hlink Hroot] Hn Hfree Hd. split.
  - intros n parent. rewrite tree_get_set.
    destruct (decide (new = n)) as [<-|Hne].
    + intros [= <-]. rewrite tree_get_set.
      split; [|done]. by destruct (decide (new = nearest)).
    + intros H. destruct (Hlink n parent H) as (Hp & Hf & Hl).
      split; [|done]. rewrite tree_get_set. by destruct (decide (new = parent)).
  - intros n. rewrite tree_get_set. destruct (decide (new = n)); [done|]. apply Hroot.
Qed.

(** The walk up the parents, as [climb] appends it. *)
Lemma climb_spec self start fuel t e path0 path :
  grown self start t -> climb fuel t e path0 = Ok path ->
  ∃ ext, path = path0 ++ ext
         ∧ hops (fun child parent =>
                   is_collision_free self child = true
                   ∧ (distance child parent <= step_size self)%R) (e :: ext)
         ∧ (is_Some (tree_get t e) -> last (e :: ext) = Some start).
Proof.
  intros Hg. revert e path0. induction fuel as [|fuel IH]; intros e path0; [done|].
  simpl. destruct (tree_get t e) as [[parent|]|] eqn:He.
  - intros Hc. destruct (IH _ _ Hc) as (ext & -> & Hh & Hl).
    destruct Hg as [Hlink Hroot]. destruct (Hlink e parent He) as (Hp & Hf & Hd).
    exists (parent :: ext). rewrite <- app_assoc. split; [done|].
    split; [by split|]. intros _. by apply Hl.
  - intros [= <-]. exists []. rewrite app_nil_r. split; [done|]. split; [done|].
    intros _. simpl. f_equal. by apply Hg.
  - intros [= <-]. exists []. rewrite app_nil_r. split; [done|]. split; [done|].
    by intros [? ?].
Qed.

Lemma reconstruct_spec self start fuel t e path :
  grown self start t -> is_Some (tree_get t e) ->
  _reconstruct_path fuel t e = Ok path ->
  head path = Some start ∧ last path = Some e
  ∧ hops (fun a b => is_collision_free self b = true
                     ∧ (distance b a <= step_size self)%R) path.
Proof.
  intros Hg He. unfold _reconstruct_path.
  intros (p & Hc & [= <-])%bind_Ok.
  destruct (climb_spec self start _ _ _ _ _ Hg Hc) as (ext & -> & Hh & Hl).
  change ([e] ++ ext) with (e :: ext).
  split; [|split].
  - rewrite head_reverse. by apply Hl.
  - by rewrite last_reverse.
  - by apply hops_reverse.
Qed.

(** A path comes back only under a positive [step_size]. *)
Lemma plan_step_positive fuel rnd self goal n t k path :
  plan fuel rnd self goal n t k = Ok (Some path) -> (0 < step_size self)%R.
Proof.
  revert t k. induction n as [|n IH]; intros t k; [done|]. simpl.
  destruct (sample_point rnd self goal k) as [sampled k'].
  intros (nearest & _ & H)%bind_Ok.
  destruct (steer self nearest sampled) as [new|]; [|done].
  destruct (is_collision_free self new); [|by apply IH in H].
  destruct (Rltb _ _) eqn:Hlt; [|by apply IH in H].
  apply Rltb_true in Hlt. pose proof (distance_nonneg new goal). lra.
Qed.

Lemma plan_spec fuel rnd self start goal n t k path :
  (0 <= step_size self)%R -> grown self start t ->
  plan fuel rnd self goal n t k = Ok (Some path) ->
  head path = Some start
  ∧ (∃ e, last path = Some e ∧ (distance e goal < step_size self)%R)
  ∧ hops (fun a b => is_collision_free self b = true
                     ∧ (distance b a <= step_size self)%R) path.
Proof.
  intros Hs. revert t k. induction n as [|n IH]; intros t k Hg; [done|]. simpl.
  destruct (sample_point rnd self goal k) as [sampled k'].
  intros (nearest & Hn & H)%bind_Ok.
  destruct (steer self nearest sampled) as [new|] eqn:Hnew; [|done].
  destruct (is_collision_free self new) eqn:Hfree; [|by apply (IH t k')].
  apply nearest_neighbor_spec in Hn as [Hn _].
  pose proof (steer_reach self _ _ _ Hs Hnew) as Hd.
  pose proof (grown_set self start t new nearest Hg Hn Hfree Hd) as Hg'.
  destruct (Rltb _ _) eqn:Hlt; [|by apply (IH (tree_set t new (Some nearest)) k')].
  apply Rltb_true in Hlt.
  apply bind_Ok in H as (p & Hrec & [= <-]).
  assert (is_Some (tree_get (tree_set t new (Some nearest)) new)) as Hkey.
  { rewrite tree_get_set. by rewrite decide_True. }
  destruct (reconstruct_spec self start _ _ _ _ Hg' Hkey Hrec) as (Hh & Hl & Hhops).
  split; [done|]. split; [eauto|done].
Qed.

(** *** Start and goal coincide *)

Lemma climb_self_parent fuel p path : climb fuel [(p, Some p)] p path = Diverge.
Proof.
  revert path. induction fuel as [|fuel IH]; intros path; [done|].
  simpl. rewrite decide_True by done. apply IH.
Qed.

End RRTFacts.

(** ** RRT* *)

Module RRTStarFacts.
Import RRTStar RRTStarTree.

(** On a map with at least one cell the pixel of any world point is a
    cell of the map. *)
Lemma world2map_in_bounds (self : RRTStar) (xw yw : R) :
  (0 < shape0 (map self))%Z -> (0 < shape1 (map self))%Z ->
  (0 <= (world2map self xw yw).1 < shape1 (map self))%Z
  ∧ (0 <= (world2map self xw yw).2 < shape0 (map self))%Z.
Proof. intros H0 H1. unfold world2map. simpl. lia. Qed.

Lemma is_valid_point_cell (self : RRTStar) (pt : point) (parent : option point) :
  (0 < shape0 (map self))%Z -> (0 < shape1 (map self))%Z ->
  is_valid_point self pt parent = true
  <-> np_item (map self) (world2map self pt.1 pt.2).2 (world2map self pt.1 pt.2).1 ≠ 0%Z.
Proof.
  intros H0 H1. rewrite PlannerFacts.is_valid_point_spec.
  pose proof (world2map_in_bounds self pt.1 pt.2 H0 H1). tauto.
Qed.

(** *** The check that [generate_new_point] makes *)

Lemma trunc_lower x n : (0 <= n)%Z -> (IZR n <= x)%R -> (n <= trunc x)%Z.
Proof.
  intros Hn Hx. unfold trunc.
  destruct (Rle_dec 0 x) as [_|H]; [|exfalso; apply H; apply (IZR_le 0) in Hn; lra].
  destruct (base_Int_part x) as [_ Hlow].
  assert (IZR (n - 1) < IZR (Int_part x))%R as Hlt by (rewrite minus_IZR; lra).
  apply lt_IZR in Hlt. lia.
Qed.

Lemma trunc_nonpos x : (x <= 0)%R -> (trunc x <= 0)%Z.
Proof.
  intros Hx. unfold trunc. destruct (Rle_dec 0 x) as [H0|H0].
  - assert (x = 0%R) as -> by lra. change 0%R with (IZR 0). rewrite Int_part_IZR. lia.
  - destruct (base_Int_part (- x)) as [_ Hlow].
    assert (IZR (-1) < IZR (Int_part (- x)))%R as Hlt by (simpl; lra).
    apply lt_IZR in Hlt. lia.
Qed.

(** A pixel right of column 2 and below row 1, read as a world point, is
    mapped to the last column of the first row. *)
Lemma world2map_of_pixel (self : RRTStar) (px py : Z) :
  (0 < shape0 (map self))%Z -> (0 < shape1 (map self))%Z ->
  (3 <= px)%Z -> (2 <= py)%Z ->
  world2map self (IZR px) (IZR py) = ((shape1 (map self) - 1)%Z, 0%Z).
Proof.
  intros H0 H1 Hpx Hpy. unfold world2map.
  apply IZR_le in Hpx, Hpy.
  assert (0 <= IZR (shape1 (map self) - 1))%R as Hw by (apply (IZR_le 0); lia).
  assert (0 <= IZR (shape0 (map self) - 1))%R as Hh by (apply (IZR_le 0); lia).
  assert (shape1 (map self) - 1
          <= trunc ((IZR px - world_x_min) / (world_x_max - world_x_min)
                    * IZR (shape1 (map self) - 1)))%Z as Hcol.
  { apply trunc_lower; [lia|].
    assert (1 <= (IZR px - world_x_min) / (world_x_max - world_x_min))%R.
    { unfold world_x_min, world_x_max.
      apply (Rmult_le_reg_r (242 / 100 - - (216 / 100))); [lra|].
      replace ((IZR px - - (216 / 100)) / (242 / 100 - - (216 / 100))
               * (242 / 100 - - (216 / 100)))%R
        with (IZR px - - (216 / 100))%R by (field; lra).
      lra. }
    nra. }
  assert (trunc ((world_y_max - IZR py) / (world_y_max - world_y_min)
                 * IZR (shape0 (map self) - 1)) <= 0)%Z as Hrow.
  { apply trunc_nonpos.
    assert ((world_y_max - IZR py) / (world_y_max - world_y_min) <= 0)%R.
    { unfold world_y_min, world_y_max.
      apply (Rmult_le_reg_r (178 / 100 - - (407 / 100))); [lra|].
      replace ((178 / 100 - IZR py) / (178 / 100 - - (407 / 100))
               * (178 / 100 - - (407 / 100)))%R
        with (178 / 100 - IZR py)%R by (field; lra).
      lra. }
    nra. }
  f_equal; lia.
Qed.

(** With a non-zero distance the answer is the new point or the nearest
    node, as the check on the pixel of the new point, read as a world point,
    decides. *)
Lemma generate_new_point_decided (self : RRTStar) (nearest random_point : point) :
  norm2 (random_point.1 - nearest.1) (random_point.2 - nearest.2) ≠ 0%R ->
  generate_new_point self nearest random_point
  = Ok (if is_valid_point self
             (IZR (world2map self (Observe.new_point_world self nearest random_point).1
                             (Observe.new_point_world self nearest random_point).2).1,
              IZR (world2map self (Observe.new_point_world self nearest random_point).1
                             (Observe.new_point_world self nearest random_point).2).2)
             (Some nearest)
        then Observe.new_point_world self nearest random_point else nearest).
Proof.
  intros Hlen. unfold generate_new_point, Observe.new_point_world.
  cbv zeta. cbn [fst snd].
  rewrite bool_decide_eq_false_2 by done. by destruct (is_valid_point _ _ _).
Qed.

(** The check on a pixel right of column 2 and below row 1 reads the last
    cell of the first row. *)
Lemma is_valid_point_of_pixel (self : RRTStar) (px py : Z) parent :
  (0 < shape0 (map self))%Z -> (0 < shape1 (map self))%Z ->
  (3 <= px)%Z -> (2 <= py)%Z ->
  is_valid_point self (IZR px, IZR py) parent
  = negb (bool_decide (np_item (map self) 0 (shape1 (map self) - 1) = 0%Z)).
Proof.
  intros H0 H1 Hx Hy.
  pose proof (is_valid_point_cell self (IZR px, IZR py) parent H0 H1) as Hv.
  cbn [fst snd] in Hv. rewrite world2map_of_pixel in Hv by done. cbn [fst snd] in Hv.
  case_bool_decide as Hc; simpl.
  - destruct (is_valid_point _ _ _); [|done]. by destruct (proj1 Hv).
  - by apply Hv.
Qed.

Lemma trunc_exact x n : (0 <= n)%Z -> (IZR n <= x < IZR n + 1)%R -> trunc x = n.
Proof.
  intros Hn [Hl Hu]. unfold trunc.
  destruct (Rle_dec 0 x) as [_|H]; [|exfalso; apply H; apply (IZR_le 0) in Hn; lra].
  symmetry. apply Int_part_spec. lra.
Qed.

Lemma init_fresh load_map start goal map_path occupancy_grid tr d eb mn self :
  init load_map start goal map_path occupancy_grid tr d eb mn = Ok self ->
  nodes self = [start] ∧ edges self = [] ∧ RRTStar.start self = start
  ∧ RRTStar.goal self = goal.
Proof.
  unfold init. intros (m & _ & [= <-])%bind_Ok. done.
Qed.

Lemma init_without_map load_map start goal tr d eb mn :
  init load_map start goal None None tr d eb mn = Raise ValueError.
Proof. reflexivity. Qed.

Lemma trace_back_no_edges fuel (self : RRTStar) node path :
  edges self = [] -> node ≠ start self ->
  trace_back (S fuel) self node path = Ok None.
Proof.
  intros He Hn. simpl. rewrite decide_False by done. by rewrite He.
Qed.

Lemma get_final_path_ends fuel (self : RRTStar) path :
  get_final_path fuel self = Ok (Some path) -> last path = Some (goal self).
Proof.
  unfold get_final_path.
  intros (node & _ & (traced & _ & H)%bind_Ok)%bind_Ok.
  destruct traced as [p|]; [|done]. injection H as <-.
  destruct (decide (last _ = Some (goal self))) as [Hl|Hl]; [done|].
  apply last_snoc.
Qed.

End RRTStarFacts.

(** ** The geo-referenced wrappers *)

Module GeoFacts.

Lemma rrt_constructor_call :
  Call.bind_call (Wrapper.init_signature Wrapper.RRT) 3 ["step_size"; "max_iter"]
  = Raise TypeError.
Proof. vm_compute. reflexivity. Qed.

Lemma rrt_star_constructor_call :
  Call.bind_call (Wrapper.init_signature Wrapper.RRTStar) 0
    ["map_path"; "start"; "goal"; "max_nodes"; "delta"] = Ok ().
Proof. vm_compute. reflexivity. Qed.

Lemma fails_bind {A B : Type} (m : outcome A) (f : A -> outcome B) :
  (∀ a, fails (f a)) -> fails (m ≫= f).
Proof. intros H. destruct m; simpl; [apply H|done|done]. Qed.

(** Once the calls on [transform_func] have returned, the constructor of
    [RRTStar] raises. *)
Lemma geo_rrt_star_constructor load_map run (self : GeoAwareRRTStar.GeoAwareRRTStar)
    (start_latlon goal_latlon : point) start_rc goal_rc start_xy goal_xy :
  GeoAwareRRTStar.latlon_to_rc (GeoAwareRRTStar.transform_func self)
    start_latlon.1 start_latlon.2 = Ok start_rc ->
  GeoAwareRRTStar.latlon_to_rc (GeoAwareRRTStar.transform_func self)
    goal_latlon.1 goal_latlon.2 = Ok goal_rc ->
  GeoAwareRRTStar.rc_to_world (GeoAwareRRTStar.transform_func self)
    start_rc.1 start_rc.2 = Ok start_xy ->
  GeoAwareRRTStar.rc_to_world (GeoAwareRRTStar.transform_func self)
    goal_rc.1 goal_rc.2 = Ok goal_xy ->
  GeoAwareRRTStar.find_path load_map run self start_latlon goal_latlon = Raise ValueError.
Proof.
  intros H1 H2 H3 H4. unfold GeoAwareRRTStar.find_path.
  rewrite H1, bind_Ok_l, H2, bind_Ok_l, H3, bind_Ok_l, H4, bind_Ok_l.
  rewrite rrt_star_constructor_call, bind_Ok_l.
  by rewrite RRTStarFacts.init_without_map.
Qed.

End GeoFacts.

(** ** The synthesizer: waypoint cells and planning *)

Module SynthFacts.
Import Sim SimFacts.

Lemma clamp_range v hi : (0 <= hi)%Z -> (0 <= clamp v hi <= hi)%Z.
Proof. unfold clamp. lia. Qed.

(** One cell per waypoint, each inside the elevation grid. *)
Lemma build_path_spec self rcs :
  _build_path self = Ok rcs ->
  length rcs = length (waypoints self)
  ∧ ((0 < shape0 (elevation self))%Z -> (0 < shape1 (elevation self))%Z ->
     ∀ rc, rc ∈ rcs ->
       (0 <= rc.1 < shape0 (elevation self))%Z ∧ (0 <= rc.2 < shape1 (elevation self))%Z).
Proof.
  unfold _build_path. intros H.
  refine (for_each_prefix_inv _
           (fun pre rcs =>
              length rcs = length pre
              ∧ ((0 < shape0 (elevation self))%Z -> (0 < shape1 (elevation self))%Z ->
                 ∀ rc, rc ∈ rcs ->
                   (0 <= rc.1 < shape0 (elevation self))%Z
                   ∧ (0 <= rc.2 < shape1 (elevation self))%Z))
           (waypoints self) _ [] rcs _ H);
    [|split; [done|intros _ _ rc Hrc; by apply elem_of_nil in Hrc]].
  intros pre wp s s' _ [Hlen Hin] (cr & _ & [= <-])%bind_Ok. split.
  - rewrite !length_app. simpl. lia.
  - intros H0 H1 rc [Hrc| ->%list_elem_of_singleton]%elem_of_app; [by apply Hin|].
    simpl.
    pose proof (clamp_range (floor cr.2) (shape0 (elevation self) - 1)).
    pose proof (clamp_range (floor cr.1) (shape1 (elevation self) - 1)). lia.
Qed.

(** With fewer than two waypoints there is nothing to simulate. *)
Lemma run_simulation_few fuel w self rcs :
  _build_path self = Ok rcs -> length (waypoints self) < 2 ->
  run_simulation fuel w self = Raise ValueError.
Proof.
  intros Hb Hlen. unfold run_simulation. rewrite Hb, bind_Ok_l.
  destruct (build_path_spec self rcs Hb) as [Hl _].
  by rewrite bool_decide_eq_true_2 by lia.
Qed.

(** *** The run as a walk through the planned cells *)

Lemma segment_answers fuel w self acc pair path :
  Observe.answers w self pair path ->
  segment fuel w self acc pair
  = for_each (fun acc target => walk_to fuel w self target acc) acc
             (grid_to_latlon self <$> path).
Proof.
  intros (r & Hr & <-). unfold segment. rewrite Hr, bind_Ok_l.
  by destruct r as [[|x l]|].
Qed.

Lemma segments_answers fuel w self pairs paths acc :
  Forall2 (Observe.answers w self) pairs paths ->
  segments fuel w self acc pairs
  = for_each (fun acc target => walk_to fuel w self target acc) acc
             (grid_to_latlon self <$> concat paths).
Proof.
  intros H. revert acc. unfold segments.
  induction H as [|pair path pairs paths Hp _ IH]; intros acc; [done|].
  cbn [for_each concat]. rewrite (segment_answers _ _ _ _ _ path Hp).
  rewrite fmap_app, SimFacts.for_each_app.
  destruct (for_each _ acc (grid_to_latlon self <$> path)) as [acc'| |]; simpl; [|done..].
  apply IH.
Qed.

Lemma consecutive_length {A : Type} (l : list A) :
  consecutive l ≠ [] -> (2 <= length l)%nat.
Proof. destruct l as [|a [|b l]]; simpl; [done..|lia]. Qed.

Lemma walk_to_raises_nothing fuel w self target acc :
  Observe.raises_nothing (walk_to fuel w self target acc).
Proof.
  revert acc. induction fuel as [|fuel IH]; intros acc; [done|]. simpl.
  destruct (has_arrived w acc.1 target); [done|apply IH].
Qed.

Lemma walks_raise_nothing fuel w self targets acc :
  Observe.raises_nothing
    (for_each (fun acc target => walk_to fuel w self target acc) acc targets).
Proof.
  revert acc. induction targets as [|t targets IH]; intros acc; [done|]. simpl.
  pose proof (walk_to_raises_nothing fuel w self t acc) as H.
  destruct (walk_to fuel w self t acc) as [acc'| |]; simpl; [apply IH|done..].
Qed.

(** A run whose planner answers every pair is the walk through the cells of
    the answers, one after the other. *)
Lemma run_simulation_answers fuel w self cells paths :
  _build_path self = Ok cells -> consecutive cells ≠ [] ->
  Forall2 (Observe.answers w self) (consecutive cells) paths ->
  run_simulation fuel w self
  = (acc ← for_each (fun acc target => walk_to fuel w self target acc)
            (get_start_location self, []) (grid_to_latlon self <$> concat paths);
     Ok {| trace_drone_id := drone_id self; data := acc.2 |}).
Proof.
  intros Hcells Hne Hans. unfold run_simulation. rewrite Hcells, bind_Ok_l.
  apply consecutive_length in Hne. rewrite bool_decide_eq_false_2 by lia.
  by rewrite (segments_answers _ _ _ _ paths).
Qed.

(** *** A run over a cell without data *)

Lemma gapped_cells : _build_path Cases.gapped = Ok [(0, 0); (0, 1); (0, 3); (0, 6)]%Z.
Proof. unfold _build_path. simpl. rewrite !floor_IZR. reflexivity. Qed.

Lemma gap_plan_first run :
  Wrapper.find_segment_path run Cases.gap_wrapper (0, 0)%Z (0, 1)%Z
  = Ok (Some [(0, 0); (0, 1)]%Z).
Proof. vm_compute. reflexivity. Qed.

Lemma gap_plan_gap run :
  Wrapper.find_segment_path run Cases.gap_wrapper (0, 1)%Z (0, 3)%Z = Ok None.
Proof. vm_compute. reflexivity. Qed.

Lemma gap_plan_last run :
  Wrapper.find_segment_path run Cases.gap_wrapper (0, 3)%Z (0, 6)%Z
  = Ok (Some [(0, 3); (0, 4); (0, 5); (0, 6)]%Z).
Proof. vm_compute. reflexivity. Qed.

Lemma gapped_step st (target : point) :
  lon (step_towards Cases.gapped st target None)
  = if Rlt_dec target.2 (lon st) then (lon st - 4 * (1000 / 1000))%R
    else (lon st + 4 * (1000 / 1000))%R.
Proof.
  unfold step_towards. simpl.
  destruct (Rlt_dec target.2 (lon st)) as [H|H].
  - destruct (Rlt_dec (-90) 0) as [_|Hn]; [done|lra].
  - destruct (Rlt_dec 90 0) as [Hn|_]; [lra|done].
Qed.

Lemma gap1_lon : lon Cases.gap1 = 1%R.
Proof.
  unfold Cases.gap1. rewrite gapped_step. simpl.
  destruct (Rlt_dec 0 (-3)) as [H|_]; lra.
Qed.

Lemma gap2_lon : lon Cases.gap2 = 5%R.
Proof.
  unfold Cases.gap2. rewrite gapped_step, gap1_lon. simpl.
  destruct (Rlt_dec 4 1) as [H|_]; lra.
Qed.

(** The walk of [gapped] through the cells on both sides of the gap. *)
Lemma gapped_walk clock :
  for_each (fun acc target => walk_to 10 (Scenario.line_world clock) Cases.gapped target acc)
           (get_start_location Cases.gapped, [])
           [(0, 0); (0, 1); (0, 3); (0, 4); (0, 5); (0, 6)]%R
  = Ok (Cases.gap2, [gps_point (Scenario.line_world clock) 0 Cases.gap1;
                     gps_point (Scenario.line_world clock) 1 Cases.gap2]).
Proof.
  pose proof gap1_lon as H1. pose proof gap2_lon as H2.
  cbn [for_each].
  rewrite SimFacts.walk_to_step.
  2:{ rewrite SimFacts.has_arrived_line. simpl. apply Rleb_false. rewrite Rabs_left; lra. }
  cbn [fst snd app length]. fold Cases.gap1.
  rewrite SimFacts.walk_to_arrived.
  2:{ rewrite SimFacts.has_arrived_line. cbn [fst snd]. rewrite H1. apply Rleb_true.
      rewrite Rabs_pos_eq; lra. }
  rewrite bind_Ok_l.
  rewrite SimFacts.walk_to_arrived.
  2:{ rewrite SimFacts.has_arrived_line. cbn [fst snd]. rewrite H1. apply Rleb_true.
      rewrite Rabs_pos_eq; lra. }
  rewrite bind_Ok_l.
  rewrite SimFacts.walk_to_arrived.
  2:{ rewrite SimFacts.has_arrived_line. cbn [fst snd]. rewrite H1. apply Rleb_true.
      rewrite Rabs_left; lra. }
  rewrite bind_Ok_l.
  rewrite SimFacts.walk_to_step.
  2:{ rewrite SimFacts.has_arrived_line. cbn [fst snd]. rewrite H1. apply Rleb_false.
      rewrite Rabs_left; lra. }
  cbn [fst snd app length]. fold Cases.gap2.
  rewrite SimFacts.walk_to_arrived.
  2:{ rewrite SimFacts.has_arrived_line. cbn [fst snd]. rewrite H2. apply Rleb_true.
      rewrite Rabs_pos_eq; lra. }
  rewrite bind_Ok_l.
  rewrite SimFacts.walk_to_arrived.
  2:{ rewrite SimFacts.has_arrived_line. cbn [fst snd]. rewrite H2. apply Rleb_true.
      rewrite Rabs_pos_eq; lra. }
  rewrite bind_Ok_l.
  rewrite SimFacts.walk_to_arrived.
  2:{ rewrite SimFacts.has_arrived_line. cbn [fst snd]. rewrite H2. apply Rleb_true.
      rewrite Rabs_left; lra. }
  reflexivity.
Qed.

(** *** Overshooting the target *)

Lemma hopper_step s d st (target : point) :
  lon (step_towards (Cases.hopper s d) st target None)
  = if Rlt_dec target.2 (lon st) then (lon st - s * (1000 / 1000))%R
    else (lon st + s * (1000 / 1000))%R.
Proof.
  unfold step_towards. simpl.
  destruct (Rlt_dec target.2 (lon st)) as [H|H].
  - destruct (Rlt_dec (-90) 0) as [_|Hn]; [done|lra].
  - destruct (Rlt_dec 90 0) as [Hn|_]; [lra|done].
Qed.

(** A step longer than the drone is away from its target, by more than the
    arrival threshold on both sides, throws it from one side of the target
    to the other and back. *)
Lemma hopper_walk s d clock fuel acc :
  (2 < d)%R -> (2 < s - d)%R -> lon acc.1 = d ∨ lon acc.1 = (d - s)%R ->
  walk_to fuel (Scenario.line_world clock) (Cases.hopper s d) (0, 0)%R acc = Diverge.
Proof.
  intros Hd Hs. revert acc. induction fuel as [|fuel IH]; intros acc Hlon; [done|].
  rewrite walk_to_step.
  - apply IH. cbn [fst]. rewrite hopper_step. cbn [snd].
    destruct Hlon as [-> | ->].
    + destruct (Rlt_dec 0 d) as [_|H]; [|lra]. right. lra.
    + destruct (Rlt_dec 0 (d - s)) as [H|_]; [lra|]. left. lra.
  - unfold has_arrived. simpl. apply Rleb_false.
    destruct Hlon as [-> | ->].
    + rewrite Rabs_pos_eq; lra.
    + rewrite Rabs_left; lra.
Qed.

Lemma hopper_cells s d : _build_path (Cases.hopper s d) = Ok [(0, 0); (0, 1)]%Z.
Proof. unfold _build_path. simpl. rewrite !floor_IZR. reflexivity. Qed.

Lemma hopper_run s d clock fuel :
  (2 < d)%R -> (2 < s - d)%R ->
  run_simulation fuel (Scenario.line_world clock) (Cases.hopper s d) = Diverge.
Proof.
  intros Hd Hs. unfold run_simulation. rewrite hopper_cells, bind_Ok_l.
  simpl bool_decide. cbn [consecutive segments for_each].
  unfold segment at 1.
  change (Sim.planner (Cases.hopper s d)) with (Scenario.row_wrapper [[0; 0]]%Z).
  change (((0, 0)%Z, (0, 1)%Z).1) with (0, 0)%Z.
  change (((0, 0)%Z, (0, 1)%Z).2) with (0, 1)%Z.
  rewrite free_row_plan, !bind_Ok_l.
  cbn [absent].
  change (grid_to_latlon (Cases.hopper s d)
            <$> default [] (Some [(0, 0); (0, 1)]%Z)) with [(0, 0)%R; (0, 1)%R].
  cbn [for_each].
  rewrite hopper_walk; [done|done|done|]. left. reflexivity.
Qed.

End SynthFacts.

(** ** The graph of the tour solver *)

Module GraphFacts.
Import Tsp MatrixInv TspFacts.

Lemma square_cell n m i j : square n m -> i < n -> j < n -> is_Some (cell m i j).
Proof.
  intros [Hlen Hrows] Hi Hj. unfold cell.
  destruct (lookup_lt_is_Some_2 m i) as [row Hrow]; [lia|]. rewrite Hrow. simpl.
  apply lookup_lt_is_Some_2.
  pose proof (Forall_lookup_1 _ _ _ _ Hrows Hrow) as Hl. simpl in Hl. lia.
Qed.

(** The inner loop adds the edges of row [i]. *)
Lemma graph_row n m i G0 :
  square n m -> i < n ->
  ∃ G, for_each (fun G j => weight ← or_raise IndexError (cell m i j);
                            Ok (G ++ [(i, j, weight)])) G0 (seq 0 i) = Ok G
       ∧ (∀ e, e ∈ G0 -> e ∈ G)
       ∧ ∀ j w, j < i -> cell m i j = Some w -> (i, j, w) ∈ G.
Proof.
  intros Hsq Hi.
  destruct (for_each_prefix_total
              (fun G j => weight ← or_raise IndexError (cell m i j);
                          Ok (G ++ [(i, j, weight)]))
              (fun pre G => (∀ e, e ∈ G0 -> e ∈ G)
                            ∧ ∀ j w, j ∈ pre -> cell m i j = Some w -> (i, j, w) ∈ G)
              (seq 0 i)) with (s := G0) as (G & Hrun & Hold & Hnew).
  - intros pre j G Hj%elem_of_seq [Hold Hnew].
    destruct (square_cell n m i j Hsq) as [w Hw]; [lia..|].
    rewrite Hw. simpl. eexists. split; [done|]. split.
    + intros e He. apply elem_of_app. left. by apply Hold.
    + intros j' w' [Hj'| ->%list_elem_of_singleton]%elem_of_app Hc.
      * apply elem_of_app. left. by apply Hnew.
      * apply elem_of_app. right. apply list_elem_of_singleton. congruence.
  - split; [done|]. by intros j w ?%elem_of_nil.
  - exists G. split; [done|]. split; [done|].
    intros j w Hj. apply Hnew, elem_of_seq. lia.
Qed.

(** A square matrix gives the complete graph on its indices. *)
Lemma build_graph_complete n m :
  square n m ->
  ∃ G, build_graph_from_matrix m = Ok G
       ∧ ∀ i j w, j < i -> i < n -> cell m i j = Some w -> (i, j, w) ∈ G.
Proof.
  intros Hsq. unfold build_graph_from_matrix.
  destruct (for_each_prefix_total
              (fun G i => for_each (fun G j => weight ← or_raise IndexError (cell m i j);
                                               Ok (G ++ [(i, j, weight)])) G (seq 0 i))
              (fun pre G => ∀ i j w, i ∈ pre -> j < i -> cell m i j = Some w -> (i, j, w) ∈ G)
              (seq 0 (length m))) with (s := @nil (nat * nat * R)) as (G & Hrun & HG).
  - intros pre i G0 Hi%elem_of_seq HG0.
    destruct (graph_row n m i G0 Hsq) as (G & Hrun & Hold & Hnew).
    { destruct Hsq as [<- _]. lia. }
    exists G. split; [done|].
    intros i' j w [Hi'| ->%list_elem_of_singleton]%elem_of_app Hj Hc.
    + apply Hold. by apply HG0.
    + by apply Hnew.
  - by intros i j w ?%elem_of_nil.
  - exists G. split; [done|]. intros i j w Hj Hi. apply HG; [|done].
    apply elem_of_seq. destruct Hsq as [-> _]. lia.
Qed.

End GraphFacts.

(** ** Ranking and de-duplicating the buildings *)

Module DataFacts.
Import Utils Builder.

Section Sorting.
Context {P : Type}.

Local Abbreviation desc := (fun a b : R * P => (b.1 <= a.1)%R).

Lemma insert_desc_perm (x : R * P) l : insert_desc x l ≡ₚ x :: l.
Proof.
  induction l as [|y l IH]; simpl; [done|].
  destruct (Rltb x.1 y.1); [|done].
  rewrite IH. apply Permutation_swap.
Qed.

Lemma sort_desc_perm (l : list (R * P)) : sort_desc l ≡ₚ l.
Proof.
  induction l as [|x l IH]; simpl; [done|].
  unfold sort_desc in *. simpl. by rewrite insert_desc_perm, IH.
Qed.

Lemma insert_desc_sorted (x : R * P) l :
  StronglySorted desc l -> StronglySorted desc (insert_desc x l).
Proof.
  induction 1 as [|y l Hl IH Hy]; simpl.
  - repeat constructor.
  - destruct (Rltb x.1 y.1) eqn:Hlt.
    + apply Rltb_true in Hlt. constructor; [done|].
      rewrite insert_desc_perm. constructor; [simpl; lra|done].
    + apply Rltb_false in Hlt. constructor; [by constructor|].
      constructor; [done|].
      eapply Forall_impl; [exact Hy|]. simpl. intros z Hz. lra.
Qed.

Lemma sort_desc_sorted (l : list (R * P)) : StronglySorted desc (sort_desc l).
Proof.
  induction l as [|x l IH]; [constructor|]. by apply insert_desc_sorted.
Qed.

Lemma sorted_lookup (l : list (R * P)) i j a b :
  StronglySorted desc l -> l !! i = Some a -> l !! j = Some b -> i < j -> (b.1 <= a.1)%R.
Proof.
  intros Hs. revert i j. induction Hs as [|x l Hl IH Hx]; intros i j; [done|].
  destruct i as [|i], j as [|j]; simpl; try lia.
  - intros [= <-] Hb _. rewrite Forall_forall in Hx.
    apply Hx. by eapply list_elem_of_lookup_2.
  - intros Ha Hb Hij. apply (IH i j); [done|done|lia].
Qed.

End Sorting.

Section Ranking.
Context {P : Type}.
Variable centroid : P -> point.
Variable dem : ndarray R.
Variable transform : Sim.Transform.

Local Abbreviation complexity := (complexity_at centroid dem transform).

(** The loop that scores the buildings. *)
Lemma scores_spec (buildings : list P) scores :
  for_each (fun (scores : list (R * P)) (poly : P) =>
              rc ← Sim.apply_inverse transform (centroid poly).1 (centroid poly).2;
              match np_get dem (trunc rc.1) (trunc rc.2) with
              | Ok complexity => Ok (scores ++ [(complexity, poly)])
              | Raise _ => Ok scores
              | Diverge => Diverge
              end) [] buildings = Ok scores ->
  (∀ c p, (c, p) ∈ scores -> p ∈ buildings ∧ complexity p = Ok c)
  ∧ (∀ c p, p ∈ buildings -> complexity p = Ok c -> (c, p) ∈ scores).
Proof.
  intros H.
  refine (for_each_prefix_inv _
            (fun pre scores =>
               (∀ c p, (c, p) ∈ scores -> p ∈ pre ∧ complexity p = Ok c)
               ∧ (∀ c p, p ∈ pre -> complexity p = Ok c -> (c, p) ∈ scores))
            buildings _ [] scores _ H).
  - intros pre poly s s' _ [Hin Hall] (rc & Hrc & Hbody)%bind_Ok.
    assert (complexity poly = np_get dem (trunc rc.1) (trunc rc.2)) as Hc.
    { unfold complexity_at. by rewrite Hrc. }
    destruct (np_get dem (trunc rc.1) (trunc rc.2)) as [cx|e|] eqn:Hget; [| |done];
      injection Hbody as <-.
    + split.
      * intros c p [Hp|[= -> ->]%list_elem_of_singleton]%elem_of_app.
        -- destruct (Hin c p Hp). split; [|done]. apply elem_of_app. by left.
        -- split; [|done]. apply elem_of_app. right. by apply list_elem_of_singleton.
      * intros c p [Hp| ->%list_elem_of_singleton]%elem_of_app Hcp.
        -- apply elem_of_app. left. by apply Hall.
        -- apply elem_of_app. right. apply list_elem_of_singleton. congruence.
    + split.
      * intros c p Hp. destruct (Hin c p Hp). split; [|done]. apply elem_of_app. by left.
      * intros c p [Hp| ->%list_elem_of_singleton]%elem_of_app Hcp; [by apply Hall|].
        congruence.
  - split; [by intros c p ?%elem_of_nil|by intros c p ?%elem_of_nil].
Qed.

Lemma rank_spec (buildings : list P) top_n ranked :
  rank_buildings_by_complexity centroid buildings dem transform top_n = Ok ranked ->
  length ranked <= top_n
  ∧ (∀ p, p ∈ ranked -> p ∈ buildings)
  ∧ (∀ i j a b, ranked !! i = Some a -> ranked !! j = Some b -> i < j ->
       ∃ ca cb, complexity a = Ok ca ∧ complexity b = Ok cb ∧ (cb <= ca)%R)
  ∧ (∀ q cq, q ∈ buildings -> complexity q = Ok cq ->
       q ∈ ranked ∨ ∀ a ca, a ∈ ranked -> complexity a = Ok ca -> (cq <= ca)%R).
Proof.
  unfold rank_buildings_by_complexity. intros (scores & Hs & [= <-])%bind_Ok.
  destruct (scores_spec buildings scores Hs) as [Hin Hall].
  pose proof (sort_desc_sorted scores) as Hsorted.
  pose proof (sort_desc_perm scores) as Hperm.
  rewrite <- (take_drop top_n (sort_desc scores)) in Hsorted.
  assert (∀ x, x ∈ take top_n (sort_desc scores) -> x ∈ scores) as Htake.
  { intros x Hx. rewrite <- Hperm. rewrite <- (take_drop top_n (sort_desc scores)).
    apply elem_of_app. by left. }
  split; [|split; [|split]].
  - rewrite length_fmap, length_take. lia.
  - intros p ([c p'] & -> & Hx)%list_elem_of_fmap. by apply (Hin c p'), Htake.
  - intros i j a b Ha Hb Hij. rewrite list_lookup_fmap in Ha, Hb.
    destruct (take top_n (sort_desc scores) !! i) as [[ca a']|] eqn:Hi; [|done].
    destruct (take top_n (sort_desc scores) !! j) as [[cb b']|] eqn:Hj; [|done].
    simpl in Ha, Hb. injection Ha as <-. injection Hb as <-.
    exists ca, cb.
    split; [by apply (Hin ca a'), Htake, (list_elem_of_lookup_2 _ i)|].
    split; [by apply (Hin cb b'), Htake, (list_elem_of_lookup_2 _ j)|].
    apply (sorted_lookup _ i j (ca, a') (cb, b')
             (StronglySorted_app_1_l _ _ _ Hsorted) Hi Hj Hij).
  - intros q cq Hq Hcq. pose proof (Hall cq q Hq Hcq) as Hmem.
    rewrite <- Hperm, <- (take_drop top_n (sort_desc scores)) in Hmem.
    apply elem_of_app in Hmem as [Hmem|Hmem].
    + left. apply list_elem_of_fmap. by exists (cq, q).
    + right. intros a ca ([ca' a'] & -> & Hx)%list_elem_of_fmap Hca. simpl in Hca.
      destruct (Hin ca' a' (Htake _ Hx)) as [_ Hca'].
      assert (ca' = ca) as -> by congruence.
      apply (StronglySorted_app_1_elem_of _ _ _ (ca, a') (cq, q) Hsorted Hx Hmem).
Qed.

End Ranking.

Section Dedupe.
Context {P : Type}.
Variable centroid : P -> point.
Variable dem : ndarray R.
Variable transform : Sim.Transform.

Local Abbreviation key := (cell_key centroid dem transform).

(** The polygons that are kept have pairwise different cells, are taken
    from the ranked ones, and every cell of a ranked polygon is the cell of
    a kept one. *)
Lemma dedupe_spec (ranked : list P) st :
  dedupe centroid dem transform ranked = Ok st ->
  (∀ p, p ∈ st.2 -> p ∈ ranked)
  ∧ (∀ i j p q k, st.2 !! i = Some p -> st.2 !! j = Some q ->
       key p = Ok k -> key q = Ok k -> i = j)
  ∧ (∀ p k, p ∈ ranked -> key p = Ok k -> ∃ q, q ∈ st.2 ∧ key q = Ok k).
Proof.
  unfold dedupe. intros H.
  assert ((∀ p, p ∈ st.2 -> p ∈ ranked ∧ ∃ k, key p = Ok k ∧ k ∈ st.1)
          ∧ (∀ k, k ∈ st.1 -> ∃ q, q ∈ st.2 ∧ key q = Ok k)
          ∧ (∀ i j p q k, st.2 !! i = Some p -> st.2 !! j = Some q ->
               key p = Ok k -> key q = Ok k -> i = j)
          ∧ (∀ p k, p ∈ ranked -> key p = Ok k -> k ∈ st.1)) as (H1 & H2 & H3 & H4).
  { refine (for_each_prefix_inv _
              (fun pre (st : gset node * list P) =>
                 (∀ p, p ∈ st.2 -> p ∈ pre ∧ ∃ k, key p = Ok k ∧ k ∈ st.1)
                 ∧ (∀ k, k ∈ st.1 -> ∃ q, q ∈ st.2 ∧ key q = Ok k)
                 ∧ (∀ i j p q k, st.2 !! i = Some p -> st.2 !! j = Some q ->
                      key p = Ok k -> key q = Ok k -> i = j)
                 ∧ (∀ p k, p ∈ pre -> key p = Ok k -> k ∈ st.1))
              ranked _ (∅, []) st _ H).
    - intros pre poly s s' _ (I1 & I2 & I3 & I4).
      destruct (key poly) as [k|e|] eqn:Hk; [| |done].
      + case_bool_decide as Hseen; intros [= <-].
        * split; [|split; [done|split; [done|]]].
          -- intros p Hp. destruct (I1 p Hp) as [Hpre Hkey].
             split; [|done]. apply elem_of_app. by left.
          -- intros p k' [Hp| ->%list_elem_of_singleton]%elem_of_app Hk'.
             ++ by apply (I4 p).
             ++ congruence.
        * simpl. split; [|split; [|split]].
          -- intros p [Hp| ->%list_elem_of_singleton]%elem_of_app.
             ++ destruct (I1 p Hp) as [Hpre (k' & Hk' & Hin)].
                split; [apply elem_of_app; by left|].
                exists k'. split; [done|]. by apply elem_of_union_r.
             ++ split; [apply elem_of_app; right; by apply list_elem_of_singleton|].
                exists k. split; [done|]. by apply elem_of_union_l, elem_of_singleton.
          -- intros k' [->%elem_of_singleton|Hk']%elem_of_union.
             ++ exists poly. split; [|done].
                apply elem_of_app. right. by apply list_elem_of_singleton.
             ++ destruct (I2 k' Hk') as (q & Hq & Hkq). exists q.
                split; [|done]. apply elem_of_app. by left.
          -- assert (∀ i p, s.2 !! i = Some p -> key p ≠ Ok k) as Hfresh.
             { intros i p Hp Hkp.
               destruct (I1 p (list_elem_of_lookup_2 _ _ _ Hp)) as [_ (k' & Hk' & Hin)].
               congruence. }
             intros i j p q k' Hp Hq Hkp Hkq.
             apply lookup_app_Some in Hp as [Hp|[Hi Hp]];
               apply lookup_app_Some in Hq as [Hq|[Hj Hq]].
             ++ by apply (I3 i j p q k').
             ++ apply list_lookup_singleton_Some in Hq as [_ <-].
                destruct (Hfresh i p Hp). congruence.
             ++ apply list_lookup_singleton_Some in Hp as [_ <-].
                destruct (Hfresh j q Hq). congruence.
             ++ apply list_lookup_singleton_Some in Hp as [Hi' _].
                apply list_lookup_singleton_Some in Hq as [Hj' _]. lia.
          -- intros p k' [Hp| ->%list_elem_of_singleton]%elem_of_app Hk'.
             ++ apply elem_of_union_r. by apply (I4 p).
             ++ apply elem_of_union_l, elem_of_singleton. congruence.
      + intros [= <-]. split; [|split; [done|split; [done|]]].
        * intros p Hp. destruct (I1 p Hp) as [Hpre Hkey].
          split; [|done]. apply elem_of_app. by left.
        * intros p k' [Hp| ->%list_elem_of_singleton]%elem_of_app Hk'.
          -- by apply (I4 p).
          -- congruence.
    - simpl. split; [by intros p ?%elem_of_nil|].
      split; [by intros k ?%elem_of_empty|]. split; [done|].
      by intros p k ?%elem_of_nil. }
  split; [intros p Hp; by apply H1|]. split; [done|].
  intros p k Hp Hk. apply H2. by apply (H4 p).
Qed.

End Dedupe.

(** *** The waypoints in the order of the tour *)

Lemma ordered_spec {A : Type} (waypoints : list A) (tour : list nat) ordered0 ordered :
  for_each (fun ordered i => wp ← or_raise IndexError (waypoints !! i);
                             Ok (ordered ++ [wp])) ordered0 tour = Ok ordered ->
  ∃ picked, ordered = ordered0 ++ picked
            ∧ length picked = length tour
            ∧ ∀ k i, tour !! k = Some i -> picked !! k = waypoints !! i.
Proof.
  revert ordered0. induction tour as [|i tour IH]; intros ordered0; simpl.
  - intros [= <-]. exists []. by rewrite app_nil_r.
  - intros (o1 & (wp & Hwp & [= <-])%bind_Ok & Hrest)%bind_Ok.
    destruct (IH _ Hrest) as (picked & -> & Hlen & Hk).
    exists (wp :: picked). rewrite <- app_assoc. split; [done|].
    split; [simpl; lia|].
    intros [|k] j; simpl.
    + intros [= <-]. destruct (waypoints !! i); simpl in Hwp; by simplify_eq.
    + apply Hk.
Qed.

Lemma generate_ordered_spec geodesic christofides waypoints metric ordered :
  generate_ordered_waypoints geodesic christofides waypoints metric = Ok ordered ->
  ∃ cost_matrix G tour,
    Tsp.compute_cost_matrix geodesic
      ((fun wp => (fw_lat wp, fw_lon wp)) <$> waypoints) metric = Ok cost_matrix
    ∧ Tsp.build_graph_from_matrix cost_matrix = Ok G
    ∧ christofides G = Ok tour
    ∧ tour ≠ []
    ∧ length ordered = length tour
    ∧ ∀ k i, tour !! k = Some i -> ordered !! k = waypoints !! i.
Proof.
  unfold generate_ordered_waypoints.
  intros (cm & Hcm & ([tour c] & Hsolve & Hfor)%bind_Ok)%bind_Ok.
  destruct (TspFacts.solve_passes_tour _ _ _ _ Hsolve) as (G & HG & Ht).
  destruct (TspFacts.solve_tour_closes _ _ _ _ Hsolve) as (fi & fr & w & Hfi & _).
  destruct (ordered_spec _ _ _ _ Hfor) as (picked & -> & Hlen & Hk).
  exists cm, G, tour. split; [done|]. split; [done|]. split; [done|].
  split; [by destruct tour|]. split; [done|]. exact Hk.
Qed.

End DataFacts.

(** ** Environment references in the configuration *)

Module ConfigFacts.
Import Config.

Lemma span_prefix p k r :
  all_chars p k = true ->
  match r with EmptyString => True | String c _ => p c = false end ->
  span p (k +:+ r) = (k, r).
Proof.
  intros Hk Hr. induction k as [|c k IH]; simpl in *.
  - destruct r as [|c r]; [done|]. simpl. by rewrite Hr.
  - apply andb_true_iff in Hk as [Hc Hk]. rewrite Hc, (IH Hk). done.
Qed.

Lemma env_match_plain key rest :
  key ≠ EmptyString ->
  all_chars (fun c => negb (bool_decide (c = colon)) && negb (bool_decide (c = closing))) key
    = true ->
  env_match ("${" +:+ key +:+ "}" +:+ rest) = Some (key, None).
Proof.
  intros Hne Hk. unfold env_match.
  change ("${" +:+ key +:+ "}" +:+ rest)
    with (String (Ascii.ascii_of_nat 36) (String (Ascii.ascii_of_nat 123)
            (key +:+ String closing rest))).
  cbv beta iota. rewrite !bool_decide_eq_true_2 by done. simpl andb. cbv iota.
  rewrite (span_prefix _ key (String closing rest)); [|done|].
  - rewrite bool_decide_eq_false_2 by done. by rewrite bool_decide_eq_true_2.
  - by vm_compute.
Qed.

Lemma env_match_default key dflt rest :
  key ≠ EmptyString -> dflt ≠ EmptyString ->
  all_chars (fun c => negb (bool_decide (c = colon)) && negb (bool_decide (c = closing))) key
    = true ->
  all_chars (fun c => negb (bool_decide (c = closing))) dflt = true ->
  env_match ("${" +:+ key +:+ ":" +:+ dflt +:+ "}" +:+ rest) = Some (key, Some dflt).
Proof.
  intros Hne Hd Hk Hdf. unfold env_match.
  change ("${" +:+ key +:+ ":" +:+ dflt +:+ "}" +:+ rest)
    with (String (Ascii.ascii_of_nat 36) (String (Ascii.ascii_of_nat 123)
            (key +:+ String colon (dflt +:+ String closing rest)))).
  cbv beta iota. rewrite !bool_decide_eq_true_2 by done. simpl andb. cbv iota.
  rewrite (span_prefix _ key (String colon _)); [|done|].
  - rewrite bool_decide_eq_false_2 by done.
    rewrite (bool_decide_eq_false_2 (colon = closing)) by done.
    rewrite (bool_decide_eq_true_2 (colon = colon)) by done.
    rewrite (span_prefix _ dflt (String closing rest)); [|done|].
    + rewrite bool_decide_eq_false_2 by done. by rewrite bool_decide_eq_true_2.
    + by vm_compute.
  - by vm_compute.
Qed.

Lemma map_values_keys {A B : Type} (f : A -> B) (items : list (string * A)) :
  (map (fun kv : string * A => let '(k, v) := kv in (k, f v)) items).*1 = items.*1.
Proof. induction items as [|[k v] items IH]; [done|]. simpl. f_equal. exact IH. Qed.

(** The keys of a dict and the length of a list are left as they are. *)
Lemma expand_dict_keys env items items' :
  _expand_env_vars env (YDict items) = YDict items' -> items'.*1 = items.*1.
Proof.
  change (_expand_env_vars env (YDict items))
    with (YDict (map (fun kv : string * yaml =>
                        let '(k, v) := kv in (k, _expand_env_vars env v)) items)).
  intros [= <-]. apply map_values_keys.
Qed.

Lemma expand_list_length env items items' :
  _expand_env_vars env (YList items) = YList items' -> length items' = length items.
Proof.
  change (_expand_env_vars env (YList items))
    with (YList (map (_expand_env_vars env) items)).
  intros [= <-]. apply length_map.
Qed.

End ConfigFacts.

(** ** The endpoints *)

Module ApiFacts.
Import Api.

Lemma except_500_raised {A : Type} (body : result A) e :
  except_500 body = Raised e -> e = HTTPException 500.
Proof. destruct body; simpl; congruence. Qed.

Lemma parse_interval_raised split to_int s e :
  parse_interval split to_int s = Raised e -> e = HTTPException 400.
Proof.
  unfold parse_interval.
  destruct (split s) as [|num [|unit [|x l]]]; try by intros [= <-].
  destruct (to_int num); [|by intros [= <-]].
  destruct (unit_multipliers !! _); [|by intros [= <-]].
  destruct (timedelta_fits _); [done|by intros [= <-]].
Qed.

End ApiFacts.

Module DbFacts.
Import Db.

(** The loop ends in its first turn. *)
Lemma attempts_first {Conn : Type} (connect : nat -> result Conn) n k :
  attempts connect (S n) k
  = match connect k with
    | Returned conn => Returned conn
    | Raised OperationalError => Raised NameError
    | Raised e => Raised e
    end.
Proof. simpl. by destruct (connect k) as [c|[]]. Qed.

End DbFacts.

Module PlaybackFacts.
Import Playback.

Lemma get_all_trace_call :
  Call.bind_call get_all_trace_signature 1 [] = Raise TypeError.
Proof. vm_compute. reflexivity. Qed.

(** With no trace loaded, [get_next_point] answers that playback is paused
    or raises, and loads nothing. *)
Lemma next_without_trace {Row : Type} (rows : list Row) (st : State Row) :
  trace st = [] ->
  (get_next_point rows st).1 = st
  ∧ ((get_next_point rows st).2 = Ok Paused ∨ (get_next_point rows st).2 = Raise TypeError).
Proof.
  intros Ht. unfold get_next_point. destruct (paused (controller st)); [auto|].
  rewrite Ht, get_all_trace_call. simpl. auto.
Qed.

Lemma handle_keeps_empty {Row : Type} (rows : list Row) (st : State Row) req :
  trace st = [] -> trace (handle rows st req).1 = [].
Proof.
  intros Ht. destruct req; simpl; try done.
  destruct (next_without_trace rows st Ht) as [Hst _].
  destruct (get_next_point rows st) as [st' a]. simpl in *. by subst.
Qed.

Lemma serve_without_trace {Row : Type} (rows : list Row) (st : State Row) reqs a :
  trace st = [] -> Some a ∈ serve rows st reqs -> a = Ok Paused ∨ a = Raise TypeError.
Proof.
  revert st. induction reqs as [|req reqs IH]; intros st Ht; simpl.
  - by intros ?%elem_of_nil.
  - pose proof (handle_keeps_empty rows st req Ht) as Ht'.
    destruct (handle rows st req) as [st' r] eqn:Hh. simpl in Ht'.
    intros [Ha|Ha]%elem_of_cons; [|by apply (IH st')].
    destruct req; simpl in Hh; try (injection Hh as _ <-; done).
    destruct (next_without_trace rows st Ht) as [_ Hans].
    destruct (get_next_point rows st) as [st1 a1]. simpl in *.
    injection Hh as _ <-. by injection Ha as ->.
Qed.

End PlaybackFacts.

(** ** The scenarios *)

Module CaseFacts.

Lemma corridor_open : OpenGrid.obstacle_free Scenario.corridor.
Proof.
  intros [r c] [Hr Hc]%OpenGridFacts.in_bounds_range.
  unfold shape0, shape1 in *. simpl in *.
  assert (r = 0%Z) as -> by lia.
  assert (c = 0%Z ∨ c = 1%Z ∨ c = 2%Z) as [->|[->| ->]] by lia.
  all: reflexivity.
Qed.

Lemma trunc_1 : trunc 1 = 1%Z.
Proof.
  unfold trunc. destruct (Rle_dec 0 1) as [_|H]; [|lra]. apply (Int_part_IZR 1).
Qed.

Lemma norm2_unit : norm2 (1 - 0) (0 - 0) = 1%R.
Proof.
  unfold norm2. replace ((1 - 0) * (1 - 0) + (0 - 0) * (0 - 0))%R with 1%R by lra.
  apply sqrt_1.
Qed.

(** One turn of [plan] that samples the goal and reaches it. *)
Lemma two_rows_run :
  RRTPlan.find_path 3 Cases.goal_biased Cases.two_rows (0, 0)%R (1, 0)%R
  = Ok (Some [(0, 0)%R; (1, 0)%R]).
Proof.
  assert ((0, 0)%R ≠ (1, 0)%R) as Hne by (intros [= H]; lra).
  unfold RRTPlan.find_path. cbn [RRT.max_iter Cases.two_rows RRTPlan.plan].
  unfold RRTPlan.sample_point. cbn [RRTPlan.random Cases.goal_biased].
  rewrite (proj2 (Rltb_true (9 / 10) 1)) by lra.
  cbn [RRTPlan.nearest_neighbor fmap list_fmap fst RRTPlan.min_by]. rewrite bind_Ok_l.
  assert (RRT.steer Cases.two_rows (0, 0)%R (1, 0)%R = Some (1, 0)%R) as ->.
  { unfold RRT.steer. cbn [fst snd RRT.step_size Cases.two_rows].
    rewrite norm2_unit. by rewrite (proj2 (Rleb_true 1 2)) by lra. }
  assert (RRT.is_collision_free Cases.two_rows (1, 0)%R = true) as ->.
  { apply PlannerFacts.is_collision_free_spec. cbn [fst snd].
    rewrite trunc_1, trunc_0. unfold shape0, shape1. simpl.
    change (Z.of_nat 2) with 2%Z. change (Z.of_nat 1) with 1%Z.
    split; [lra|]. split; [lra|done]. }
  rewrite RRTFacts.distance_same.
  cbn [RRT.step_size Cases.two_rows]. rewrite (proj2 (Rltb_true 0 2)) by lra.
  unfold RRTPlan._reconstruct_path.
  cbn [RRTPlan.tree_set fst]. rewrite decide_False by done.
  cbn [RRTPlan.tree_set RRTPlan.climb RRTPlan.tree_get fst snd].
  rewrite decide_False by done. rewrite decide_True by done.
  cbn [app RRTPlan.tree_get fst snd]. rewrite decide_True by done.
  reflexivity.
Qed.

Lemma dedupe_two :
  Builder.dedupe (fun _ : nat => (0, 0)%R) [[5]]%R Scenario.unit_transform [7%nat; 8%nat]
  = Ok ({[(0, 0)%Z]}, [7%nat]).
Proof.
  assert (∀ p : nat, Builder.cell_key (fun _ : nat => (0, 0)%R) [[5]]%R
                       Scenario.unit_transform p = Ok (0, 0)%Z) as Hkey.
  { intros p. unfold Builder.cell_key.
    cbn [Sim.apply_inverse Scenario.unit_transform fst snd]. rewrite bind_Ok_l.
    cbn [fst snd]. rewrite (floor_IZR 0). reflexivity. }
  unfold Builder.dedupe. cbn [for_each]. rewrite !Hkey.
  cbn [fst snd]. rewrite bool_decide_eq_false_2 by apply not_elem_of_empty.
  rewrite bind_Ok_l. cbn [fst snd].
  rewrite bool_decide_eq_true_2 by (apply elem_of_union_l; by apply elem_of_singleton).
  rewrite bind_Ok_l. by rewrite union_empty_r_L.
Qed.

Lemma ordered_pair geodesic :
  Builder.generate_ordered_waypoints geodesic (fun _ => Ok [0%nat; 1%nat])
    Cases.pair_of_waypoints "euclidean" = Ok Cases.pair_of_waypoints.
Proof. reflexivity. Qed.

(** Three buildings ranked by the roughness under them, the best two
    kept. *)
Lemma rank_three :
  Utils.rank_buildings_by_complexity Cases.corner_of [7; 8; 9]%nat Cases.roughness
    Scenario.unit_transform 2 = Ok [8; 7]%nat.
Proof.
  unfold Utils.rank_buildings_by_complexity. cbn [for_each].
  cbn [Sim.apply_inverse Scenario.unit_transform Cases.corner_of fst snd].
  rewrite !bind_Ok_l. cbn [fst snd]. rewrite !trunc_0.
  change (np_get Cases.roughness 0 0) with (Ok 5%R). cbv beta iota.
  rewrite !bind_Ok_l. cbn [fst snd]. rewrite !trunc_0, !trunc_1.
  change (np_get Cases.roughness 0 1) with (Ok 9%R). cbv beta iota.
  rewrite !bind_Ok_l. cbn [fst snd]. rewrite !trunc_0, !trunc_1.
  change (np_get Cases.roughness 1 0) with (Ok 1%R). cbv beta iota.
  rewrite !bind_Ok_l. cbn [app]. unfold Utils.sort_desc. cbn [foldr Utils.insert_desc fst].
  rewrite (proj2 (Rltb_false 9 1)) by lra.
  cbn [Utils.insert_desc fst].
  rewrite (proj2 (Rltb_true 5 9)) by lra.
  rewrite (proj2 (Rltb_false 5 1)) by lra.
  reflexivity.
Qed.

(** The step of [cornered_star] from the origin towards (3, -4). *)
Lemma cornered_norm : norm2 (3 - 0) (-4 - 0) = 5%R.
Proof.
  unfold norm2. replace ((3 - 0) * (3 - 0) + (-4 - 0) * (-4 - 0))%R with (5 * 5)%R by lra.
  apply sqrt_square. lra.
Qed.

Lemma cornered_new :
  Observe.new_point_world Cases.cornered_star (0, 0)%R (3, -4)%R
  = (21 / 10, - (28 / 10))%R.
Proof.
  unfold Observe.new_point_world. cbv zeta. cbn [fst snd RRTStar.delta Cases.cornered_star].
  rewrite cornered_norm. rewrite Rmin_right by lra. f_equal; field.
Qed.

Lemma cornered_pixel :
  RRTStar.world2map Cases.cornered_star (21 / 10) (- (28 / 10)) = (3, 2)%Z.
Proof.
  unfold RRTStar.world2map. cbv zeta.
  change (shape1 (RRTStar.map Cases.cornered_star)) with 5%Z.
  change (shape0 (RRTStar.map Cases.cornered_star)) with 4%Z.
  unfold RRTStar.world_x_min, RRTStar.world_x_max, RRTStar.world_y_min, RRTStar.world_y_max.
  rewrite (RRTStarFacts.trunc_exact _ 3), (RRTStarFacts.trunc_exact _ 2);
    [reflexivity|lia| |lia|].
  - change (IZR (4 - 1)) with 3%R. split.
    + apply (Rmult_le_reg_r (178 / 100 - - (407 / 100))); [lra|]. field_simplify; lra.
    + apply (Rmult_lt_reg_r (178 / 100 - - (407 / 100))); [lra|]. field_simplify; lra.
  - change (IZR (5 - 1)) with 4%R. split.
    + apply (Rmult_le_reg_r (242 / 100 - - (216 / 100))); [lra|]. field_simplify; lra.
    + apply (Rmult_lt_reg_r (242 / 100 - - (216 / 100))); [lra|]. field_simplify; lra.
Qed.

(** Between the two waypoints of the witnesses the geodesic distance is
    known. *)
Lemma globe_measures (wi wj : point) :
  wi ∈ [(0, 0)%R; (3, 4)%R] -> wj ∈ [(0, 0)%R; (3, 4)%R] ->
  Tsp.distance Cases.geodesic_on_globe "geodesic" wi wj
  = Ok (Rabs (wi.1 - wj.1) + Rabs (wi.2 - wj.2))%R.
Proof.
  intros Hi Hj. unfold Tsp.distance, Cases.geodesic_on_globe.
  rewrite bool_decide_eq_false_2 by discriminate.
  assert (∀ w : point, w ∈ [(0, 0)%R; (3, 4)%R] -> Rleb (Rabs w.1) 90 = true) as Hlat.
  { intros w Hw. apply Rleb_true.
    apply elem_of_cons in Hw as [->|Hw]; [|apply list_elem_of_singleton in Hw as ->];
      cbn [fst]; rewrite Rabs_pos_eq; lra. }
  by rewrite (Hlat wi Hi), (Hlat wj Hj).
Qed.

(** *** A tie in binary64 *)

Lemma rippled_run :
  AStar64.find_path Cases.rippled (0, 0)%Z (1, 2)%Z = Ok (Some Cases.over_ripple).
Proof. vm_compute. reflexivity. Qed.

Lemma ripple_height : (0 < F64.to_R 0x1p-60)%R.
Proof. apply (F64Facts.to_R_pos _ 4503599627370496 (-112)). reflexivity. Qed.

Lemma ripple_penalty : (0 < F64.to_R 1)%R.
Proof. apply (F64Facts.to_R_pos _ 4503599627370496 (-52)). reflexivity. Qed.

Lemma around_is_path :
  GridPath.is_path (AStar64.exact Cases.rippled) (0, 0)%Z (1, 2)%Z Cases.around_ripple.
Proof.
  split; [reflexivity|]. split; [reflexivity|].
  repeat split; try reflexivity; apply list_elem_of_In; simpl; auto 12.
Qed.

(** In exact numbers the way over the ripple costs more than the way around
    it. *)
Lemma ripple_costs :
  ∃ c_over c_around,
    GridPath.path_cost (AStar64.exact Cases.rippled) Cases.over_ripple = Ok c_over
    ∧ GridPath.path_cost (AStar64.exact Cases.rippled) Cases.around_ripple = Ok c_around
    ∧ (c_around < c_over)%R.
Proof.
  do 2 eexists. split; [reflexivity|]. split; [reflexivity|].
  pose proof ripple_height as He. pose proof ripple_penalty as Hp.
  change (AStar.elevation_penalty (AStar64.exact Cases.rippled)) with (F64.to_R 1).
  cbn [fst snd].
  repeat match goal with
         | |- context [np_item ?a 0 1] => change (np_item a 0 1) with (F64.to_R 0x1p-60)
         | |- context [np_item ?a ?i ?j] => change (np_item a i j) with 0%R
         end.
  unfold GridPath.base_cost. cbn [fst snd].
  change (1 - 0)%Z with 1%Z. change (2 - 1)%Z with 1%Z.
  change (0 - 0)%Z with 0%Z. change (1 - 1)%Z with 0%Z.
  rewrite (Rabs_pos_eq (F64.to_R 0x1p-60 - 0)) by lra.
  rewrite (Rabs_left (0 - F64.to_R 0x1p-60)) by lra.
  replace (0 - 0)%R with 0%R by lra. rewrite Rabs_R0.
  assert (0 < F64.to_R 1 * F64.to_R 0x1p-60)%R by by apply Rmult_lt_0_compat.
  lra.
Qed.

End CaseFacts.

(** ** The claims of the specification *)

(** C1: the façade constructs with each of the names "rrt", "rrt*", "geo_rrt"
    and "geo_rrt*", but every [find_segment_path] on such a wrapper ends in
    the [TypeError] of the constructor call it makes with the keywords
    [start], [goal], [occupancy_grid], [step_size] and [max_iter], whatever
    the variant's [plan] would do; only "astar" reaches its planner. *)
Theorem facade_sampling_variants_raise :
  Forall (fun name =>
            ∀ grid elevation penalty step iters dbg run start goal,
              ∃ w, Wrapper.init name grid elevation penalty step iters dbg = Ok w
                   ∧ Wrapper.find_segment_path run w start goal = Raise TypeError)
         ["rrt"; "rrt*"; "geo_rrt"; "geo_rrt*"]
  ∧ ∀ grid elevation penalty step iters dbg run start goal,
      ∃ w p, Wrapper.init "astar" grid elevation penalty step iters dbg = Ok w
             ∧ Wrapper.planner_core w = Wrapper.Instance p
             ∧ Wrapper.find_segment_path run w start goal = AStar64.find_path p start goal.
Proof.
  split.
  - repeat constructor; intros; eexists; split; reflexivity.
  - intros. do 2 eexists. split; [reflexivity|]. split; reflexivity.
Qed.




(** C3, as the code has it: [AStarPlanner] and [RRT] accept a candidate
    exactly when it is in-bounds and its occupancy cell holds 0;
    [RRTStar.is_valid_point] accepts a candidate exactly when its (clamped)
    cell is in-bounds and holds a value other than 0. *)
Theorem occupancy_conventions :
  (∀ (self : AStar.AStarPlanner) (pos n : node) (c : R),
      (n, c) ∈ AStar.get_neighbors self pos
      <-> ((n.1 - pos.1, n.2 - pos.2)%Z ∈ AStar.directions
           ∧ AStar.in_bounds self n = true
           ∧ np_item (AStar.grid self) n.1 n.2 = 0%Z)
          ∧ c = norm2 (IZR (n.1 - pos.1)) (IZR (n.2 - pos.2)))
  ∧ (∀ (self : RRT.RRT) (p : point),
      RRT.is_collision_free self p = true
      <-> (0 <= p.1 < IZR (shape0 (RRT.map self)))%R
          ∧ (0 <= p.2 < IZR (shape1 (RRT.map self)))%R
          ∧ np_item (RRT.map self) (trunc p.1) (trunc p.2) = 0%Z)
  ∧ (∀ (self : RRTStar.RRTStar) (pt : point) (parent : option point),
      RRTStar.is_valid_point self pt parent = true
      <-> (0 <= (RRTStar.world2map self pt.1 pt.2).1 < shape1 (RRTStar.map self))%Z
          ∧ (0 <= (RRTStar.world2map self pt.1 pt.2).2 < shape0 (RRTStar.map self))%Z
          ∧ np_item (RRTStar.map self) (RRTStar.world2map self pt.1 pt.2).2
                    (RRTStar.world2map self pt.1 pt.2).1 ≠ 0%Z).
Proof.
  split; [intros; apply AStarFacts.neighbors_spec|].
  split; [apply PlannerFacts.is_collision_free_spec|apply PlannerFacts.is_valid_point_spec].
Qed.

(** C3 as stated fails on [RRTStar]: on a map of one cell, the cell that
    holds 0 is rejected and the cell that holds 1 is accepted. *)
Lemma rrt_star_rejects_zero_cell :
  RRTStar.world2map (Scenario.unit_star 0) 0 0 = (0, 0)%Z
  ∧ np_item (RRTStar.map (Scenario.unit_star 0)) 0 0 = 0%Z
  ∧ RRTStar.is_valid_point (Scenario.unit_star 0) (0, 0)%R None = false
  ∧ np_item (RRTStar.map (Scenario.unit_star 1)) 0 0 = 1%Z
  ∧ RRTStar.is_valid_point (Scenario.unit_star 1) (0, 0)%R None = true.
Proof.
  split; [apply PlannerFacts.world2map_unit|]. split; [reflexivity|].
  split; [apply PlannerFacts.unit_star_zero_rejected|]. split; [reflexivity|].
  apply PlannerFacts.unit_star_one_accepted.
Qed.



(** C6: [step_towards] stores the forward azimuth of [geod.inv] as the
    heading without bringing it into [[0, 360)], as [compute_heading] does:
    on a westward leg the run emits points whose heading is -90. *)
Theorem westward_run_emits_negative_heading :
  (∀ self state target speed,
      Sim.heading (Sim.step_towards self state target speed)
      = (Sim.inv (Sim.geod self) (Sim.lon state) (Sim.lat state) target.2 target.1).1.1)
  ∧ ∃ tr, Sim.run_simulation 10 (Scenario.line_world (fun k => Z.of_nat k))
            (Scenario.westward [[0; 0]]%Z) = Ok tr
          ∧ Sim.data tr ≠ []
          ∧ Forall (fun p => Sim.gps_heading p = Some (-90)%R) (Sim.data tr)
          ∧ ¬ Observe.heading_in_range (-90).
Proof.
  split; [intros; apply SimFacts.step_towards_heading|].
  eexists. split; [apply SimFacts.westward_run|]. split; [done|].
  destruct SimFacts.west1_state as [_ H1]. destruct SimFacts.west2_state as [_ H2].
  split.
  - repeat constructor; simpl; by f_equal.
  - unfold Observe.heading_in_range. lra.
Qed.

(** C7: when the planner returns an absent path for a consecutive pair of
    waypoint cells, the pair leaves the state and the points as they are,
    and [run_simulation] goes on with the pairs that follow: with the
    planner's answers for the pairs before and after it, the run is exactly
    the walk from the start location through the cells of those answers,
    one after the other, and whatever the walk does it raises nothing. *)
Theorem absent_segment_is_skipped (fuel : nat) (w : Sim.World)
    (self : Sim.SimulationController) (cells : list node)
    (pre post : list (node * node)) (pair : node * node) (r : option (list node))
    (before after : list (list node)) :
  Sim._build_path self = Ok cells ->
  Sim.consecutive cells = pre ++ pair :: post ->
  Forall2 (Observe.answers w self) pre before ->
  Wrapper.find_segment_path (Sim.run_plan w) (Sim.planner self) pair.1 pair.2 = Ok r ->
  Sim.absent r = true ->
  Forall2 (Observe.answers w self) post after ->
  (∀ acc, Sim.segment fuel w self acc pair = Ok acc)
  ∧ Sim.run_simulation fuel w self
    = (acc ← for_each (fun acc target => Sim.walk_to fuel w self target acc)
              (Sim.get_start_location self, [])
              (Sim.grid_to_latlon self <$> concat before ++ concat after);
       Ok {| Sim.trace_drone_id := Sim.drone_id self; Sim.data := acc.2 |})
  ∧ Observe.raises_nothing (Sim.run_simulation fuel w self).
Proof.
  intros Hcells Hpairs Hpre Hr Ha Hpost.
  assert (Sim.run_simulation fuel w self
          = (acc ← for_each (fun acc target => Sim.walk_to fuel w self target acc)
                    (Sim.get_start_location self, [])
                    (Sim.grid_to_latlon self <$> concat before ++ concat after);
             Ok {| Sim.trace_drone_id := Sim.drone_id self; Sim.data := acc.2 |})) as Hrun.
  { rewrite (SynthFacts.run_simulation_answers fuel w self cells (before ++ [] :: after)).
    - by rewrite concat_app.
    - done.
    - rewrite Hpairs. by destruct pre.
    - rewrite Hpairs. apply Forall2_app; [done|]. constructor; [|done].
      exists r. split; [done|]. by destruct r as [[|x l]|]. }
  split; [intros acc; by apply (SimFacts.segment_absent _ _ _ _ _ r)|].
  split; [exact Hrun|].
  rewrite Hrun.
  pose proof (SynthFacts.walks_raise_nothing fuel w self
                (Sim.grid_to_latlon self <$> concat before ++ concat after)
                (Sim.get_start_location self, [])) as Hw.
  by destruct (for_each _ _ _).
Qed.

Lemma absent_segment_is_skipped_witness :
  SimInit.build_planner (Sim.elevation Cases.gapped) = Ok (Sim.planner Cases.gapped)
  ∧ ∃ tr, Sim.run_simulation 10 (Scenario.line_world (fun k => Z.of_nat k)) Cases.gapped
          = Ok tr
          ∧ Sim.gps_lon <$> Sim.data tr = [1; 5]%R.
Proof.
  split; [reflexivity|].
  destruct (absent_segment_is_skipped 10 (Scenario.line_world (fun k => Z.of_nat k))
              Cases.gapped [(0, 0); (0, 1); (0, 3); (0, 6)]%Z
              [((0, 0), (0, 1))%Z] [((0, 3), (0, 6))%Z] ((0, 1), (0, 3))%Z None
              [[(0, 0); (0, 1)]%Z] [[(0, 3); (0, 4); (0, 5); (0, 6)]%Z])
    as (_ & Hrun & _).
  - apply SynthFacts.gapped_cells.
  - reflexivity.
  - constructor; [|constructor]. eexists. split; [apply SynthFacts.gap_plan_first|reflexivity].
  - apply SynthFacts.gap_plan_gap.
  - reflexivity.
  - constructor; [|constructor]. eexists. split; [apply SynthFacts.gap_plan_last|reflexivity].
  - eexists. split.
    + rewrite Hrun.
      change (Sim.grid_to_latlon Cases.gapped
                <$> concat [[(0, 0); (0, 1)]%Z] ++ concat [[(0, 3); (0, 4); (0, 5); (0, 6)]%Z])
        with [(0, 0); (0, 1); (0, 3); (0, 4); (0, 5); (0, 6)]%R.
      rewrite SynthFacts.gapped_walk. reflexivity.
    + cbn [Sim.data fmap list_fmap Sim.gps_point Sim.gps_lon snd].
      by rewrite SynthFacts.gap1_lon, SynthFacts.gap2_lon.
Defined.

(** C8, as the code has it: two runs on the same inputs agree on the drone
    id and on the latitude, longitude, altitude and heading of every point,
    whatever the clock; the timestamp of the [k]-th point is the [k]-th
    reading of the wall clock. [interpolate_segment], given the same inputs
    and the same draws of the random source, returns the same samples
    whatever the clock, and its [i]-th timestamp is [i * interval_ms]. *)
Theorem trace_reproducible_up_to_clock fuel geo plan clock1 clock2 self :
  Observe.positions
    (Sim.run_simulation fuel
       {| Sim.geodesic_m := geo; Sim.utcnow := clock1; Sim.run_plan := plan |} self)
  = Observe.positions
      (Sim.run_simulation fuel
         {| Sim.geodesic_m := geo; Sim.utcnow := clock2; Sim.run_plan := plan |} self)
  ∧ (∀ tr k p,
      Sim.run_simulation fuel
        {| Sim.geodesic_m := geo; Sim.utcnow := clock1; Sim.run_plan := plan |} self
      = Ok tr ->
      Sim.data tr !! k = Some p -> Sim.ts p = clock1 k)
  ∧ (∀ z p1 p2,
      Sim.interpolate_segment
        {| Sim.geodesic_m := geo; Sim.utcnow := clock1; Sim.run_plan := plan |} z self p1 p2
      = Sim.interpolate_segment
          {| Sim.geodesic_m := geo; Sim.utcnow := clock2; Sim.run_plan := plan |} z self p1 p2)
  ∧ (∀ z p1 p2 samples i s,
      Sim.interpolate_segment
        {| Sim.geodesic_m := geo; Sim.utcnow := clock1; Sim.run_plan := plan |} z self p1 p2
      = Ok samples ->
      samples !! i = Some s -> Sim.timestamp_ms s = (INR i * Sim.interval_ms self)%R).
Proof.
  split; [apply SimFacts.run_simulation_clock|].
  split; [intros tr k p; apply SimFacts.run_simulation_stamped|].
  split; [reflexivity|].
  intros z p1 p2 samples i s Hrun Hs.
  by destruct (SimFacts.interpolate_segment_samples _ _ _ _ _ _ _ _ Hrun Hs).
Qed.

Lemma trace_reproducible_up_to_clock_witness :
  Sim.ts (Sim.gps_point (Scenario.line_world (fun k => Z.of_nat k + 7)%Z) 1 Scenario.west2)
  = 8%Z.
Proof.
  destruct (trace_reproducible_up_to_clock 10
              (Sim.geodesic_m (Scenario.line_world (fun k => 0%Z)))
              (Sim.run_plan (Scenario.line_world (fun k => 0%Z)))
              (fun k => Z.of_nat k + 7)%Z (fun k => 0%Z)
              (Scenario.westward [[0; 0]]%Z)) as (_ & H & _).
  apply (H _ 1%nat _ (SimFacts.westward_run _)). reflexivity.
Defined.

(** C8 as stated fails: the same inputs under a clock that reads 0 and under
    a clock that reads 1 give traces with different timestamps. *)
Lemma trace_timestamps_follow_clock :
  ∃ tr0 tr1,
    Sim.run_simulation 10 (Scenario.line_world (fun k => 0%Z))
      (Scenario.westward [[0; 0]]%Z) = Ok tr0
    ∧ Sim.run_simulation 10 (Scenario.line_world (fun k => 1%Z))
        (Scenario.westward [[0; 0]]%Z) = Ok tr1
    ∧ Sim.ts <$> Sim.data tr0 = [0; 0]%Z
    ∧ Sim.ts <$> Sim.data tr1 = [1; 1]%Z.
Proof.
  do 2 eexists. split; [apply SimFacts.westward_run|].
  split; [apply SimFacts.westward_run|]. split; reflexivity.
Qed.

(** C9: with a single waypoint (or none) [compute_cost_matrix] returns the
    zero matrix for every metric name, the unsupported ones included, where
    the claim has it raise; the error appears from two waypoints on. *)
Theorem cost_matrix_short_list_never_raises :
  (∀ geodesic p metric, Tsp.compute_cost_matrix geodesic [p] metric = Ok [[0%R]])
  ∧ (∀ geodesic metric, Tsp.compute_cost_matrix geodesic [] metric = Ok [])
  ∧ (∀ geodesic, Tsp.compute_cost_matrix geodesic [(0, 0)%R] "manhattan" = Ok [[0%R]])
  ∧ (∀ geodesic, Tsp.compute_cost_matrix geodesic [(0, 0)%R; (1, 1)%R] "manhattan"
                 = Raise ValueError).
Proof.
  split; [apply TspFacts.single_waypoint|].
  split; [apply TspFacts.no_waypoint|].
  split; [intros; apply TspFacts.single_waypoint|].
  intros. by apply TspFacts.unsupported_raises.
Qed.


(** ** Further properties of the code *)


(** X2: the arrival test of [run_simulation] can be missed for ever. On a
    line with one metre per unit of longitude, a drone [d] metres from its
    first target that moves [s] metres per sample, with [2 < d] and
    [2 < s - d], jumps over the target and back: the loop of the first
    target has not ended after any number of turns. *)
Theorem long_step_never_arrives (s d : R) (clock : nat -> Z) (fuel : nat) :
  (2 < d)%R -> (2 < s - d)%R ->
  Sim.run_simulation fuel (Scenario.line_world clock) (Cases.hopper s d) = Diverge.
Proof. apply SynthFacts.hopper_run. Qed.

Lemma long_step_never_arrives_witness :
  Sim.run_simulation 1000 (Scenario.line_world (fun _ => 0%Z)) (Cases.hopper 10 5) = Diverge.
Proof. apply (long_step_never_arrives 10 5 (fun _ => 0%Z) 1000); lra. Defined.

(** X3: [compute_heading] answers within [[0, 360)], whatever azimuth
    [geod.inv] reports. *)
Theorem compute_heading_range (self : Sim.SimulationController) (lat1 lon1 lat2 lon2 : R) :
  Observe.heading_in_range (Sim.compute_heading self lat1 lon1 lat2 lon2).
Proof. apply SimFacts.compute_heading_in_range. Qed.

(** X4: a name that is not in [PLANNER_MAP] fails at construction with
    [ValueError]. *)
Theorem unsupported_variant_fails_at_construction name grid elevation penalty step
    iters dbg :
  Wrapper.PLANNER_MAP !! Wrapper.lower name = None ->
  Wrapper.init name grid elevation penalty step iters dbg = Raise ValueError.
Proof.
  intros H. unfold Wrapper.init. case_bool_decide as Ha.
  - rewrite Ha in H. vm_compute in H. discriminate H.
  - by rewrite H.
Qed.

Lemma unsupported_variant_fails_at_construction_witness :
  Wrapper.init "Dijkstra" [[0]]%Z None 1%float 1%float 1000 false = Raise ValueError.
Proof.
  apply (unsupported_variant_fails_at_construction "Dijkstra").
  vm_compute. reflexivity.
Defined.



(** X6: under a supported metric that gives a distance for every two of
    the waypoints ([geodesic] raises on a latitude outside [[-90, 90]]),
    [compute_cost_matrix] returns a matrix that is symmetric, zero on its
    diagonal, and holds at [i], [j] the distance between waypoints [i] and
    [j]. *)
Theorem cost_matrix_symmetric (geodesic : point -> point -> outcome R)
    (waypoints : list point) (metric : string) (dist : point -> point -> R) :
  metric = "euclidean" ∨ metric = "geodesic" ->
  (∀ wi wj, wi ∈ waypoints -> wj ∈ waypoints ->
     Tsp.distance geodesic metric wi wj = Ok (dist wi wj)) ->
  ∃ m, Tsp.compute_cost_matrix geodesic waypoints metric = Ok m
       ∧ ∀ i j wi wj, waypoints !! i = Some wi -> waypoints !! j = Some wj ->
           Tsp.cell m i j = Tsp.cell m j i
           ∧ Tsp.cell m i i = Some 0%R
           ∧ (j < i -> Tsp.cell m i j = Some (dist wi wj)).
Proof.
  intros Hm Hd.
  destruct (TspFacts.compute_cost_matrix_filled geodesic waypoints metric dist Hm Hd)
    as (m & Hrun & [Hsq Hdiag Hsym Hdone]).
  exists m. split; [done|]. intros i j wi wj Hi Hj.
  pose proof (lookup_lt_Some _ _ _ Hi). pose proof (lookup_lt_Some _ _ _ Hj).
  split; [by apply Hsym|]. split; [by apply Hdiag|].
  intros Hlt. by apply (Hdone i j).
Qed.

Lemma cost_matrix_symmetric_witness :
  ∃ m, Tsp.compute_cost_matrix Cases.geodesic_on_globe [(0, 0)%R; (3, 4)%R] "geodesic" = Ok m
       ∧ Tsp.cell m 1 0 = Tsp.cell m 0 1
       ∧ Tsp.cell m 1 1 = Some 0%R
       ∧ Tsp.cell m 1 0 = Some (Rabs (3 - 0) + Rabs (4 - 0))%R.
Proof.
  destruct (cost_matrix_symmetric Cases.geodesic_on_globe [(0, 0)%R; (3, 4)%R] "geodesic"
              (fun u v => (Rabs (u.1 - v.1) + Rabs (u.2 - v.2))%R))
    as (m & Hrun & Hm).
  - right. reflexivity.
  - apply CaseFacts.globe_measures.
  - exists m. split; [exact Hrun|].
    destruct (Hm 1%nat 0%nat (3, 4)%R (0, 0)%R) as (Hsym & Hdiag & Hval);
      [reflexivity|reflexivity|].
    split; [exact Hsym|]. split; [exact Hdiag|]. apply Hval. lia.
Defined.

(** X8: on the empty cost matrix [solve_tsp_christofides] returns no tour,
    whatever the library's [christofides] answers on the empty graph. *)
Theorem empty_matrix_gives_no_tour (christofides : Tsp.graph -> outcome (list nat)) :
  fails (Tsp.solve_tsp_christofides christofides []).
Proof.
  unfold Tsp.solve_tsp_christofides. rewrite TspFacts.build_graph_empty. simpl.
  destruct (christofides []) as [tour| |]; simpl; [|done..].
  destruct tour as [|u [|v tour]]; simpl; [done| |done].
  destruct (last [u]) ; done.
Qed.





(** X11: [_build_path] returns one cell per waypoint, and on a non-empty
    elevation grid every cell lies inside the grid, wherever the waypoint
    is. *)
Theorem build_path_cells_in_grid (self : Sim.SimulationController) (rcs : list node) :
  Sim._build_path self = Ok rcs ->
  (0 < shape0 (Sim.elevation self))%Z -> (0 < shape1 (Sim.elevation self))%Z ->
  length rcs = length (Sim.waypoints self)
  ∧ ∀ rc, rc ∈ rcs ->
      (0 <= rc.1 < shape0 (Sim.elevation self))%Z
      ∧ (0 <= rc.2 < shape1 (Sim.elevation self))%Z.
Proof.
  intros H H0 H1. destruct (SynthFacts.build_path_spec self rcs H) as [Hl Hin].
  split; [done|]. by apply Hin.
Qed.

Lemma build_path_cells_in_grid_witness :
  length [(0, 0); (0, 1)]%Z = 2%nat
  ∧ ∀ rc : node, rc ∈ [(0, 0); (0, 1)]%Z -> (0 <= rc.1 < 1)%Z ∧ (0 <= rc.2 < 2)%Z.
Proof.
  apply (build_path_cells_in_grid (Scenario.westward [[0; 0]]%Z) [(0, 0); (0, 1)]%Z).
  - apply SimFacts.westward_cells.
  - reflexivity.
  - reflexivity.
Defined.

(** X12: with fewer than two waypoints [run_simulation] raises
    [ValueError]. *)
Theorem too_few_waypoints_raise (fuel : nat) (w : Sim.World)
    (self : Sim.SimulationController) (rcs : list node) :
  Sim._build_path self = Ok rcs -> (length (Sim.waypoints self) < 2)%nat ->
  Sim.run_simulation fuel w self = Raise ValueError.
Proof. apply SynthFacts.run_simulation_few. Qed.

Lemma too_few_waypoints_raise_witness :
  Sim.run_simulation 10 (Scenario.line_world (fun k => Z.of_nat k)) Cases.lone
  = Raise ValueError.
Proof.
  apply (too_few_waypoints_raise 10 _ Cases.lone []).
  - reflexivity.
  - simpl. lia.
Defined.

(** X13: a cell whose elevation is nan is never reached. On binary64, when
    the elevation field holds nan at the goal, every tentative score of the
    goal is nan, [tentative_g < g_score[neighbor]] is false and the goal is
    never pushed: for a goal other than the start [find_path] comes back
    without a path, with [None] or with the [IndexError] of an elevation
    lookup, free as the way to the goal may be. *)
Theorem nan_elevation_is_never_reached (self : AStar64.AStarPlanner)
    (elev : ndarray float) (start goal : node) :
  AStar64.elevation self = Some elev ->
  np_get elev goal.1 goal.2 = Ok PrimFloat.nan ->
  start ≠ goal ->
  AStar64.find_path self start goal = Ok None
  ∨ AStar64.find_path self start goal = Raise IndexError.
Proof.
  intros He Hn Hne.
  pose proof (AStar64Facts.find_path_nan_goal self elev start goal He Hn Hne) as Hno.
  pose proof (AStar64Search.find_path64_total self start goal) as Htot.
  pose proof (AStar64Search.find_path64_raises self start goal) as Hr.
  destruct (AStar64.find_path self start goal) as [[p|]|e|]; [done|by left|right|done].
  by rewrite (Hr e).
Qed.

Lemma nan_elevation_is_never_reached_witness :
  AStar64.find_path Cases.hollow (0, 0)%Z (0, 1)%Z = Ok None.
Proof.
  destruct (nan_elevation_is_never_reached Cases.hollow [[0; nan]]%float (0, 0)%Z (0, 1)%Z)
    as [H|H].
  - reflexivity.
  - reflexivity.
  - discriminate.
  - exact H.
  - vm_compute in H. discriminate H.
Defined.

(** X15: [generate_new_point] hands the pixel of the new point to
    [is_valid_point], which reads it as a world point and maps it once more.
    Every pixel right of column 2 and below row 1 lands on the last cell of
    the first row, so for a new point with such a pixel that one cell
    decides: the nearest node is answered when it is an obstacle (0) and the
    new point when it is not, whatever the cell of the new point holds. *)
Theorem rrt_star_corner_decides_new_points (self : RRTStar.RRTStar)
    (nearest random_point : point) :
  (0 < shape0 (RRTStar.map self))%Z -> (0 < shape1 (RRTStar.map self))%Z ->
  norm2 (random_point.1 - nearest.1) (random_point.2 - nearest.2) ≠ 0%R ->
  (3 <= (RRTStar.world2map self (Observe.new_point_world self nearest random_point).1
                           (Observe.new_point_world self nearest random_point).2).1)%Z ->
  (2 <= (RRTStar.world2map self (Observe.new_point_world self nearest random_point).1
                           (Observe.new_point_world self nearest random_point).2).2)%Z ->
  RRTStar.generate_new_point self nearest random_point
  = Ok (if bool_decide (np_item (RRTStar.map self) 0 (shape1 (RRTStar.map self) - 1) = 0%Z)
        then nearest
        else Observe.new_point_world self nearest random_point).
Proof.
  intros H0 H1 Hlen Hx Hy.
  rewrite RRTStarFacts.generate_new_point_decided by done.
  rewrite RRTStarFacts.is_valid_point_of_pixel by done.
  by case_bool_decide.
Qed.

Lemma rrt_star_corner_decides_new_points_witness :
  RRTStar.world2map Cases.cornered_star (21 / 10) (- (28 / 10)) = (3, 2)%Z
  ∧ np_item (RRTStar.map Cases.cornered_star) 2 3 = 1%Z
  ∧ RRTStar.generate_new_point Cases.cornered_star (0, 0)%R (3, -4)%R = Ok (0, 0)%R.
Proof.
  split; [apply CaseFacts.cornered_pixel|]. split; [reflexivity|].
  rewrite (rrt_star_corner_decides_new_points Cases.cornered_star (0, 0)%R (3, -4)%R).
  - reflexivity.
  - reflexivity.
  - reflexivity.
  - cbn [fst snd]. rewrite CaseFacts.cornered_norm. lra.
  - rewrite CaseFacts.cornered_new. cbn [fst snd]. by rewrite CaseFacts.cornered_pixel.
  - rewrite CaseFacts.cornered_new. cbn [fst snd]. by rewrite CaseFacts.cornered_pixel.
Defined.

(** X16: a path that [RRT.find_path] returns starts at start, and every
    point after the first passed [is_collision_free] before it entered the
    tree: it lies within the map, on a cell that holds 0. The start itself
    is not checked. *)
Theorem rrt_path_well_formed (fuel : nat) (rnd : RRTPlan.Random) (self : RRT.RRT)
    (start goal : point) (path : list point) :
  RRTPlan.find_path fuel rnd self start goal = Ok (Some path) ->
  head path = Some start
  ∧ ∀ i a b, path !! i = Some a -> path !! S i = Some b ->
      RRT.is_collision_free self b = true.
Proof.
  intros H. unfold RRTPlan.find_path in H.
  pose proof (RRTFacts.plan_step_positive _ _ _ _ _ _ _ _ H) as Hpos.
  destruct (RRTFacts.plan_spec fuel rnd self start goal _ _ _ path
              (ltac:(lra)) (RRTFacts.grown_initial self start) H) as (Hh & Hl & Hhops).
  split; [done|]. intros i a b Ha Hb.
  by destruct (proj1 (RRTFacts.hops_lookup _ _) Hhops i a b Ha Hb).
Qed.

Lemma rrt_path_well_formed_witness :
  head [(0, 0)%R; (1, 0)%R] = Some (0, 0)%R
  ∧ ∀ i a b, [(0, 0)%R; (1, 0)%R] !! i = Some a -> [(0, 0)%R; (1, 0)%R] !! S i = Some b ->
      RRT.is_collision_free Cases.two_rows b = true.
Proof.
  apply (rrt_path_well_formed 3 Cases.goal_biased Cases.two_rows (0, 0)%R (1, 0)%R).
  apply CaseFacts.two_rows_run.
Defined.

(** X17: when start and goal are the same free point and the first sample
    is the goal, [RRT.find_path] never returns: the point becomes its own
    parent and [_reconstruct_path] walks that link for ever. *)
Theorem rrt_same_start_goal_never_returns (rnd : RRTPlan.Random) (self : RRT.RRT)
    (start : point) (fuel : nat) :
  (0 < RRT.step_size self)%R -> (0 < RRT.max_iter self)%nat ->
  RRT.is_collision_free self start = true ->
  (9 / 10 < RRTPlan.random rnd 0)%R ->
  RRTPlan.find_path fuel rnd self start start = Diverge.
Proof.
  intros Hs Hm Hfree Hr. unfold RRTPlan.find_path.
  destruct (RRT.max_iter self) as [|n]; [lia|]. cbn [RRTPlan.plan].
  unfold RRTPlan.sample_point. rewrite (proj2 (Rltb_true _ _) Hr).
  cbn [RRTPlan.nearest_neighbor fmap list_fmap fst RRTPlan.min_by]. rewrite bind_Ok_l.
  rewrite PlannerFacts.steer_same by lra. rewrite Hfree.
  rewrite RRTFacts.distance_same, (proj2 (Rltb_true _ _) Hs).
  unfold RRTPlan._reconstruct_path. cbn [RRTPlan.tree_set fst].
  rewrite decide_True by done. by rewrite RRTFacts.climb_self_parent.
Qed.

Lemma rrt_same_start_goal_never_returns_witness :
  RRTPlan.find_path 100 Cases.goal_biased Cases.two_rows (0, 0)%R (0, 0)%R = Diverge.
Proof.
  apply (rrt_same_start_goal_never_returns Cases.goal_biased Cases.two_rows (0, 0)%R 100).
  - simpl. lra.
  - simpl. lia.
  - apply PlannerFacts.is_collision_free_spec. cbn [fst snd].
    rewrite trunc_0. unfold shape0, shape1. simpl.
    change (Z.of_nat 2) with 2%Z. change (Z.of_nat 1) with 1%Z.
    split; [lra|]. split; [lra|done].
  - simpl. lra.
Defined.

(** X18: [GeoAwareRRT.find_path] raises [TypeError] on every query: its
    call [RRT(start_rc, goal_rc, self.grid, step_size=..., max_iter=...)]
    fills [step_size] twice. *)
Theorem geo_rrt_find_path_raises (run_plan : outcome (option (list point)))
    (self : GeoAwareRRT.GeoAwareRRT) (start_latlon goal_latlon : point) :
  GeoAwareRRT.find_path run_plan self start_latlon goal_latlon = Raise TypeError.
Proof. unfold GeoAwareRRT.find_path. by rewrite GeoFacts.rrt_constructor_call. Qed.

(** X19: [GeoAwareRRTStar.find_path] returns no path on any query: once
    the calls on [transform_func] have returned, the constructor call
    [RRTStar(map_path=None, start=..., goal=..., ...)] raises [ValueError],
    as it is given neither a map path nor a grid. *)
Theorem geo_rrt_star_find_path_raises (load_map : string -> outcome (ndarray Z))
    (run : RRTStar.RRTStar -> outcome (option (list point)))
    (self : GeoAwareRRTStar.GeoAwareRRTStar) (start_latlon goal_latlon : point) :
  fails (GeoAwareRRTStar.find_path load_map run self start_latlon goal_latlon).
Proof.
  unfold GeoAwareRRTStar.find_path.
  apply GeoFacts.fails_bind. intros start_rc.
  apply GeoFacts.fails_bind. intros goal_rc.
  apply GeoFacts.fails_bind. intros start_xy.
  apply GeoFacts.fails_bind. intros goal_xy.
  apply GeoFacts.fails_bind. intros _.
  by rewrite RRTStarFacts.init_without_map.
Qed.

(** X20: on a map with at least one cell [RRTStar.world2map] answers with a
    cell of the map for every world point, so [is_valid_point] never rejects
    a point for being out of bounds: it accepts exactly the points whose
    (clamped) cell is not 0. *)
Theorem rrt_star_validity_is_cell_test (self : RRTStar.RRTStar) (pt : point)
    (parent : option point) :
  (0 < shape0 (RRTStar.map self))%Z -> (0 < shape1 (RRTStar.map self))%Z ->
  ((0 <= (RRTStar.world2map self pt.1 pt.2).1 < shape1 (RRTStar.map self))%Z
   ∧ (0 <= (RRTStar.world2map self pt.1 pt.2).2 < shape0 (RRTStar.map self))%Z)
  ∧ (RRTStar.is_valid_point self pt parent = true
     <-> np_item (RRTStar.map self) (RRTStar.world2map self pt.1 pt.2).2
                 (RRTStar.world2map self pt.1 pt.2).1 ≠ 0%Z).
Proof.
  intros H0 H1. split.
  - by apply RRTStarFacts.world2map_in_bounds.
  - by apply RRTStarFacts.is_valid_point_cell.
Qed.

Lemma rrt_star_validity_is_cell_test_witness :
  ((0 <= (RRTStar.world2map Cases.grown_star 1000 1000).1 < 1)%Z
   ∧ (0 <= (RRTStar.world2map Cases.grown_star 1000 1000).2 < 1)%Z)
  ∧ (RRTStar.is_valid_point Cases.grown_star (1000, 1000)%R None = true
     <-> np_item [[1]]%Z (RRTStar.world2map Cases.grown_star 1000 1000).2
                 (RRTStar.world2map Cases.grown_star 1000 1000).1 ≠ 0%Z).
Proof.
  apply (rrt_star_validity_is_cell_test Cases.grown_star (1000, 1000)%R None).
  - reflexivity.
  - reflexivity.
Defined.

(** X21: the class never records an edge, and with no edge recorded
    [get_final_path] returns [None] whenever the last node is not the
    start. *)
Theorem rrt_star_final_path_without_edges (fuel : nat) (self : RRTStar.RRTStar)
    (node : point) :
  RRTStar.edges self = [] -> last (RRTStar.nodes self) = Some node ->
  node ≠ RRTStar.start self ->
  RRTStarTree.get_final_path (S fuel) self = Ok None.
Proof.
  intros He Hl Hn. unfold RRTStarTree.get_final_path. rewrite Hl. cbn [or_raise].
  rewrite bind_Ok_l. by rewrite RRTStarFacts.trace_back_no_edges.
Qed.

Lemma rrt_star_final_path_without_edges_witness :
  RRTStarTree.get_final_path 1 Cases.grown_star = Ok None.
Proof.
  apply (rrt_star_final_path_without_edges 0 Cases.grown_star (1, 1)%R).
  - reflexivity.
  - reflexivity.
  - simpl. intros [= H]. lra.
Defined.

(** X22: for a supported metric that gives a distance for every two of
    the waypoints, the graph that [build_graph_from_matrix] builds from the
    cost matrix is complete: every two different waypoint indices are joined
    by an edge whose weight is the distance between the waypoints. *)
Theorem tsp_graph_is_complete (geodesic : point -> point -> outcome R)
    (waypoints : list point) (metric : string) (dist : point -> point -> R) :
  metric = "euclidean" ∨ metric = "geodesic" ->
  (∀ wi wj, wi ∈ waypoints -> wj ∈ waypoints ->
     Tsp.distance geodesic metric wi wj = Ok (dist wi wj)) ->
  ∃ m G, Tsp.compute_cost_matrix geodesic waypoints metric = Ok m
         ∧ Tsp.build_graph_from_matrix m = Ok G
         ∧ ∀ i j wi wj, (j < i)%nat -> waypoints !! i = Some wi -> waypoints !! j = Some wj ->
             (i, j, dist wi wj) ∈ G.
Proof.
  intros Hm Hd.
  destruct (TspFacts.compute_cost_matrix_filled geodesic waypoints metric dist Hm Hd)
    as (m & Hrun & [Hsq Hdiag Hsym Hdone]).
  destruct (GraphFacts.build_graph_complete _ m Hsq) as (G & HG & Hedges).
  exists m, G. split; [done|]. split; [done|].
  intros i j wi wj Hji Hi Hj. pose proof (lookup_lt_Some _ _ _ Hi).
  apply Hedges; [done|done|]. by apply (Hdone i j).
Qed.

Lemma tsp_graph_is_complete_witness :
  ∃ m G, Tsp.compute_cost_matrix Cases.geodesic_on_globe [(0, 0)%R; (3, 4)%R] "geodesic"
         = Ok m
         ∧ Tsp.build_graph_from_matrix m = Ok G
         ∧ (1%nat, 0%nat, (Rabs (3 - 0) + Rabs (4 - 0))%R) ∈ G.
Proof.
  destruct (tsp_graph_is_complete Cases.geodesic_on_globe [(0, 0)%R; (3, 4)%R] "geodesic"
              (fun u v => (Rabs (u.1 - v.1) + Rabs (u.2 - v.2))%R))
    as (m & G & Hm & HG & Hedges).
  - right. reflexivity.
  - apply CaseFacts.globe_measures.
  - exists m, G. split; [exact Hm|]. split; [exact HG|].
    apply (Hedges 1%nat 0%nat (3, 4)%R (0, 0)%R); [lia|reflexivity|reflexivity].
Defined.



(** X24: the polygons that [generate_waypoints] keeps have pairwise
    different cells, are among the ranked ones, and every cell of a ranked
    polygon is the cell of a kept one. *)
Theorem deduped_cells_are_distinct {P : Type} (centroid : P -> point) (dem : ndarray R)
    (transform : Sim.Transform) (ranked : list P) (st : gset node * list P) :
  Builder.dedupe centroid dem transform ranked = Ok st ->
  (∀ p, p ∈ st.2 -> p ∈ ranked)
  ∧ (∀ i j p q k, st.2 !! i = Some p -> st.2 !! j = Some q ->
       Builder.cell_key centroid dem transform p = Ok k ->
       Builder.cell_key centroid dem transform q = Ok k -> i = j)
  ∧ (∀ p k, p ∈ ranked -> Builder.cell_key centroid dem transform p = Ok k ->
       ∃ q, q ∈ st.2 ∧ Builder.cell_key centroid dem transform q = Ok k).
Proof. apply DataFacts.dedupe_spec. Qed.

Lemma deduped_cells_are_distinct_witness :
  (∀ p : nat, p ∈ [7%nat] -> p ∈ [7%nat; 8%nat])
  ∧ (∀ (p : nat) k, p ∈ [7%nat; 8%nat] ->
       Builder.cell_key (fun _ : nat => (0, 0)%R) [[5]]%R Scenario.unit_transform p = Ok k ->
       ∃ q, q ∈ [7%nat]
            ∧ Builder.cell_key (fun _ : nat => (0, 0)%R) [[5]]%R Scenario.unit_transform q
              = Ok k).
Proof.
  destruct (deduped_cells_are_distinct (fun _ : nat => (0, 0)%R) [[5]]%R
              Scenario.unit_transform [7%nat; 8%nat] _ CaseFacts.dedupe_two)
    as (H1 & _ & H3).
  split; [exact H1|exact H3].
Defined.

(** X25: when [generate_ordered_waypoints] returns, its list is not empty
    and follows the tour of the library: the waypoint at place [k] is the
    one whose index the tour has at place [k], one waypoint per place of
    the tour. *)
Theorem ordered_waypoints_follow_tour (geodesic : point -> point -> outcome R)
    (christofides : Tsp.graph -> outcome (list nat))
    (waypoints : list Utils.FlightWaypoint) (metric : string)
    (ordered : list Utils.FlightWaypoint) :
  Builder.generate_ordered_waypoints geodesic christofides waypoints metric = Ok ordered ->
  ∃ cost_matrix G tour,
    Tsp.compute_cost_matrix geodesic
      ((fun wp => (Utils.fw_lat wp, Utils.fw_lon wp)) <$> waypoints) metric = Ok cost_matrix
    ∧ Tsp.build_graph_from_matrix cost_matrix = Ok G
    ∧ christofides G = Ok tour
    ∧ tour ≠ []
    ∧ length ordered = length tour
    ∧ ∀ k i, tour !! k = Some i -> ordered !! k = waypoints !! i.
Proof. apply DataFacts.generate_ordered_spec. Qed.

Lemma ordered_waypoints_follow_tour_witness :
  ∃ tour : list nat,
    tour ≠ [] ∧ length Cases.pair_of_waypoints = length tour
    ∧ ∀ k i, tour !! k = Some i ->
        Cases.pair_of_waypoints !! k = Cases.pair_of_waypoints !! i.
Proof.
  destruct (ordered_waypoints_follow_tour Cases.geodesic_on_globe (fun _ => Ok [0%nat; 1%nat])
              Cases.pair_of_waypoints "euclidean" Cases.pair_of_waypoints
              (CaseFacts.ordered_pair _))
    as (cm & G & tour & _ & _ & _ & Hne & Hlen & Hk).
  exists tour. split; [exact Hne|]. split; [exact Hlen|exact Hk].
Defined.

(** X26: a configuration string that starts with an environment reference
    is replaced as a whole, whatever follows the closing brace: by the value
    of the variable when it is set, else by the default of the reference,
    else by [None]. *)
Theorem env_reference_replaces_whole_string (env : gmap string string)
    (key dflt rest : string) :
  key ≠ EmptyString -> dflt ≠ EmptyString ->
  Config.all_chars (fun c => negb (bool_decide (c = Config.colon))
                             && negb (bool_decide (c = Config.closing))) key = true ->
  Config.all_chars (fun c => negb (bool_decide (c = Config.closing))) dflt = true ->
  Config._expand_env_vars env (Config.YStr ("${" +:+ key +:+ "}" +:+ rest))
  = match env !! key with
    | Some value => Config.YStr value
    | None => Config.YNone
    end
  ∧ Config._expand_env_vars env
      (Config.YStr ("${" +:+ key +:+ ":" +:+ dflt +:+ "}" +:+ rest))
    = match env !! key with
      | Some value => Config.YStr value
      | None => Config.YStr dflt
      end.
Proof.
  intros Hk Hd Hkey Hdflt. split.
  - change (Config._expand_env_vars env (Config.YStr ("${" +:+ key +:+ "}" +:+ rest)))
      with (match Config.env_match ("${" +:+ key +:+ "}" +:+ rest) with
            | Some (env_key, dflt) =>
                match env !! env_key with
                | Some value => Config.YStr value
                | None => match dflt with
                          | Some d => Config.YStr d
                          | None => Config.YNone
                          end
                end
            | None => Config.YStr ("${" +:+ key +:+ "}" +:+ rest)
            end).
    by rewrite ConfigFacts.env_match_plain.
  - change (Config._expand_env_vars env
              (Config.YStr ("${" +:+ key +:+ ":" +:+ dflt +:+ "}" +:+ rest)))
      with (match Config.env_match ("${" +:+ key +:+ ":" +:+ dflt +:+ "}" +:+ rest) with
            | Some (env_key, dflt) =>
                match env !! env_key with
                | Some value => Config.YStr value
                | None => match dflt with
                          | Some d => Config.YStr d
                          | None => Config.YNone
                          end
                end
            | None => Config.YStr ("${" +:+ key +:+ ":" +:+ dflt +:+ "}" +:+ rest)
            end).
    by rewrite ConfigFacts.env_match_default.
Qed.

Lemma env_reference_replaces_whole_string_witness :
  Config._expand_env_vars ∅ (Config.YStr "${DB_HOST}:5432") = Config.YNone
  ∧ Config._expand_env_vars ∅ (Config.YStr "${DB_HOST:localhost}:5432")
    = Config.YStr "localhost".
Proof.
  destruct (env_reference_replaces_whole_string ∅ "DB_HOST" "localhost" ":5432")
    as [H1 H2]; [by vm_compute..|].
  split; [exact H1|exact H2].
Defined.

(** X27: an interval that [parse_interval] rejects with status 400 makes
    [resample_api] answer with status 500: the handler catches its own 400. *)
Theorem invalid_interval_answers_500 {Conn Row : Type} (split : string -> list string)
    (to_int : string -> option Z) (db : Api.Database Conn Row)
    (drone_id interval : string) (e : Api.error) :
  Api.parse_interval split to_int interval = Api.Raised e ->
  e = Api.HTTPException 400
  ∧ Api.resample_api split to_int db drone_id interval
    = Api.Raised (Api.HTTPException 500).
Proof.
  intros H. split; [by eapply ApiFacts.parse_interval_raised|].
  unfold Api.resample_api. by rewrite H.
Qed.

Lemma invalid_interval_answers_500_witness :
  Api.HTTPException 400 = Api.HTTPException 400
  ∧ Api.resample_api (fun _ => ["1"; "hour"]) (fun _ => Some 1%Z) Cases.empty_db
      "drone_1" "1 hour" = Api.Raised (Api.HTTPException 500).
Proof.
  apply (invalid_interval_answers_500 (fun _ => ["1"; "hour"]) (fun _ => Some 1%Z)
           Cases.empty_db "drone_1" "1 hour" (Api.HTTPException 400)).
  vm_compute. reflexivity.
Defined.

(** X28: for a drone without points [get_start_location] answers with
    status 500, not with the 404 that it raises: the handler catches it. *)
Theorem missing_drone_answers_500 {Conn Row : Type} (db : Api.Database Conn Row)
    (drone_id : string) (conn : Conn) :
  Api.get_asyncpg_conn db = Api.Returned conn ->
  Api.get_first_point db conn drone_id = Api.Returned None ->
  Api.close db conn = Api.Returned tt ->
  Api.get_start_location db drone_id = Api.Raised (Api.HTTPException 500).
Proof.
  intros H1 H2 H3. unfold Api.get_start_location. rewrite H1. simpl.
  rewrite H2. simpl. by rewrite H3.
Qed.

Lemma missing_drone_answers_500_witness :
  Api.get_start_location Cases.empty_db "drone_1" = Api.Raised (Api.HTTPException 500).
Proof.
  apply (missing_drone_answers_500 Cases.empty_db "drone_1" tt); reflexivity.
Defined.

(** X29: [get_psycopg_conn] never makes a second attempt: with at least one
    retry allowed, its result is that of the first [connect], where a
    [psycopg2.OperationalError] turns into the [NameError] of
    [time.sleep]. *)
Theorem db_connect_never_retries {Conn : Type} (connect : nat -> Db.result Conn)
    (retries : nat) :
  Db.get_psycopg_conn connect (S retries)
  = match connect 0%nat with
    | Db.Returned conn => Db.Returned conn
    | Db.Raised Db.OperationalError => Db.Raised Db.NameError
    | Db.Raised e => Db.Raised e
    end.
Proof. apply DbFacts.attempts_first. Qed.

(** X30: whatever requests are served, [/api/gps/next] never hands out a
    point: while playback is paused it answers so, and otherwise its call
    [query.get_all_trace(_psycopg_cur)] raises [TypeError], so that no trace
    is ever loaded. *)
Theorem playback_never_serves_a_point {Row : Type} (rows : list Row)
    (reqs : list Playback.request) (a : outcome (Playback.answer Row)) :
  Some a ∈ Playback.serve rows Playback.initial reqs ->
  a = Ok Playback.Paused ∨ a = Raise TypeError.
Proof. by apply PlaybackFacts.serve_without_trace. Qed.

Lemma playback_never_serves_a_point_witness :
  @Raise (Playback.answer nat) TypeError = Ok Playback.Paused
  ∨ @Raise (Playback.answer nat) TypeError = Raise TypeError.
Proof.
  apply (playback_never_serves_a_point [7%nat] [Playback.PostPlay; Playback.GetNext]).
  vm_compute. apply list_elem_of_In. simpl. auto.
Defined.

(** X31: on binary64 too, [AStarPlanner.find_path] comes back on every
    grid, elevation field, penalty, start and goal, whatever the floats are
    (nan and the infinities included). A cell that is taken off the heap a
    second time pushes nothing, since the scores only went down in between,
    so the [while] loop ends within [search_fuel] turns: with a path, with
    [None], or with the [IndexError] of an elevation lookup. *)
Theorem astar_float_search_terminates (self : AStar64.AStarPlanner) (start goal : node) :
  (∃ r, AStar64.find_path self start goal = Ok r)
  ∨ AStar64.find_path self start goal = Raise IndexError.
Proof.
  pose proof (AStar64Search.find_path64_total self start goal) as Htot.
  pose proof (AStar64Search.find_path64_raises self start goal) as Hr.
  destruct (AStar64.find_path self start goal) as [r|e|]; [left; by exists r|right|done].
  by rewrite (Hr e).
Qed.
